(** * book-trash: agent contract, structured-output recovery and workflow scheduler

    A shallow embedding of the TypeScript back end's agent layer
    ([base-agent.abstract.ts], [keypoint-extractor.agent.ts],
    [learning-path.agent.ts], [quiz.agent.ts], [langgraph-workflow.ts])
    of the service method that runs a workflow
    ([ai-workflow.service.ts]) and of the orchestrator that calls the
    agents in turn ([agent-orchestrator.ts]), together with the
    properties its specification states about it and further properties
    of the code.

    Conventions of the embedding.
    - A JavaScript string is a [string]; ASCII text is kept as it is and
      other text stands as its UTF-8 bytes, which keeps equality,
      concatenation and substring tests; [\s] is the ASCII white space.
    - A JavaScript integer-valued number is a [Z] (or [nat] for an index).
      This is what the doubles of the code hold as long as the numbers
      stay small; a statement about numbers that the code does not bound
      itself carries the bound as a hypothesis.
    - An optional or possibly [undefined] field is an [option].
    - A JavaScript exception is the [Throw] branch of [Completion]; a
      [try]/[catch] is [try_catch].
    - The text-generation back end, the clock and [JSON.parse] are
      parameters of the functions that use them. *)

From Stdlib Require Import ZArith String Ascii List Lia.
From Stdlib Require Import DecimalString Decimal DecimalPos DecimalN.
From stdpp Require Import base option list strings gmap.

Open Scope string_scope.
Open Scope list_scope.
Open Scope nat_scope.

(** ** Completions: normal return or thrown [Error] *)

Inductive Completion (A : Type) : Type :=
  | Normal (value : A)
  | Throw (message : string).
Arguments Normal {A} value.
Arguments Throw {A} message.

#[global] Instance Completion_ret : MRet Completion := λ A a, Normal a.

#[global] Instance Completion_bind : MBind Completion := λ A B k c,
  match c with
  | Normal a => k a
  | Throw m => Throw m
  end.

(** [try { body } catch (error) { handler error.message }]. *)
Definition try_catch {A} (body : Completion A) (handler : string → Completion A)
  : Completion A :=
  match body with
  | Normal a => Normal a
  | Throw m => handler m
  end.

(** ** The JavaScript string operations the agents use *)

Module Js.

(** [x || d] on a possibly-undefined string: the empty string is falsy. *)
Definition or_else (x : option string) (d : string) : string :=
  match x with
  | Some s => if decide (s = "") then d else s
  | None => d
  end.

Definition truthy (x : option string) : bool :=
  match x with
  | Some s => negb (bool_decide (s = ""))
  | None => false
  end.

(** [\s], restricted to ASCII: space, TAB, LF, VT, FF, CR. *)
Definition is_space (c : ascii) : bool :=
  let n := nat_of_ascii c in
  (n =? 32)%nat || ((9 <=? n)%nat && (n <=? 13)%nat).

Definition is_digit (c : ascii) : bool :=
  let n := nat_of_ascii c in (48 <=? n)%nat && (n <=? 57)%nat.

Fixpoint trimStart (s : string) : string :=
  match s with
  | String c r => if is_space c then trimStart r else s
  | EmptyString => EmptyString
  end.

(** [trimEnd] keeps a character when it is not white space or when
    something that is kept follows it. *)
Fixpoint trimEnd (s : string) : string :=
  match s with
  | String c r =>
      match trimEnd r with
      | EmptyString => if is_space c then EmptyString else String c EmptyString
      | r' => String c r'
      end
  | EmptyString => EmptyString
  end.

Definition trim (s : string) : string := trimEnd (trimStart s).

(** [s.replace(/\s+/g, ' ')]: every maximal run of white space becomes
    one space; [in_run] says that the previous character was white space. *)
Fixpoint replace_ws_runs (in_run : bool) (s : string) : string :=
  match s with
  | String c r =>
      if is_space c
      then (if in_run then replace_ws_runs true r
            else String " " (replace_ws_runs true r))
      else String c (replace_ws_runs false r)
  | EmptyString => EmptyString
  end.

Definition is_crlf (c : ascii) : bool :=
  let n := nat_of_ascii c in (n =? 10)%nat || (n =? 13)%nat.

(** [s.replace(/[\r\n]+/g, ' ')]. *)
Fixpoint replace_crlf_runs (in_run : bool) (s : string) : string :=
  match s with
  | String c r =>
      if is_crlf c
      then (if in_run then replace_crlf_runs true r
            else String " " (replace_crlf_runs true r))
      else String c (replace_crlf_runs false r)
  | EmptyString => EmptyString
  end.

Definition startsWith (s p : string) : bool := String.prefix p s.

(** [s.includes(sub)]. *)
Fixpoint includes (s sub : string) : bool :=
  String.prefix sub s ||
  match s with
  | String _ r => includes r sub
  | EmptyString => false
  end.

(** [s.substring(0, n)] for [0 <= n]. *)
Fixpoint substring0 (n : nat) (s : string) : string :=
  match n, s with
  | S m, String c r => String c (substring0 m r)
  | _, _ => EmptyString
  end.

(** [s.substring(n)]. *)
Fixpoint substring_from (n : nat) (s : string) : string :=
  match n, s with
  | S m, String _ r => substring_from m r
  | _, _ => s
  end.

(** [toLowerCase], on the letters [A] to [Z]; other characters are
    left as they are. *)
Definition lower (c : ascii) : ascii :=
  let n := nat_of_ascii c in
  if (65 <=? n)%nat && (n <=? 90)%nat then ascii_of_nat (n + 32) else c.

Fixpoint toLowerCase (s : string) : string :=
  match s with
  | String c r => String (lower c) (toLowerCase r)
  | EmptyString => EmptyString
  end.

(** [s.split('\n')]: never empty, the last piece may be [""]. *)
Fixpoint split_lines (s : string) : list string :=
  match s with
  | String c r =>
      if (nat_of_ascii c =? 10)%nat then EmptyString :: split_lines r
      else match split_lines r with
           | l :: ls => String c l :: ls
           | [] => [String c EmptyString]
           end
  | EmptyString => [EmptyString]
  end.

(** Template-literal printing of an integer. *)
Definition string_of_nat (n : nat) : string :=
  NilZero.string_of_uint (Nat.to_uint n).

Definition string_of_Z (z : Z) : string :=
  NilZero.string_of_int (Z.to_int z).

(** The leading digits of [s], as [\d+] matched at its start, and what
    follows them. *)
Fixpoint span_digits (s : string) : string * string :=
  match s with
  | String c r =>
      if is_digit c then let '(d, rest) := span_digits r in (String c d, rest)
      else (EmptyString, s)
  | EmptyString => (EmptyString, EmptyString)
  end.

(** [s.match(/\d+/)]: the first maximal run of digits, if any. *)
Fixpoint match_digits (s : string) : option string :=
  match s with
  | String c r =>
      if is_digit c then Some (fst (span_digits s)) else match_digits r
  | EmptyString => None
  end.

(** [parseInt] of a run of digits: the number written, which is what
    the code holds as long as a double holds it exactly. *)
Fixpoint parse_digits (acc : N) (s : string) : N :=
  match s with
  | String c r => parse_digits (10 * acc + (N.of_nat (nat_of_ascii c) - 48))%N r
  | EmptyString => acc
  end.

Definition parseInt (digits : string) : N := parse_digits 0%N digits.

(** [arr.slice(0, end)]: a negative [end] counts from the end. *)
Definition slice0 {A} (l : list A) (end_ : Z) : list A :=
  if (end_ <? 0)%Z then take (Z.to_nat (Z.of_nat (length l) + end_)) l
  else take (Z.to_nat end_) l.

(** [arr.findIndex(p)]; [None] stands for [-1]. *)
Fixpoint findIndex {A} (p : A → bool) (l : list A) : option nat :=
  match l with
  | x :: r => if p x then Some 0%nat else S <$> findIndex p r
  | [] => None
  end.

(** [arr.filter((x, index) => f x index)], the indices counted from [i]. *)
Fixpoint filter_from {A} (i : nat) (f : A → nat → bool) (l : list A) : list A :=
  match l with
  | x :: r => if f x i then x :: filter_from (S i) f r else filter_from (S i) f r
  | [] => []
  end.

Definition filter_indexed {A} (f : A → nat → bool) (l : list A) : list A :=
  filter_from 0 f l.

(** [s.replace(/\s+/g, '')]. *)
Fixpoint remove_ws (s : string) : string :=
  match s with
  | String c r => if is_space c then remove_ws r else String c (remove_ws r)
  | EmptyString => EmptyString
  end.

(** [arr.join(sep)] on an array of strings. *)
Fixpoint join (sep : string) (arr : list string) : string :=
  match arr with
  | [] => ""
  | [x] => x
  | x :: rest => x +:+ sep +:+ join sep rest
  end.

(** *** Reading a text *)

(** A text is single-spaced when its only white space is the space
    character and no two spaces follow each other; [after_space] says
    that a space comes just before [s]. *)
Fixpoint single_spaced (after_space : bool) (s : string) : bool :=
  match s with
  | String c r =>
      if is_space c
      then bool_decide (c = " "%char) && negb after_space && single_spaced true r
      else single_spaced false r
  | EmptyString => true
  end.

(** Some character of [s] is not white space. *)
Fixpoint has_ink (s : string) : bool :=
  match s with
  | String c r => negb (is_space c) || has_ink r
  | EmptyString => false
  end.


(** A text is tidy within [n] when it is not empty, has at most [n]
    characters, is single-spaced and does not start with a space. *)
Definition tidy_within (n : nat) (s : string) : Prop :=
  s ≠ "" ∧ String.length s ≤ n ∧ single_spaced true s = true.

(** Every character of [s] is a decimal digit. *)
Fixpoint all_digits (s : string) : bool :=
  match s with
  | String c r => is_digit c && all_digits r
  | EmptyString => true
  end.

(** The number that the digits of [d] stand for when they follow the
    digits of [acc]. *)
Fixpoint uint_val (acc : N) (d : Decimal.uint) : N :=
  match d with
  | Nil => acc
  | D0 d => uint_val (10 * acc + 0) d
  | D1 d => uint_val (10 * acc + 1) d
  | D2 d => uint_val (10 * acc + 2) d
  | D3 d => uint_val (10 * acc + 3) d
  | D4 d => uint_val (10 * acc + 4) d
  | D5 d => uint_val (10 * acc + 5) d
  | D6 d => uint_val (10 * acc + 6) d
  | D7 d => uint_val (10 * acc + 7) d
  | D8 d => uint_val (10 * acc + 8) d
  | D9 d => uint_val (10 * acc + 9) d
  end%N.

End Js.







(** ** Domain records ([agent-types.ts], [base-agent.interface.ts]) *)

Module DocumentContent.
(** The optional [metadata] block is not read by the code below. *)
Record t := mk { title : string; content : string; url : string }.
End DocumentContent.

Module KeyPoint.
Record t := mk {
  concept : string;
  description : string;
  importance : string;
  category : option string;
  examples : option (list string) }.

(** [Partial<KeyPoint>]: what the text parser accumulates, and what an
    array read from the model's JSON holds before it is validated. *)
Record partial := mkPartial {
  p_concept : option string;
  p_description : option string;
  p_importance : option string;
  p_category : option string;
  p_examples : option (list string) }.

Definition to_partial (kp : t) : partial :=
  mkPartial (Some (concept kp)) (Some (description kp)) (Some (importance kp))
            (category kp) (examples kp).
End KeyPoint.

Module LearningStep.
Record t := mk {
  step : string;
  time : string;
  description : string;
  code : option string;
  prerequisites : option (list string);
  resources : option (list string) }.

(** A step as the model's JSON gives it: any field may be missing. *)
Record raw := mkRaw {
  r_step : option string;
  r_time : option string;
  r_description : option string;
  r_code : option string;
  r_prerequisites : option (list string);
  r_resources : option (list string) }.
End LearningStep.

Module QuizQuestion.
Record t := mk {
  id : string;
  type : string;
  question : string;
  options : list string;
  correctAnswer : string;
  explanation : string;
  difficulty : string;
  concept : string;
  points : Z }.

(** The [any] argument of [validateAndNormalizeQuestion]; [r_options] is
    [None] when [question.options] is not an array, and [r_points] is
    [None] when [question.points] is not a number. *)
Record raw := mkRaw {
  r_id : option string;
  r_type : option string;
  r_question : option string;
  r_options : option (list string);
  r_correctAnswer : option string;
  r_explanation : option string;
  r_difficulty : option string;
  r_concept : option string;
  r_points : option Z }.
End QuizQuestion.

Inductive UserLevel := beginner | intermediate | advanced.

#[global] Instance UserLevel_eq_dec : EqDecision UserLevel.
Proof. solve_decision. Defined.

Record AgentContext := {
  ctx_sessionId : string;
  ctx_userLevel : option UserLevel;
  ctx_documentContent : option string;
  ctx_dialogHistory : option (list (string * string)) }.

(** [metadata] is kept as the number of attempts it records. *)
Record AgentResult (T : Type) := {
  success : bool;
  data : option T;
  error : option string;
  attempts : option Z }.
Arguments success {T} _.
Arguments data {T} _.
Arguments error {T} _.
Arguments attempts {T} _.

Inductive AgentErrorType :=
  | INVALID_INPUT | NETWORK_ERROR | PARSING_ERROR
  | LLM_ERROR | TIMEOUT_ERROR | UNKNOWN_ERROR.

#[global] Instance AgentErrorType_eq_dec : EqDecision AgentErrorType.
Proof. solve_decision. Defined.

(** The string value of each enum member. *)
Definition error_tag (e : AgentErrorType) : string :=
  match e with
  | INVALID_INPUT => "INVALID_INPUT"
  | NETWORK_ERROR => "NETWORK_ERROR"
  | PARSING_ERROR => "PARSING_ERROR"
  | LLM_ERROR => "LLM_ERROR"
  | TIMEOUT_ERROR => "TIMEOUT_ERROR"
  | UNKNOWN_ERROR => "UNKNOWN_ERROR"
  end.

(** ** The agent contract ([base-agent.abstract.ts]) *)

Module BaseAgent.

Record AgentConfig := {
  name : string;
  description : string;
  maxRetries : option Z;
  timeout : option Z }.

(** The constructor stores [{maxRetries: 3, timeout: 30000, ...config}]. *)
Definition construct (config : AgentConfig) : AgentConfig :=
  {| name := name config;
     description := description config;
     maxRetries := Some (default 3%Z (maxRetries config));
     timeout := Some (default 30000%Z (timeout config)) |}.

Module Status.
Inductive t := idle | running | error.

#[global] Instance eq_dec : EqDecision t.
Proof. solve_decision. Defined.
End Status.

Inductive AgentEventType := STARTED | COMPLETED | ERROR | PROGRESS.

#[global] Instance AgentEventType_eq_dec : EqDecision AgentEventType.
Proof. solve_decision. Defined.

(** One attempt of [doExecute] either settles after [elapsed]
    milliseconds, by returning or by throwing, or never settles. *)
Inductive Attempt (T : Type) :=
  | Settles (elapsed : Z) (outcome : Completion T)
  | Hangs.
Arguments Settles {T} elapsed outcome.
Arguments Hangs {T}.

(** What a concrete agent supplies; [doExecute k] is the behaviour of
    the [k]-th call, since the back end need not answer twice alike.
    [initializeLLM] is the outcome of the asynchronous model lookup. *)
Record Agent (TInput TOutput : Type) := {
  config : AgentConfig;
  validateInput : TInput → bool;
  initializeLLM : Completion ();
  doExecute : Z → TInput → AgentContext → Attempt TOutput }.
Arguments config {TInput TOutput} _.
Arguments validateInput {TInput TOutput} _ _.
Arguments initializeLLM {TInput TOutput} _.
Arguments doExecute {TInput TOutput} _ _ _ _.

(** The observable effects of [execute], in the order they happen. *)
Inductive Effect :=
  | SetStatus (s : Status.t)
  | Emit (type : AgentEventType) (sessionId : string) (error : option string)
  | Call (attempt : Z)
  | Delay (ms : Z).

#[global] Instance Effect_eq_dec : EqDecision Effect.
Proof. solve_decision. Defined.

Definition timeout_message (timeout : Z) : string :=
  "Operation timeout after " +:+ Js.string_of_Z timeout +:+ "ms".

(** [Promise.race] of the operation against a timer that rejects. *)
Definition executeWithTimeout {T} (operation : Attempt T) (timeout : Z)
  : Completion T :=
  match operation with
  | Settles elapsed outcome =>
      if (elapsed <? timeout)%Z then outcome else Throw (timeout_message timeout)
  | Hangs => Throw (timeout_message timeout)
  end.

(** [safeJsonParse]: the parser's exception becomes the fallback. *)
Definition safeJsonParse {T} (JSON_parse : string → Completion T)
    (text : string) (fallback : T) : T :=
  match JSON_parse text with
  | Normal v => v
  | Throw _ => fallback
  end.

Definition cleanText (text : string) : string :=
  Js.trim (Js.replace_crlf_runs false (Js.replace_ws_runs false text)).

(** [truncateText]; [substring] reads a negative end as zero. *)
Definition truncateText (text : string) (maxLength : Z) : string :=
  if (Z.of_nat (String.length text) <=? maxLength)%Z then text
  else Js.substring0 (Z.to_nat (maxLength - 3)) text +:+ "...".

Record Run (T : Type) := {
  result : Completion (AgentResult T);
  status : Status.t;
  trace : list Effect }.
Arguments result {T} _.
Arguments status {T} _.
Arguments trace {T} _.

Section Execute.
Context {TInput TOutput : Type} (agent : Agent TInput TOutput).
Context (input : TInput) (context : AgentContext).

(** [this.config.maxRetries || 3]: zero counts as unset. *)
Definition effective_maxRetries : Z :=
  match maxRetries (config agent) with
  | Some n => if (n =? 0)%Z then 3%Z else n
  | None => 3%Z
  end.

Definition effective_timeout : Z :=
  match timeout (config agent) with
  | Some n => if (n =? 0)%Z then 30000%Z else n
  | None => 30000%Z
  end.

Definition errorMessage (lastError : option string) : string :=
  "Agent " +:+ name (config agent) +:+ " failed after "
    +:+ Js.string_of_Z effective_maxRetries +:+ " attempts: "
    +:+ default "undefined" lastError.

(** What follows the loop once every attempt is spent: status
    [error], the [error] event and the failure result. *)
Definition exhausted (lastError : option string) (tr : list Effect)
  : Run TOutput :=
  let msg := errorMessage lastError in
  {| result := Normal {| success := false; data := None;
                         error := Some msg; attempts := None |};
     status := Status.error;
     trace := tr ++ [SetStatus Status.error;
                     Emit ERROR (ctx_sessionId context) (Some msg)] |}.

(** The [for (attempt = 1; attempt <= maxRetries; attempt++)] loop;
    [fuel] bounds the number of iterations. *)
Fixpoint attempt_loop (fuel : nat) (attempt : Z) (lastError : option string)
    (tr : list Effect) : option (Run TOutput) :=
  match fuel with
  | O => None
  | S fuel' =>
      if (attempt <=? effective_maxRetries)%Z then
        let tr := tr ++ [Call attempt] in
        match executeWithTimeout (doExecute agent attempt input context)
                                 effective_timeout with
        | Normal result =>
            Some {| result := Normal {| success := true; data := Some result;
                                        error := None; attempts := Some attempt |};
                    status := Status.idle;
                    trace := tr ++ [SetStatus Status.idle;
                                    Emit COMPLETED (ctx_sessionId context) None] |}
        | Throw message =>
            let tr := if (attempt <? effective_maxRetries)%Z
                      then tr ++ [Delay (1000 * attempt)] else tr in
            attempt_loop fuel' (attempt + 1)%Z (Some message) tr
        end
      else Some (exhausted lastError tr)
  end.

(** [execute], started in status [st0]. [None] would mean that the
    retry loop did not finish within its bound. *)
Definition execute (st0 : Status.t) : option (Run TOutput) :=
  if negb (validateInput agent input) then
    Some {| result := Normal {| success := false; data := None;
              error := Some ("Invalid input for agent " +:+ name (config agent));
              attempts := None |};
            status := st0; trace := [] |}
  else
    match initializeLLM agent with
    | Throw m => Some {| result := Throw m; status := st0; trace := [] |}
    | Normal _ =>
        attempt_loop (S (Z.to_nat effective_maxRetries)) 1%Z None
          [SetStatus Status.running; Emit STARTED (ctx_sessionId context) None]
    end.

(** Attempt [k] fails: it throws, or the timer wins the race. *)
Definition attempt_fails (k : Z) : Prop :=
  ∃ m, executeWithTimeout (doExecute agent k input context) effective_timeout
       = Throw m.

(** The message of the failure of attempt [k], when it fails. *)
Definition attempt_message (k : Z) : option string :=
  match executeWithTimeout (doExecute agent k input context) effective_timeout with
  | Throw m => Some m
  | Normal _ => None
  end.

End Execute.

(** *** Reading a run *)

Section Reading.
Context {TInput TOutput : Type} (agent : Agent TInput TOutput).
Context (input : TInput) (context : AgentContext).

(** Attempt [k] is the first to return in time, with [value]. *)
Definition first_return (k : Z) (value : TOutput) : Prop :=
  (1 ≤ k ≤ effective_maxRetries agent)%Z
  ∧ (∀ j, (1 ≤ j < k)%Z → attempt_fails agent input context j)
  ∧ executeWithTimeout (doExecute agent k input context) (effective_timeout agent)
    = Normal value.
End Reading.

(** The attempts made and the pauses taken, read off a trace. *)
Definition calls (tr : list Effect) : list Z :=
  omap (λ e, match e with Call k => Some k | _ => None end) tr.

Definition delays (tr : list Effect) : list Z :=
  omap (λ e, match e with Delay ms => Some ms | _ => None end) tr.

(** The calls and pauses of [n] failing attempts numbered from [a], the
    last allowed attempt being [N]: each call is followed by a pause of
    [1000 * attempt] milliseconds unless it is the last one. *)
Fixpoint schedule (N : Z) (n : nat) (a : Z) : list Effect :=
  match n with
  | O => []
  | S n' =>
      Call a :: (if (a <? N)%Z then [Delay (1000 * a)] else [])
             ++ schedule N n' (a + 1)
  end.

End BaseAgent.

(** ** The key-point extractor ([keypoint-extractor.agent.ts]) *)

Module KeyPointExtractor.

(** What [JSON.parse(text) as KeyPoint[]] can yield: an array, whose
    elements are taken to have the fields of a key point or to lack
    them, or a value that is not an array. An array with an element that
    is [null], or whose [concept] or [description] is not a string, is
    not among these values: on it the filters of
    [validateAndCleanKeyPoints] throw a [TypeError]. *)
Inductive Parsed :=
  | ParsedArray (items : list KeyPoint.partial)
  | ParsedOther.

Definition LF : string := String (ascii_of_nat 10) EmptyString.

(** *** The pattern [/\[\s*{[\s\S]*}\s*\]/] *)

(** [\s*c] at the start of [s]: the text matched and what follows. *)
Fixpoint spaces_then (c : ascii) (s : string) : option (string * string) :=
  match s with
  | String a r =>
      if decide (a = c) then Some (String a EmptyString, r)
      else if Js.is_space a then
        match spaces_then c r with
        | Some (m, rest) => Some (String a m, rest)
        | None => None
        end
      else None
  | EmptyString => None
  end.

(** [[\s\S]*}\s*\]] at the start of [s], the star being greedy: the
    match runs to the last closing brace that a bracket follows. *)
Fixpoint match_tail (s : string) : option string :=
  match s with
  | String a r =>
      match match_tail r with
      | Some m => Some (String a m)
      | None =>
          if decide (a = "}"%char) then
            match spaces_then "]"%char r with
            | Some (m, _) => Some (String a m)
            | None => None
            end
          else None
      end
  | EmptyString => None
  end.

(** [text.match(...)]: the leftmost match, or [None] for [null]. *)
Fixpoint match_json_array (s : string) : option string :=
  match s with
  | String a r =>
      let here :=
        if decide (a = "["%char) then
          match spaces_then "{"%char r with
          | Some (m, rest) =>
              match match_tail rest with
              | Some t => Some (String a (m +:+ t))
              | None => None
              end
          | None => None
          end
        else None in
      match here with
      | Some m => Some m
      | None => match_json_array r
      end
  | EmptyString => None
  end.

(** *** The line-oriented fallback *)

(** [/^\d+\.|^-|^\*/] on a line: what is left once the marker is taken
    off, or [None] when the line does not start with a marker. *)
Definition strip_marker (line : string) : option string :=
  match Js.span_digits line with
  | (String _ _, String "." rest) => Some rest
  | _ =>
      match line with
      | String "-" rest => Some rest
      | String "*" rest => Some rest
      | _ => None
      end
  end.

Definition completeKeyPoint (partial : KeyPoint.partial) : KeyPoint.t :=
  {| KeyPoint.concept := Js.or_else (KeyPoint.p_concept partial) "Unknown Concept";
     KeyPoint.description :=
       Js.or_else (KeyPoint.p_description partial) "No description available";
     KeyPoint.importance := Js.or_else (KeyPoint.p_importance partial) "medium";
     KeyPoint.category := KeyPoint.p_category partial;
     KeyPoint.examples := Some (default [] (KeyPoint.p_examples partial)) |}.

(** [currentKeyPoint = {}]. *)
Definition empty_partial : KeyPoint.partial :=
  {| KeyPoint.p_concept := None;
     KeyPoint.p_description := None;
     KeyPoint.p_importance := None;
     KeyPoint.p_category := None;
     KeyPoint.p_examples := None |}.

(** [currentKeyPoint.description = value]. *)
Definition set_description (kp : KeyPoint.partial) (value : string) : KeyPoint.partial :=
  {| KeyPoint.p_concept := KeyPoint.p_concept kp;
     KeyPoint.p_description := Some value;
     KeyPoint.p_importance := KeyPoint.p_importance kp;
     KeyPoint.p_category := KeyPoint.p_category kp;
     KeyPoint.p_examples := KeyPoint.p_examples kp |}.

(** One iteration of [for (const line of lines)]; the state is the
    array built so far and [currentKeyPoint]. *)
Definition text_step (st : list KeyPoint.t * KeyPoint.partial) (line : string)
  : list KeyPoint.t * KeyPoint.partial :=
  let '(keyPoints, currentKeyPoint) := st in
  let trimmedLine := Js.trim line in
  let marker := strip_marker trimmedLine in
  if bool_decide (is_Some marker) && (5 <? String.length trimmedLine)%nat then
    (if Js.truthy (KeyPoint.p_concept currentKeyPoint)
     then keyPoints ++ [completeKeyPoint currentKeyPoint] else keyPoints,
     {| KeyPoint.p_concept := Some (Js.trim (default trimmedLine marker));
        KeyPoint.p_description := None;
        KeyPoint.p_importance := Some "medium";
        KeyPoint.p_category := None;
        KeyPoint.p_examples := None |})
  else if (10 <? String.length trimmedLine)%nat
          && Js.truthy (KeyPoint.p_concept currentKeyPoint) then
    (keyPoints,
     set_description currentKeyPoint
       (Js.or_else (KeyPoint.p_description currentKeyPoint) ""
          +:+ " " +:+ trimmedLine))
  else st.

Definition parseKeyPointsFromText (text : string) : list KeyPoint.t :=
  let '(keyPoints, currentKeyPoint) :=
    fold_left text_step (Js.split_lines text) ([], empty_partial) in
  if Js.truthy (KeyPoint.p_concept currentKeyPoint)
  then keyPoints ++ [completeKeyPoint currentKeyPoint] else keyPoints.

(** *** Recovery of the model's answer *)

Section Recovery.
Context (JSON_parse : string → Completion Parsed).

(** The three tiers, inside the method's own [try]; the fallback of
    [safeJsonParse] is the empty array. *)
Definition parse_tiers (responseText : string)
  : Completion (list KeyPoint.partial) :=
  let text_tier := Normal (KeyPoint.to_partial <$> parseKeyPointsFromText responseText) in
  match BaseAgent.safeJsonParse JSON_parse responseText (ParsedArray []) with
  | ParsedArray (kp :: rest) => Normal (kp :: rest)
  | _ =>
      match match_json_array responseText with
      | Some jsonMatch =>
          match BaseAgent.safeJsonParse JSON_parse jsonMatch (ParsedArray []) with
          | ParsedArray extracted => Normal extracted
          | ParsedOther => text_tier
          end
      | None => text_tier
      end
  end.

Definition parseKeyPointsResponse (responseText : string)
  : Completion (list KeyPoint.partial) :=
  try_catch (parse_tiers responseText)
    (λ _, Normal (KeyPoint.to_partial <$> parseKeyPointsFromText responseText)).
End Recovery.

(** *** Validation and cleaning *)

Definition has_concept (kp : KeyPoint.partial) : bool :=
  match KeyPoint.p_concept kp with
  | Some c => negb (bool_decide (c = ""))
              && (0 <? String.length (Js.trim c))%nat
  | None => false
  end.

Definition has_description (kp : KeyPoint.partial) : bool :=
  match KeyPoint.p_description kp with
  | Some d => negb (bool_decide (d = ""))
              && (10 <? String.length (Js.trim d))%nat
  | None => false
  end.

(** The [map] callback; both filters have run, so the two texts are
    present. *)
Definition clean (kp : KeyPoint.partial) : KeyPoint.t :=
  {| KeyPoint.concept :=
       Js.substring0 100 (BaseAgent.cleanText (default "" (KeyPoint.p_concept kp)));
     KeyPoint.description :=
       Js.substring0 300 (BaseAgent.cleanText (default "" (KeyPoint.p_description kp)));
     KeyPoint.importance :=
       match KeyPoint.p_importance kp with
       | Some i => if bool_decide (i ∈ ["high"; "medium"; "low"]) then i else "medium"
       | None => "medium"
       end;
     KeyPoint.category := KeyPoint.p_category kp;
     KeyPoint.examples := KeyPoint.p_examples kp |}.

Definition same_concept (kp other : KeyPoint.t) : bool :=
  bool_decide (Js.toLowerCase (KeyPoint.concept other)
               = Js.toLowerCase (KeyPoint.concept kp)).

Definition validateAndCleanKeyPoints (keyPoints : list KeyPoint.partial)
    (maxCount : Z) : list KeyPoint.t :=
  let validKeyPoints :=
    Js.slice0
      (clean <$> List.filter has_description (List.filter has_concept keyPoints))
      maxCount in
  Js.filter_indexed
    (λ kp index,
       bool_decide (Js.findIndex (same_concept kp) validKeyPoints = Some index))
    validKeyPoints.

(** *** [doExecute] *)

Record KeyPointExtractorInput := {
  documentContent : DocumentContent.t;
  userLevel : UserLevel;
  maxKeyPoints : option Z }.

Record PromptInput := {
  prompt_title : string;
  prompt_content : string;
  prompt_userLevel : UserLevel;
  prompt_maxKeyPoints : string }.

Definition validateInput (input : KeyPointExtractorInput) : bool :=
  let content := DocumentContent.content (documentContent input) in
  negb (bool_decide (content = ""))
  && negb (String.length (Js.trim content) =? 0)%nat
  && bool_decide (userLevel input ∈ [beginner; advanced]).

(** Long content keeps its first 2800 and last 1150 characters. *)
Definition preprocessContent (content : string) : string :=
  let maxLength := 4000%nat in
  let processedContent := BaseAgent.cleanText content in
  if (maxLength <? String.length processedContent)%nat then
    let headLength := 2800%nat in
    let tailLength := (maxLength - headLength - 50)%nat in
    Js.substring0 headLength processedContent
      +:+ LF +:+ LF +:+ "... [内容已截取] ..." +:+ LF +:+ LF
      +:+ Js.substring_from (String.length processedContent - tailLength)
            processedContent
  else processedContent.

(** The [catch] clause of [doExecute]: the tag is chosen from words
    found in the message. *)
Definition classify (message : string) : string :=
  if Js.includes message "timeout" then
    error_tag TIMEOUT_ERROR +:+ ": LLM request timeout"
  else if Js.includes message "API" || Js.includes message "model" then
    error_tag LLM_ERROR +:+ ": " +:+ message
  else if Js.includes message "parse" || Js.includes message "JSON" then
    error_tag PARSING_ERROR +:+ ": Failed to parse LLM response"
  else
    error_tag UNKNOWN_ERROR +:+ ": " +:+ message.

Definition empty_result_message : string :=
  "No valid key points extracted from the document".

Definition default_maxKeyPoints (input : KeyPointExtractorInput) : Z :=
  default 8%Z (maxKeyPoints input).

Definition promptInput (input : KeyPointExtractorInput) : PromptInput :=
  {| prompt_title :=
       Js.or_else (Some (DocumentContent.title (documentContent input))) "Untitled";
     prompt_content :=
       preprocessContent (DocumentContent.content (documentContent input));
     prompt_userLevel := userLevel input;
     prompt_maxKeyPoints := Js.string_of_Z (default_maxKeyPoints input) |}.

Section DoExecute.
Context (JSON_parse : string → Completion Parsed).
(** [this.chain.invoke]: the model's text, or its exception. *)
Context (chain_invoke : PromptInput → Completion string).

Definition doExecute (input : KeyPointExtractorInput) (context : AgentContext)
  : Completion (list KeyPoint.t) :=
  try_catch
    (responseText ← chain_invoke (promptInput input);
     keyPoints ← parseKeyPointsResponse JSON_parse responseText;
     let validatedKeyPoints :=
       validateAndCleanKeyPoints keyPoints (default_maxKeyPoints input) in
     if (length validatedKeyPoints =? 0)%nat then
       Throw empty_result_message
     else Normal validatedKeyPoints)
    (λ message, Throw (classify message)).
End DoExecute.

(** Which tier a result comes from: the whole text when it parses to
    a non-empty array, else the bracketed part of the text when there is
    one, else the lines of the text. *)
Definition tiers_in_order (JSON_parse : string → Completion Parsed)
    (responseText : string) (keyPoints : list KeyPoint.partial) : Prop :=
  let from_lines := KeyPoint.to_partial <$> parseKeyPointsFromText responseText in
  match JSON_parse responseText with
  | Normal (ParsedArray (kp :: rest)) => keyPoints = kp :: rest
  | _ =>
      match match_json_array responseText with
      | Some jsonMatch =>
          match JSON_parse jsonMatch with
          | Normal (ParsedArray extracted) => keyPoints = extracted
          | Normal ParsedOther => keyPoints = from_lines
          | Throw _ => keyPoints = []
          end
      | None => keyPoints = from_lines
      end
  end.

(** The error category a thrown message carries in front. *)
Definition classified_as (e : AgentErrorType) (message : string) : Prop :=
  Js.startsWith message (error_tag e +:+ ":") = true.

(** *** Reading a result *)

(** What a key point read from the lines of a text looks like. *)
Definition from_text (kp : KeyPoint.t) : Prop :=
  KeyPoint.concept kp ≠ "" ∧ KeyPoint.description kp ≠ ""
  ∧ KeyPoint.importance kp = "medium"
  ∧ KeyPoint.category kp = None ∧ KeyPoint.examples kp = Some [].

(** The key point under construction, once it has a concept, has the
    fields its object literal gave it. *)
Definition open_keypoint (cur : KeyPoint.partial) : Prop :=
  Js.truthy (KeyPoint.p_concept cur) = true →
  KeyPoint.p_importance cur = Some "medium"
  ∧ KeyPoint.p_category cur = None ∧ KeyPoint.p_examples cur = None.

(** The categories the [catch] clause of [doExecute] can report. *)
Definition failure_tags : list AgentErrorType :=
  [TIMEOUT_ERROR; LLM_ERROR; PARSING_ERROR; UNKNOWN_ERROR].

(** *** The extractor as an agent *)

Section Agent.
Context (JSON_parse : string → Completion Parsed).
(** The model lookup of the base class, and the [k]-th call of the
    model: when its promise settles and how. *)
Context (initializeLLM : Completion ()).
Context (chain_invoke : Z → PromptInput → BaseAgent.Attempt string).

(** [KeyPointExtractorAgent] as an agent of the base class: the
    configuration its constructor passes on, its [validateInput] and its
    [doExecute], which settles when the call of the model does. *)
Definition agent : BaseAgent.Agent KeyPointExtractorInput (list KeyPoint.t) :=
  {| BaseAgent.config :=
       BaseAgent.construct
         {| BaseAgent.name := "KeyPointExtractor";
            BaseAgent.description := "从文档内容中提取核心概念和关键点";
            BaseAgent.maxRetries := Some 2%Z;
            BaseAgent.timeout := Some 30000%Z |};
     BaseAgent.validateInput := validateInput;
     BaseAgent.initializeLLM := initializeLLM;
     BaseAgent.doExecute := λ attempt input context,
       match chain_invoke attempt (promptInput input) with
       | BaseAgent.Settles elapsed outcome =>
           BaseAgent.Settles elapsed (doExecute JSON_parse (λ _, outcome) input context)
       | BaseAgent.Hangs => BaseAgent.Hangs
       end |}.
End Agent.

End KeyPointExtractor.





(** ** The learning-path planner ([learning-path.agent.ts]) *)

Module LearningPath.

Definition minutes : string := "分钟".

(** [Math.ceil(number * 1.2)] and [Math.ceil(number * 0.8)], computed
    on exact fractions; the doubles of the code give the same for the
    numbers below [10^15]. *)
Definition ceil_scaled (number : N) (tenths : N) : N :=
  ((number * tenths + 9) / 10)%N.

Definition print_N (n : N) : string := Js.string_of_Z (Z.of_N n).

Definition normalizeTimeEstimate (time : option string) (userLevel : UserLevel)
  : string :=
  let fallback := if decide (userLevel = beginner) then "45" +:+ minutes
                  else "30" +:+ minutes in
  match time with
  | None => fallback
  | Some time =>
      if bool_decide (time = "") || (String.length (Js.trim time) =? 0)%nat
      then fallback
      else
        match Js.match_digits time with
        | None => fallback
        | Some numberMatch =>
            let number := Js.parseInt numberMatch in
            let adjustedNumber :=
              if decide (userLevel = beginner)
              then N.max 30 (ceil_scaled number 12)
              else N.max 15 (ceil_scaled number 8) in
            if Js.includes time "小时" || Js.includes time "hour"
            then print_N adjustedNumber +:+ minutes
            else print_N adjustedNumber +:+ minutes
        end
  end.

Definition default_step (step time description : string) : LearningStep.t :=
  {| LearningStep.step := step;
     LearningStep.time := time;
     LearningStep.description := description;
     LearningStep.code := None;
     LearningStep.prerequisites := Some [];
     LearningStep.resources := Some [] |}.

Definition addDefaultSteps (existingSteps : list LearningStep.t)
    (userLevel : UserLevel) : list LearningStep.t :=
  let defaultSteps :=
    if decide (userLevel = beginner) then
      [ default_step "环境准备和基础设置" ("30" +:+ minutes)
          "安装必要的开发环境和工具，配置基本设置";
        default_step "核心概念理解" ("45" +:+ minutes)
          "学习和理解基础概念，掌握基本原理";
        default_step "实践练习" ("60" +:+ minutes)
          "通过实际练习巩固所学知识" ]
    else
      [ default_step "高级特性探索" ("30" +:+ minutes)
          "深入了解高级功能和特性";
        default_step "最佳实践应用" ("45" +:+ minutes)
          "学习和应用行业最佳实践" ] in
  Js.slice0 (existingSteps ++ defaultSteps) 8.

Definition has_step (s : LearningStep.raw) : bool :=
  match LearningStep.r_step s with
  | Some t => negb (bool_decide (t = "")) && (0 <? String.length (Js.trim t))%nat
  | None => false
  end.

Definition has_description (s : LearningStep.raw) : bool :=
  match LearningStep.r_description s with
  | Some d => negb (bool_decide (d = "")) && (10 <? String.length (Js.trim d))%nat
  | None => false
  end.

(** The first [map] callback; both filters have run. *)
Definition clean (userLevel : UserLevel) (s : LearningStep.raw) : LearningStep.t :=
  {| LearningStep.step :=
       Js.substring0 100 (BaseAgent.cleanText (default "" (LearningStep.r_step s)));
     LearningStep.time := normalizeTimeEstimate (LearningStep.r_time s) userLevel;
     LearningStep.description :=
       Js.substring0 500
         (BaseAgent.cleanText (default "" (LearningStep.r_description s)));
     LearningStep.code := LearningStep.r_code s;
     LearningStep.prerequisites := LearningStep.r_prerequisites s;
     LearningStep.resources := LearningStep.r_resources s |}.

(** The second [map] callback: the step title gets its number. *)
Definition number_step (index : nat) (s : LearningStep.t) : LearningStep.t :=
  let prefix := Js.string_of_nat (index + 1) in
  {| LearningStep.step :=
       if Js.startsWith (LearningStep.step s) (prefix +:+ ".")
       then LearningStep.step s
       else prefix +:+ ". " +:+ LearningStep.step s;
     LearningStep.time := LearningStep.time s;
     LearningStep.description := LearningStep.description s;
     LearningStep.code := LearningStep.code s;
     LearningStep.prerequisites := LearningStep.prerequisites s;
     LearningStep.resources := LearningStep.resources s |}.

Definition optimizeLearningPath (steps : list LearningStep.raw)
    (userLevel : UserLevel) : list LearningStep.t :=
  let optimizedSteps :=
    clean userLevel <$> List.filter has_description (List.filter has_step steps) in
  let optimizedSteps :=
    if (8 <? length optimizedSteps)%nat then Js.slice0 optimizedSteps 8
    else if (length optimizedSteps <? 3)%nat
         then addDefaultSteps optimizedSteps userLevel
         else optimizedSteps in
  imap number_step optimizedSteps.

(** A time is in minutes when it is a number followed by the unit. *)
Definition in_minutes (time : string) : Prop :=
  ∃ n : N, time = print_N n +:+ minutes.


(** Below this bound the doubles of the code agree with the exact
    numbers used here: [parseInt] returns the number written, a sum that
    stays below the bound is the sum of the integers,
    [Math.ceil(number * 1.2)] and [Math.ceil(number * 0.8)] are the
    ceilings of the exact products, and a number prints as its decimal
    digits. *)
Definition exact_below : N := 1000000000000000%N.

(** The number that a raw time names, if it names one, is below the
    bound. *)
Definition time_within_doubles (time : option string) : Prop :=
  ∀ t digits, time = Some t → Js.match_digits t = Some digits →
              (Js.parseInt digits < exact_below)%N.

(** The shortest time [normalizeTimeEstimate] gives at a level. *)
Definition shortest_time (userLevel : UserLevel) : N :=
  if decide (userLevel = beginner) then 30%N else 15%N.

(** The time of step [s] is [n] minutes. *)
Definition minutes_of (s : LearningStep.t) (n : N) : Prop :=
  LearningStep.time s = print_N n +:+ minutes.

Definition timed (userLevel : UserLevel) (s : LearningStep.t) : Prop :=
  ∃ n, minutes_of s n ∧ (shortest_time userLevel ≤ n)%N.

(** *** [estimateTotalTime] *)

Definition hours : string := "小时".

(** The body of [for (const step of steps)], on exact numbers; the
    doubles of the code give the same while the total stays below
    [10^15]. *)
Definition add_time (totalMinutes : N) (step : LearningStep.t) : N :=
  match Js.match_digits (LearningStep.time step) with
  | Some timeMatch =>
      let minutes := Js.parseInt timeMatch in
      if Js.includes (LearningStep.time step) hours
         || Js.includes (LearningStep.time step) "hour"
      then (totalMinutes + minutes * 60)%N
      else (totalMinutes + minutes)%N
  | None => totalMinutes
  end.

(** The text returned for a total. *)
Definition print_total (totalMinutes : N) : string :=
  if (60 <=? totalMinutes)%N then
    let hours_ := (totalMinutes / 60)%N in
    let remainingMinutes := (totalMinutes mod 60)%N in
    if (0 <? remainingMinutes)%N
    then print_N hours_ +:+ hours +:+ print_N remainingMinutes +:+ minutes
    else print_N hours_ +:+ hours
  else print_N totalMinutes +:+ minutes.

Definition estimateTotalTime (steps : list LearningStep.t) : string :=
  print_total (fold_left add_time steps 0%N).

End LearningPath.

(** ** The quiz generator ([quiz.agent.ts]) *)

Module Quiz.

Definition default_options : list string := ["选项A"; "选项B"; "选项C"; "选项D"].

(** [a || b || c] on possibly-undefined strings. *)
Definition first_truthy (a b : option string) (c : string) : string :=
  if Js.truthy a then default c a else Js.or_else b c.

(** The object literal that [validateAndNormalizeQuestion] starts from. *)
Definition normalize_fields (question : QuizQuestion.raw) (index : nat)
  : QuizQuestion.t :=
  {| QuizQuestion.id :=
       Js.or_else (QuizQuestion.r_id question) ("q" +:+ Js.string_of_nat index);
     QuizQuestion.type := Js.or_else (QuizQuestion.r_type question) "multiple_choice";
     QuizQuestion.question :=
       BaseAgent.cleanText
         (Js.or_else (QuizQuestion.r_question question)
                     ("题目 " +:+ Js.string_of_nat index));
     QuizQuestion.options :=
       match QuizQuestion.r_options question with
       | Some opts => BaseAgent.cleanText <$> opts
       | None => default_options
       end;
     QuizQuestion.correctAnswer :=
       BaseAgent.cleanText
         (first_truthy (QuizQuestion.r_correctAnswer question)
                       (QuizQuestion.r_options question ≫= head)
                       "选项A");
     QuizQuestion.explanation :=
       BaseAgent.cleanText (Js.or_else (QuizQuestion.r_explanation question) "暂无解释");
     QuizQuestion.difficulty :=
       match QuizQuestion.r_difficulty question with
       | Some d => if bool_decide (d ∈ ["easy"; "medium"; "hard"]) then d else "medium"
       | None => "medium"
       end;
     QuizQuestion.concept :=
       BaseAgent.cleanText (Js.or_else (QuizQuestion.r_concept question) "基础概念");
     QuizQuestion.points :=
       match QuizQuestion.r_points question with
       | Some p => if (0 <? p)%Z then p else 1%Z
       | None => 1%Z
       end |}.

(** Multiple choice: too few options are replaced by the default ones. *)
Definition check_choice (normalized : QuizQuestion.t) : QuizQuestion.t :=
  if bool_decide (QuizQuestion.type normalized = "multiple_choice")
     && (length (QuizQuestion.options normalized) <? 2)%nat
  then QuizQuestion.mk
         (QuizQuestion.id normalized) (QuizQuestion.type normalized)
         (QuizQuestion.question normalized) default_options "选项A"
         (QuizQuestion.explanation normalized) (QuizQuestion.difficulty normalized)
         (QuizQuestion.concept normalized) (QuizQuestion.points normalized)
  else normalized.

(** True/false: the options are fixed and the answer is one of them. *)
Definition check_true_false (normalized : QuizQuestion.t) : QuizQuestion.t :=
  if bool_decide (QuizQuestion.type normalized = "true_false")
  then QuizQuestion.mk
         (QuizQuestion.id normalized) (QuizQuestion.type normalized)
         (QuizQuestion.question normalized) ["正确"; "错误"]
         (if bool_decide (QuizQuestion.correctAnswer normalized ∈ ["正确"; "错误"])
          then QuizQuestion.correctAnswer normalized else "正确")
         (QuizQuestion.explanation normalized) (QuizQuestion.difficulty normalized)
         (QuizQuestion.concept normalized) (QuizQuestion.points normalized)
  else normalized.

(** Fill in the blank: no options, and a blank in the text. *)
Definition check_fill_blank (normalized : QuizQuestion.t) : QuizQuestion.t :=
  if bool_decide (QuizQuestion.type normalized = "fill_blank")
  then QuizQuestion.mk
         (QuizQuestion.id normalized) (QuizQuestion.type normalized)
         (if Js.includes (QuizQuestion.question normalized) "_____"
          then QuizQuestion.question normalized
          else QuizQuestion.question normalized +:+ " _____")
         [] (QuizQuestion.correctAnswer normalized)
         (QuizQuestion.explanation normalized) (QuizQuestion.difficulty normalized)
         (QuizQuestion.concept normalized) (QuizQuestion.points normalized)
  else normalized.

(** The three checks run one after the other on the same object. *)
Definition validateAndNormalizeQuestion (question : QuizQuestion.raw) (index : nat)
  : QuizQuestion.t :=
  check_fill_blank (check_true_false (check_choice (normalize_fields question index))).

(** The invariant the data model asks of a multiple-choice question. *)
Definition well_formed_choice (q : QuizQuestion.t) : Prop :=
  (2 ≤ length (QuizQuestion.options q))%nat
  ∧ QuizQuestion.correctAnswer q ∈ QuizQuestion.options q.


Definition valid_difficulties : list string := ["easy"; "medium"; "hard"].

(** What [validateAndNormalizeQuestion] does establish. *)
Definition shaped (q : QuizQuestion.t) : Prop :=
  QuizQuestion.difficulty q ∈ valid_difficulties
  ∧ (0 < QuizQuestion.points q)%Z
  ∧ (QuizQuestion.type q = "multiple_choice" →
     2 ≤ length (QuizQuestion.options q))
  ∧ (QuizQuestion.type q = "true_false" →
     QuizQuestion.options q = ["正确"; "错误"]
     ∧ QuizQuestion.correctAnswer q ∈ QuizQuestion.options q)
  ∧ (QuizQuestion.type q = "fill_blank" →
     QuizQuestion.options q = []
     ∧ Js.includes (QuizQuestion.question q) "_____" = true).

(** *** The question set: [optimizeQuestions] *)

(** An element of a question array: the identity of the object and
    its fields. No function below writes to a question, so the fields
    travel with the identity; [includes] compares identities. *)
Record Question := mkQuestion { ref : nat; fields : QuizQuestion.t }.

Definition question_key (q : Question) : string :=
  Js.remove_ws (Js.toLowerCase (QuizQuestion.question (fields q))).

(** The [filter] of [removeDuplicateQuestions], [seen] being the set
    its callback fills. *)
Fixpoint remove_seen (seen : gset string) (questions : list Question)
  : list Question :=
  match questions with
  | q :: rest =>
      let key := question_key q in
      if bool_decide (key ∈ seen) then remove_seen seen rest
      else q :: remove_seen ({[ key ]} ∪ seen) rest
  | [] => []
  end.

Definition removeDuplicateQuestions (questions : list Question) : list Question :=
  remove_seen ∅ questions.

Definition fallback_question (index : Z) : QuizQuestion.t :=
  {| QuizQuestion.id := "q" +:+ Js.string_of_Z index;
     QuizQuestion.type := "multiple_choice";
     QuizQuestion.question := "关于本文档内容，以下哪个说法是正确的？";
     QuizQuestion.options := default_options;
     QuizQuestion.correctAnswer := "选项A";
     QuizQuestion.explanation := "请参考文档内容进行理解";
     QuizQuestion.difficulty := "medium";
     QuizQuestion.concept := "综合理解";
     QuizQuestion.points := 1 |}.

(** [generateFallbackQuestions]; the objects it creates take the
    identities from [next] on. *)
Definition generateFallbackQuestions (next : nat) (count startIndex : Z)
  : list Question :=
  (λ i, {| ref := next + i;
           fields := fallback_question (startIndex + Z.of_nat i) |})
    <$> seq 0 (Z.to_nat count).

(** [Math.ceil(n * 0.3)] and [Math.ceil(n * 0.2)], computed on exact
    fractions. *)
Definition ceil_tenths (n tenths : Z) : Z := ((n * tenths + 9) / 10)%Z.

Definition has_difficulty (d : string) (q : Question) : bool :=
  bool_decide (QuizQuestion.difficulty (fields q) = d).

(** [arr.includes(q)] on an array of objects. *)
Definition includes_ref (arr : list Question) (q : Question) : bool :=
  bool_decide (ref q ∈ ref <$> arr).

Definition balanceDifficulty (questions : list Question) : list Question :=
  let n := Z.of_nat (length questions) in
  let easyCount := ceil_tenths n 3 in
  let hardCount := ceil_tenths n 2 in
  let mediumCount := (n - easyCount - hardCount)%Z in
  let easy := Js.slice0 (List.filter (has_difficulty "easy") questions) easyCount in
  let medium :=
    Js.slice0 (List.filter (has_difficulty "medium") questions) mediumCount in
  let hard := Js.slice0 (List.filter (has_difficulty "hard") questions) hardCount in
  let result := easy ++ medium ++ hard in
  if (length result <? length questions)%nat then
    let remaining := List.filter (λ q, negb (includes_ref result q)) questions in
    result ++ Js.slice0 remaining
                (Z.of_nat (length questions) - Z.of_nat (length result))
  else result.

Definition optimizeQuestions (next : nat) (questions : list Question)
    (targetCount : Z) : list Question :=
  let uniqueQuestions := removeDuplicateQuestions questions in
  let result := Js.slice0 uniqueQuestions targetCount in
  let result :=
    if (Z.of_nat (length result) <? targetCount)%Z then
      result ++ generateFallbackQuestions next
                  (targetCount - Z.of_nat (length result))
                  (Z.of_nat (length result) + 1)
    else result in
  balanceDifficulty result.

(** *** [validateQuizAnswers] *)

Record AnswerResult := {
  questionId : string;
  correct : bool;
  userAnswer : string;
  res_correctAnswer : string;
  res_points : Z }.

Record QuizScore := {
  score : Z;
  totalPoints : Z;
  correctCount : nat;
  results : list AnswerResult }.

(** What the loop computes for one question; the answer looked up is
    [userAnswers[question.id] || '']. *)
Definition grade (userAnswers : gmap string string) (question : QuizQuestion.t)
  : AnswerResult :=
  let userAnswer := Js.or_else (userAnswers !! QuizQuestion.id question) "" in
  let isCorrect := bool_decide (userAnswer = QuizQuestion.correctAnswer question) in
  {| questionId := QuizQuestion.id question;
     correct := isCorrect;
     userAnswer := userAnswer;
     res_correctAnswer := QuizQuestion.correctAnswer question;
     res_points := if isCorrect then QuizQuestion.points question else 0 |}.

Definition validateQuizAnswers (questions : list QuizQuestion.t)
    (userAnswers : gmap string string) : QuizScore :=
  let '(score, correctCount, results) :=
    fold_left
      (λ '(score, correctCount, results) question,
         let r := grade userAnswers question in
         (if correct r then (score + QuizQuestion.points question)%Z else score,
          if correct r then S correctCount else correctCount,
          results ++ [r]))
      questions (0%Z, 0, []) in
  {| score := score;
     totalPoints :=
       fold_left (λ sum q, (sum + QuizQuestion.points q)%Z) questions 0%Z;
     correctCount := correctCount;
     results := results |}.

End Quiz.



(** ** The dependency-driven scheduler ([langgraph-workflow.ts]) *)

Module Workflow.

Inductive WorkflowStepType :=
  | parse_document | extract_keypoints | generate_learning_path
  | generate_quiz | answer_question.

#[global] Instance WorkflowStepType_eq_dec : EqDecision WorkflowStepType.
Proof. solve_decision. Defined.

Definition step_type_name (t : WorkflowStepType) : string :=
  match t with
  | parse_document => "parse_document"
  | extract_keypoints => "extract_keypoints"
  | generate_learning_path => "generate_learning_path"
  | generate_quiz => "generate_quiz"
  | answer_question => "answer_question"
  end.

Record WorkflowState := mkState {
  url : option string;
  documentContent : option DocumentContent.t;
  keyPoints : option (list KeyPoint.t);
  question : option string;
  userLevel : option UserLevel;
  questionCount : option Z;
  conversationHistory : option (list (string * string));
  parsedDocument : option DocumentContent.t;
  extractedKeyPoints : option (list KeyPoint.t);
  generatedLearningPath : option (list LearningStep.t);
  generatedQuiz : option (list QuizQuestion.t);
  answer : option string;
  errors : option (list string);
  currentStep : option string;
  sessionId : option string;
  completed : option bool }.

(** [Partial<WorkflowState>] as a step returns it: for each field,
    [None] when the object has no such key, [Some v] when it has the key
    with value [v] ([Some None] being an explicit [undefined]). *)
Record PartialState := mkPartial {
  set_url : option (option string);
  set_documentContent : option (option DocumentContent.t);
  set_keyPoints : option (option (list KeyPoint.t));
  set_question : option (option string);
  set_userLevel : option (option UserLevel);
  set_questionCount : option (option Z);
  set_conversationHistory : option (option (list (string * string)));
  set_parsedDocument : option (option DocumentContent.t);
  set_extractedKeyPoints : option (option (list KeyPoint.t));
  set_generatedLearningPath : option (option (list LearningStep.t));
  set_generatedQuiz : option (option (list QuizQuestion.t));
  set_answer : option (option string);
  set_errors : option (option (list string));
  set_currentStep : option (option string);
  set_sessionId : option (option string);
  set_completed : option (option bool) }.

(** The object [{ errors: value }]. *)
Definition errors_only (value : list string) : PartialState :=
  {| set_url := None;
     set_documentContent := None;
     set_keyPoints := None;
     set_question := None;
     set_userLevel := None;
     set_questionCount := None;
     set_conversationHistory := None;
     set_parsedDocument := None;
     set_extractedKeyPoints := None;
     set_generatedLearningPath := None;
     set_generatedQuiz := None;
     set_answer := None;
     set_errors := Some (Some value);
     set_currentStep := None;
     set_sessionId := None;
     set_completed := None |}.

(** [{ ...state, ...stepResult }]. *)
Definition merge (state : WorkflowState) (stepResult : PartialState) : WorkflowState :=
  {| url := default (url state) (set_url stepResult);
     documentContent := default (documentContent state) (set_documentContent stepResult);
     keyPoints := default (keyPoints state) (set_keyPoints stepResult);
     question := default (question state) (set_question stepResult);
     userLevel := default (userLevel state) (set_userLevel stepResult);
     questionCount := default (questionCount state) (set_questionCount stepResult);
     conversationHistory :=
       default (conversationHistory state) (set_conversationHistory stepResult);
     parsedDocument := default (parsedDocument state) (set_parsedDocument stepResult);
     extractedKeyPoints :=
       default (extractedKeyPoints state) (set_extractedKeyPoints stepResult);
     generatedLearningPath :=
       default (generatedLearningPath state) (set_generatedLearningPath stepResult);
     generatedQuiz := default (generatedQuiz state) (set_generatedQuiz stepResult);
     answer := default (answer state) (set_answer stepResult);
     errors := default (errors state) (set_errors stepResult);
     currentStep := default (currentStep state) (set_currentStep stepResult);
     sessionId := default (sessionId state) (set_sessionId stepResult);
     completed := default (completed state) (set_completed stepResult) |}.

(** [state.errors = value]. *)
Definition with_errors (state : WorkflowState) (value : list string) : WorkflowState :=
  mkState (url state) (documentContent state) (keyPoints state) (question state)
    (userLevel state) (questionCount state) (conversationHistory state)
    (parsedDocument state) (extractedKeyPoints state) (generatedLearningPath state)
    (generatedQuiz state) (answer state) (Some value) (currentStep state)
    (sessionId state) (completed state).

(** [state.completed = value]. *)
Definition with_completed (state : WorkflowState) (value : bool) : WorkflowState :=
  mkState (url state) (documentContent state) (keyPoints state) (question state)
    (userLevel state) (questionCount state) (conversationHistory state)
    (parsedDocument state) (extractedKeyPoints state) (generatedLearningPath state)
    (generatedQuiz state) (answer state) (errors state) (currentStep state)
    (sessionId state) (Some value).

(** [state.errors || []]. *)
Definition errors_or_empty (state : WorkflowState) : list string :=
  default [] (errors state).

Record WorkflowStep := mkStep {
  id : string;
  type : WorkflowStepType;
  condition : option (WorkflowState → bool);
  dependencies : option (list string) }.

Record WorkflowDefinition := {
  wf_id : string;
  wf_name : string;
  steps : list WorkflowStep;
  entryPoint : string }.

(** *** The agents, as the scheduler sees them *)

Record DocumentParserInput := { dp_url : string }.

Record LearningPathInput := {
  lp_keyPoints : list KeyPoint.t;
  lp_userLevel : UserLevel }.

Record QuizGeneratorInput := {
  qz_keyPoints : list KeyPoint.t;
  qz_documentContent : option DocumentContent.t;
  qz_questionCount : Z;
  qz_userLevel : UserLevel;
  qz_questionTypes : list string;
  qz_difficultyLevel : string }.

Record QAInput := {
  qa_question : string;
  qa_documentContent : DocumentContent.t;
  qa_conversationHistory : list (string * string) }.

(** The [execute] method of each of the five agents. Its first
    argument counts the steps run so far in this execution, so that
    an agent may answer the same input differently at different times;
    the promise it returns resolves to a result or rejects. *)
Record Agents := {
  documentParser :
    nat → DocumentParserInput → AgentContext
    → Completion (AgentResult DocumentContent.t);
  keyPointExtractor :
    nat → KeyPointExtractor.KeyPointExtractorInput → AgentContext
    → Completion (AgentResult (list KeyPoint.t));
  learningPathAgent :
    nat → LearningPathInput → AgentContext
    → Completion (AgentResult (list LearningStep.t));
  quizAgent :
    nat → QuizGeneratorInput → AgentContext
    → Completion (AgentResult (list QuizQuestion.t));
  qaAgent :
    nat → QAInput → AgentContext → Completion (AgentResult string) }.

(** *** The predefined workflows *)

Definition document_analysis : WorkflowDefinition :=
  {| wf_id := "document_analysis"; wf_name := "Document Analysis Workflow";
     steps := [ mkStep "parse" parse_document None None;
                mkStep "extract" extract_keypoints None (Some ["parse"]) ];
     entryPoint := "parse" |}.

Definition learning_generation : WorkflowDefinition :=
  {| wf_id := "learning_generation"; wf_name := "Learning Path Generation Workflow";
     steps := [ mkStep "extract" extract_keypoints None None;
                mkStep "generate_path" generate_learning_path None
                       (Some ["extract"]) ];
     entryPoint := "extract" |}.

Definition quiz_generation : WorkflowDefinition :=
  {| wf_id := "quiz_generation"; wf_name := "Quiz Generation Workflow";
     steps := [ mkStep "generate_quiz" generate_quiz None None ];
     entryPoint := "generate_quiz" |}.

Definition interactive_qa : WorkflowDefinition :=
  {| wf_id := "interactive_qa"; wf_name := "Interactive Q&A Workflow";
     steps := [ mkStep "answer" answer_question None None ];
     entryPoint := "answer" |}.

Definition full_pipeline : WorkflowDefinition :=
  {| wf_id := "full_pipeline"; wf_name := "Full Learning Pipeline";
     steps := [ mkStep "parse" parse_document None None;
                mkStep "extract" extract_keypoints None (Some ["parse"]);
                mkStep "generate_path" generate_learning_path None
                       (Some ["extract"]);
                mkStep "generate_quiz" generate_quiz
                       (Some (λ state, (0 <? default 0 (questionCount state))%Z))
                       (Some ["extract"]) ];
     entryPoint := "parse" |}.

Definition workflow_table : list (string * WorkflowDefinition) :=
  [ ("document_analysis", document_analysis);
    ("learning_generation", learning_generation);
    ("quiz_generation", quiz_generation);
    ("interactive_qa", interactive_qa);
    ("full_pipeline", full_pipeline) ].

(** [workflows[workflowId]] on the object literal (names inherited
    from [Object.prototype] left aside). *)
Definition getWorkflowDefinitions : gmap string WorkflowDefinition :=
  list_to_map workflow_table.

(** *** Running one step *)

Definition normalizeUserLevel (userLevel : option UserLevel) : UserLevel :=
  if decide (userLevel = Some advanced) then advanced else beginner.

(** [a || b] on two possibly-undefined objects or arrays. *)
Definition or_obj {A} (a b : option A) : option A :=
  match a with
  | Some x => Some x
  | None => b
  end.

(** [if (!result.success) throw new Error(result.error || fallback)]. *)
Definition require_success {T} (result : AgentResult T) (fallback : string)
  : Completion () :=
  if success result then Normal () else Throw (Js.or_else (error result) fallback).

Section Steps.
Context (agents : Agents) (clock : nat).

Definition executeParseDocument (state : WorkflowState) (context : AgentContext)
  : Completion PartialState :=
  if negb (Js.truthy (url state)) then
    Throw "URL is required for document parsing"
  else
    result ← documentParser agents clock {| dp_url := default "" (url state) |} context;
    _ ← require_success result "Document parsing failed";
    Normal
      {| set_url := None;
         set_documentContent := Some (data result);
         set_keyPoints := None;
         set_question := None;
         set_userLevel := None;
         set_questionCount := None;
         set_conversationHistory := None;
         set_parsedDocument := Some (data result);
         set_extractedKeyPoints := None;
         set_generatedLearningPath := None;
         set_generatedQuiz := None;
         set_answer := None;
         set_errors := None;
         set_currentStep := Some (Some "document_parsed");
         set_sessionId := None;
         set_completed := None |}.

Definition executeExtractKeypoints (state : WorkflowState) (context : AgentContext)
  : Completion PartialState :=
  match or_obj (parsedDocument state) (documentContent state) with
  | None => Throw "Document content is required for key point extraction"
  | Some documentContent =>
      result ← keyPointExtractor agents clock
                 {| KeyPointExtractor.documentContent := documentContent;
                    KeyPointExtractor.userLevel := normalizeUserLevel (userLevel state);
                    KeyPointExtractor.maxKeyPoints := None |} context;
      _ ← require_success result "Key point extraction failed";
      Normal
        {| set_url := None;
           set_documentContent := None;
           set_keyPoints := Some (data result);
           set_question := None;
           set_userLevel := None;
           set_questionCount := None;
           set_conversationHistory := None;
           set_parsedDocument := None;
           set_extractedKeyPoints := Some (data result);
           set_generatedLearningPath := None;
           set_generatedQuiz := None;
           set_answer := None;
           set_errors := None;
           set_currentStep := Some (Some "keypoints_extracted");
           set_sessionId := None;
           set_completed := None |}
  end.

Definition executeGenerateLearningPath (state : WorkflowState)
    (context : AgentContext) : Completion PartialState :=
  match or_obj (extractedKeyPoints state) (keyPoints state) with
  | None | Some [] => Throw "Key points are required for learning path generation"
  | Some keyPoints =>
      result ← learningPathAgent agents clock
                 {| lp_keyPoints := keyPoints;
                    lp_userLevel := normalizeUserLevel (userLevel state) |} context;
      _ ← require_success result "Learning path generation failed";
      Normal
        {| set_url := None;
           set_documentContent := None;
           set_keyPoints := None;
           set_question := None;
           set_userLevel := None;
           set_questionCount := None;
           set_conversationHistory := None;
           set_parsedDocument := None;
           set_extractedKeyPoints := None;
           set_generatedLearningPath := Some (data result);
           set_generatedQuiz := None;
           set_answer := None;
           set_errors := None;
           set_currentStep := Some (Some "learning_path_generated");
           set_sessionId := None;
           set_completed := None |}
  end.

Definition executeGenerateQuiz (state : WorkflowState) (context : AgentContext)
  : Completion PartialState :=
  match or_obj (extractedKeyPoints state) (keyPoints state) with
  | None | Some [] => Throw "Key points are required for quiz generation"
  | Some keyPoints =>
      result ← quizAgent agents clock
                 {| qz_keyPoints := keyPoints;
                    qz_documentContent :=
                      or_obj (parsedDocument state) (documentContent state);
                    qz_questionCount :=
                      match questionCount state with
                      | Some n => if (n =? 0)%Z then 5%Z else n
                      | None => 5%Z
                      end;
                    qz_userLevel := normalizeUserLevel (userLevel state);
                    qz_questionTypes := ["multiple_choice"; "true_false"; "fill_blank"];
                    qz_difficultyLevel := "medium" |} context;
      _ ← require_success result "Quiz generation failed";
      Normal
        {| set_url := None;
           set_documentContent := None;
           set_keyPoints := None;
           set_question := None;
           set_userLevel := None;
           set_questionCount := None;
           set_conversationHistory := None;
           set_parsedDocument := None;
           set_extractedKeyPoints := None;
           set_generatedLearningPath := None;
           set_generatedQuiz := Some (data result);
           set_answer := None;
           set_errors := None;
           set_currentStep := Some (Some "quiz_generated");
           set_sessionId := None;
           set_completed := None |}
  end.

Definition executeAnswerQuestion (state : WorkflowState) (context : AgentContext)
  : Completion PartialState :=
  match documentContent state with
  | Some documentContent =>
      if negb (Js.truthy (question state)) then
        Throw "Question and document content are required for QA"
      else
        result ← qaAgent agents clock
                   {| qa_question := default "" (question state);
                      qa_documentContent := documentContent;
                      qa_conversationHistory :=
                        default [] (conversationHistory state) |} context;
        _ ← require_success result "Question answering failed";
        Normal
          {| set_url := None;
             set_documentContent := None;
             set_keyPoints := None;
             set_question := None;
             set_userLevel := None;
             set_questionCount := None;
             set_conversationHistory := None;
             set_parsedDocument := None;
             set_extractedKeyPoints := None;
             set_generatedLearningPath := None;
             set_generatedQuiz := None;
             set_answer := Some (data result);
             set_errors := None;
             set_currentStep := Some (Some "question_answered");
             set_sessionId := None;
             set_completed := None |}
  | None => Throw "Question and document content are required for QA"
  end.

Definition step_context (state : WorkflowState) : AgentContext :=
  {| ctx_sessionId := Js.or_else (sessionId state) "default";
     ctx_userLevel := Some (normalizeUserLevel (userLevel state));
     ctx_documentContent :=
       DocumentContent.content
         <$> or_obj (parsedDocument state) (documentContent state);
     ctx_dialogHistory := Some (default [] (conversationHistory state)) |}.

(** The [switch] inside the [try] of [executeStep]. *)
Definition dispatch (stepType : WorkflowStepType) (state : WorkflowState)
  : Completion PartialState :=
  let context := step_context state in
  match stepType with
  | parse_document => executeParseDocument state context
  | extract_keypoints => executeExtractKeypoints state context
  | generate_learning_path => executeGenerateLearningPath state context
  | generate_quiz => executeGenerateQuiz state context
  | answer_question => executeAnswerQuestion state context
  end.

Definition step_failure_message (stepType : WorkflowStepType) (message : string)
  : string :=
  "Step " +:+ step_type_name stepType +:+ " failed: " +:+ message.

Definition executeStep (stepType : WorkflowStepType) (state : WorkflowState)
  : Completion PartialState :=
  try_catch (dispatch stepType state)
    (λ message,
       Normal (errors_only (errors_or_empty state
                            ++ [step_failure_message stepType message]))).
End Steps.

(** *** The scheduler loop *)

Definition checkDependencies (step : WorkflowStep) (completedSteps : gset string)
  : bool :=
  match dependencies step with
  | None => true
  | Some deps => forallb (λ dep, bool_decide (dep ∈ completedSteps)) deps
  end.

Definition checkCondition (step : WorkflowStep) (state : WorkflowState) : bool :=
  match condition step with
  | None => true
  | Some c => c state
  end.

(** One executed step, as a record kept beside the run: the round it
    ran in, the state it was given and the count of steps run before. *)
Record LogEntry := {
  log_round : nat;
  log_step : WorkflowStep;
  log_observed : WorkflowState;
  log_clock : nat }.

(** The variables of [executeWorkflow]. [round] and [log] are not in
    the source: they record what happened and nothing reads them. *)
Record Run := mkRun {
  state : WorkflowState;
  completedSteps : gset string;
  pendingSteps : list WorkflowStep;
  progressMade : bool;
  clock : nat;
  round : nat;
  log : list LogEntry }.

Definition stall_message : string :=
  "Workflow execution stalled - possible circular dependencies or unmet conditions".

Section Loop.
Context (agents : Agents).

(** The test that guards the body of the inner loop. *)
Definition runnable (step : WorkflowStep) (r : Run) : bool :=
  checkDependencies step (completedSteps r) && checkCondition step (state r).

(** The guarded body, for the step found at index [i]: the [try]
    around [executeStep] and its [catch]. *)
Definition run_step (i : nat) (step : WorkflowStep) (r : Run) : Run :=
  let entry := {| log_round := round r; log_step := step;
                  log_observed := state r; log_clock := clock r |} in
  match executeStep agents (clock r) (type step) (state r) with
  | Normal stepResult =>
      mkRun (merge (state r) stepResult)
            ({[ id step ]} ∪ completedSteps r)
            (delete i (pendingSteps r))
            true (S (clock r)) (round r) (log r ++ [entry])
  | Throw message =>
      mkRun (with_errors (state r)
               (errors_or_empty (state r)
                ++ ["Step " +:+ id step +:+ " failed: " +:+ message]))
            (completedSteps r)
            (delete i (pendingSteps r))
            true (S (clock r)) (round r) (log r ++ [entry])
  end.

(** [for (let i = pendingSteps.length - 1; i >= 0; i--)], for the
    indices below [i], highest first. *)
Fixpoint scan (i : nat) (r : Run) : Run :=
  match i with
  | O => r
  | S i' =>
      match pendingSteps r !! i' with
      | Some step =>
          if runnable step r then scan i' (run_step i' step r) else scan i' r
      | None => scan i' r
      end
  end.

(** [let progressMade = false] at the top of a round. *)
Definition start_round (r : Run) : Run :=
  mkRun (state r) (completedSteps r) (pendingSteps r)
        false (clock r) (S (round r)) (log r).

(** The round made no progress: the stall is recorded. *)
Definition stalled (r : Run) : Run :=
  mkRun (with_errors (state r) (errors_or_empty (state r) ++ [stall_message]))
        (completedSteps r) (pendingSteps r)
        (progressMade r) (clock r) (round r) (log r).

(** [while (pendingSteps.length > 0)]; [fuel] bounds the rounds. *)
Fixpoint rounds (fuel : nat) (r : Run) : option Run :=
  match pendingSteps r with
  | [] => Some r
  | _ :: _ =>
      match fuel with
      | O => None
      | S fuel' =>
          let r' := scan (length (pendingSteps r)) (start_round r) in
          if progressMade r' then rounds fuel' r' else Some (stalled r')
      end
  end.

(** The last statement: [state.completed = ...]. *)
Definition finish (r : Run) : Run :=
  mkRun (with_completed (state r)
           (bool_decide (pendingSteps r = [])
            && (length (errors_or_empty (state r)) =? 0)%nat))
        (completedSteps r) (pendingSteps r) (progressMade r)
        (clock r) (round r) (log r).

(** The state [executeWorkflow] starts from; [now] is [Date.now()]. *)
Definition initial_state (now : nat) (initialState : WorkflowState) : WorkflowState :=
  mkState (url initialState) (documentContent initialState) (keyPoints initialState)
    (question initialState) (userLevel initialState) (questionCount initialState)
    (conversationHistory initialState) (parsedDocument initialState)
    (extractedKeyPoints initialState) (generatedLearningPath initialState)
    (generatedQuiz initialState) (answer initialState)
    (Some [])
    (currentStep initialState)
    (Some (Js.or_else (sessionId initialState) ("session_" +:+ Js.string_of_nat now)))
    (Some false).

(** [executeWorkflow] once the workflow is found; [None] would mean
    that the loop did not finish within its bound. *)
Definition run_steps (now : nat) (workflow_steps : list WorkflowStep)
    (initialState : WorkflowState) : option Run :=
  finish <$> rounds (S (length workflow_steps))
               (mkRun (initial_state now initialState) ∅ workflow_steps
                      false 0 0 []).

Definition executeWorkflow (now : nat) (workflowId : string)
    (initialState : WorkflowState) : option (Completion WorkflowState) :=
  match getWorkflowDefinitions !! workflowId with
  | None => Some (Throw ("Unknown workflow: " +:+ workflowId))
  | Some workflow =>
      r ← run_steps now (steps workflow) initialState;
      Some (Normal (state r))
  end.
End Loop.

(** *** Reading a run *)

(** Step [s] names step [t] among its dependencies. *)
Definition depends_on (s t : WorkflowStep) : Prop :=
  id t ∈ default [] (dependencies s).

(** A cycle: each step of [cyc] depends on the next one, the last on
    the first. A step that depends on itself is a cycle of length one. *)
Definition dependency_cycle (cyc : list WorkflowStep) : Prop :=
  cyc ≠ [] ∧
  ∀ i s, cyc !! i = Some s →
         ∃ t, cyc !! (S i mod length cyc) = Some t ∧ depends_on s t.

Definition unique_ids (l : list WorkflowStep) : Prop := NoDup (id <$> l).

(** Every dependency is declared ahead of the step that names it. *)
Definition dependency_ordered (steps0 : list WorkflowStep) : Prop :=
  ∀ d s, d ∈ steps0 → s ∈ steps0 → depends_on d s → [s; d] `sublist_of` steps0.

(** No condition reads [errors] or [completed]. *)
Definition conditions_on_inputs (steps0 : list WorkflowStep) : Prop :=
  ∀ d st es b, d ∈ steps0 →
    checkCondition d (with_completed (with_errors st es) b) = checkCondition d st.

(** The steps run in round [k], in the order they ran. *)
Definition steps_in_round (k : nat) (l : list LogEntry) : list WorkflowStep :=
  log_step <$> filter (λ e, log_round e = k) l.

(** The claim that a round runs its steps in declaration order. *)
Definition runs_in_declaration_order (steps0 : list WorkflowStep) (r : Run) : Prop :=
  ∀ k, steps_in_round k (log r) `sublist_of` steps0.

Section History.
Context (agents : Agents).

(** The agent call behind a logged step threw or reported failure. *)
Definition failed (e : LogEntry) : Prop :=
  ∃ m, dispatch agents (log_clock e) (type (log_step e)) (log_observed e) = Throw m.

(** The shared state once the logged step's result is merged. *)
Definition after_step (e : LogEntry) : WorkflowState :=
  match executeStep agents (log_clock e) (type (log_step e)) (log_observed e) with
  | Normal p => merge (log_observed e) p
  | Throw _ => log_observed e
  end.

(** The shared state after the steps of [l] have run from [s0]. *)
Definition state_after (s0 : WorkflowState) (l : list LogEntry) : WorkflowState :=
  default s0 (after_step <$> last l).

(** What a failed step leaves behind, and what it does not block. *)
Definition isolates_failures (steps0 : list WorkflowStep) (r : Run) : Prop :=
  ∀ e m, e ∈ log r →
    dispatch agents (log_clock e) (type (log_step e)) (log_observed e) = Throw m →
    is_Some (errors (after_step e))
    ∧ step_failure_message (type (log_step e)) m ∈ errors_or_empty (state r)
    ∧ id (log_step e) ∈ completedSteps r
    ∧ ∀ d, d ∈ steps0 → depends_on d (log_step e) → runnable d r = true →
           ∃ e', e' ∈ log r ∧ log_step e' = d ∧ log_round e < log_round e'.

Context (steps0 : list WorkflowStep) (s0 : WorkflowState).

(** What holds in the middle of a scan that started with the
    pending list [P0] and has still to look at [todo]. *)
Record hist (P0 todo : list WorkflowStep) (r : Run) : Prop := {
  h_sub : pendingSteps r `sublist_of` steps0;
  h_perm : pendingSteps r ++ (log_step <$> log r) ≡ₚ steps0;
  h_done : ∀ x, x ∈ completedSteps r ↔ ∃ e, e ∈ log r ∧ id (log_step e) = x;
  h_round : ∀ e, e ∈ log r → log_round e ≤ round r;
  h_mono : ∀ i j e1 e2, i ≤ j → log r !! i = Some e1 → log r !! j = Some e2 →
                        log_round e1 ≤ log_round e2;
  h_order_past : ∀ k, k ≠ round r →
                      reverse (steps_in_round k (log r)) `sublist_of` steps0;
  h_order_now : todo ++ reverse (steps_in_round (round r) (log r))
                  `sublist_of` P0;
  h_deps : ∀ i e dep, log r !! i = Some e →
             dep ∈ default [] (dependencies (log_step e)) →
             ∃ j e0, j < i ∧ log r !! j = Some e0 ∧ id (log_step e0) = dep;
  h_state : state r = state_after s0 (log r);
  h_chain : ∀ i e, log r !! i = Some e →
                   log_observed e = state_after s0 (take i (log r))
                   ∧ log_clock e = i;
  h_clock : clock r = length (log r);
  h_errs : is_Some (errors (state r));
  h_fail : ∀ e m, e ∈ log r →
             dispatch agents (log_clock e) (type (log_step e)) (log_observed e)
             = Throw m →
             step_failure_message (type (log_step e)) m
             ∈ errors_or_empty (state r) }.

(** What holds of the run that [run_steps] returns. *)
Record final (r : Run) : Prop := {
  f_perm : pendingSteps r ++ (log_step <$> log r) ≡ₚ steps0;
  f_done : ∀ x, x ∈ completedSteps r ↔ ∃ e, e ∈ log r ∧ id (log_step e) = x;
  f_mono : ∀ i j e1 e2, i ≤ j → log r !! i = Some e1 → log r !! j = Some e2 →
                        log_round e1 ≤ log_round e2;
  f_order : ∀ k, reverse (steps_in_round k (log r)) `sublist_of` steps0;
  f_deps : ∀ i e dep, log r !! i = Some e →
             dep ∈ default [] (dependencies (log_step e)) →
             ∃ j e0, j < i ∧ log r !! j = Some e0 ∧ id (log_step e0) = dep;
  f_chain : ∀ i e, log r !! i = Some e →
                   log_observed e = state_after s0 (take i (log r))
                   ∧ log_clock e = i;
  f_errs : is_Some (errors (state r));
  f_fail : ∀ e m, e ∈ log r →
             dispatch agents (log_clock e) (type (log_step e)) (log_observed e)
             = Throw m →
             step_failure_message (type (log_step e)) m
             ∈ errors_or_empty (state r);
  f_completed :
    completed (state r)
    = Some (bool_decide (pendingSteps r = [])
            && (length (errors_or_empty (state r)) =? 0));
  f_blocked : ∀ s, s ∈ pendingSteps r →
              ∃ st es b, state r = with_completed (with_errors st es) b
                ∧ checkDependencies s (completedSteps r) && checkCondition s st
                  = false }.
End History.

(** The steps a set [B] of identifiers blocks: what the scheduler
    keeps true while no step named in [B] can run. *)
Definition blocked_inv (steps0 : list WorkflowStep) (B : string → Prop) (r : Run)
  : Prop :=
  (∀ x, x ∈ completedSteps r → ¬ B x)
  ∧ (∀ s, s ∈ steps0 → B (id s) → s ∈ pendingSteps r)
  ∧ (∀ s, s ∈ pendingSteps r → s ∈ steps0).


(** Every dependency names a declared step. *)
Definition dependencies_declared (steps0 : list WorkflowStep) : Prop :=
  ∀ s dep, s ∈ steps0 → dep ∈ default [] (dependencies s) →
           ∃ d, d ∈ steps0 ∧ id d = dep.

(** No step of the list is held back by its condition. *)
Definition unconditional (steps0 : list WorkflowStep) : Prop :=
  ∀ s st, s ∈ steps0 → checkCondition s st = true.

(** Two states carry the same request: the fields a caller supplies
    and no step result names. *)
Definition same_request (a b : WorkflowState) : Prop :=
  url a = url b ∧ question a = question b ∧ userLevel a = userLevel b
  ∧ questionCount a = questionCount b
  ∧ conversationHistory a = conversationHistory b
  ∧ sessionId a = sessionId b.

End Workflow.

(** ** The streaming scheduler ([streamWorkflow]) *)

Module WorkflowStream.
Import Workflow.

(** One value handed to the consumer: the state object yielded, named
    by its number in the order of creation, and what it held then. *)
Record Yielded := { y_object : nat; y_value : WorkflowState }.

(** The variables of [streamWorkflow] are those of [executeWorkflow],
    kept in [vars]. The state objects are told apart: [object] names the
    one the variable [state] refers to, whose content is [state vars];
    [retired] holds the objects it referred to before, as they were left;
    [yielded] is what the consumer has been handed so far. *)
Record Stream := mkStream {
  vars : Run;
  object : nat;
  retired : gmap nat WorkflowState;
  yielded : list Yielded }.

(** The state objects created so far and what they hold. *)
Definition store (s : Stream) : gmap nat WorkflowState :=
  <[object s := state (vars s)]> (retired s).

(** [state = { ...state, ...stepResult }]: the variable is bound to a
    new object and the one it referred to is left as it is. *)
Definition rebind (r : Run) (s : Stream) : Stream :=
  mkStream r (S (object s)) (store s) (yielded s).

(** An assignment to another variable, or [state.key = ...] written
    into the object in place. *)
Definition update (r : Run) (s : Stream) : Stream :=
  mkStream r (object s) (retired s) (yielded s).

(** [yield state]. *)
Definition yield (s : Stream) : Stream :=
  mkStream (vars s) (object s) (retired s)
    (yielded s ++ [{| y_object := object s; y_value := state (vars s) |}]).

Definition stream_stall_message : string := "Workflow execution stalled".

Section Stream.
Context (agents : Agents).

(** The guarded body of the inner loop, with its two [yield]s. *)
Definition stream_step (i : nat) (step : WorkflowStep) (s : Stream) : Stream :=
  let r := vars s in
  let entry := {| log_round := round r; log_step := step;
                  log_observed := state r; log_clock := clock r |} in
  match executeStep agents (clock r) (type step) (state r) with
  | Normal stepResult =>
      yield (rebind (mkRun (merge (state r) stepResult)
                           ({[ id step ]} ∪ completedSteps r)
                           (delete i (pendingSteps r))
                           true (S (clock r)) (round r) (log r ++ [entry])) s)
  | Throw message =>
      yield (update (mkRun (with_errors (state r)
                              (errors_or_empty (state r)
                               ++ ["Step " +:+ id step +:+ " failed: " +:+ message]))
                           (completedSteps r)
                           (delete i (pendingSteps r))
                           true (S (clock r)) (round r) (log r ++ [entry])) s)
  end.

Fixpoint stream_scan (i : nat) (s : Stream) : Stream :=
  match i with
  | O => s
  | S i' =>
      match pendingSteps (vars s) !! i' with
      | Some step =>
          if runnable step (vars s) then stream_scan i' (stream_step i' step s)
          else stream_scan i' s
      | None => stream_scan i' s
      end
  end.

(** The round made no progress: the stall is recorded and yielded. *)
Definition stream_stalled (s : Stream) : Stream :=
  let r := vars s in
  yield (update (mkRun (with_errors (state r)
                          (errors_or_empty (state r) ++ [stream_stall_message]))
                       (completedSteps r) (pendingSteps r)
                       (progressMade r) (clock r) (round r) (log r)) s).

Fixpoint stream_rounds (fuel : nat) (s : Stream) : option Stream :=
  match pendingSteps (vars s) with
  | [] => Some s
  | _ :: _ =>
      match fuel with
      | O => None
      | S fuel' =>
          let s' := stream_scan (length (pendingSteps (vars s)))
                      (update (start_round (vars s)) s) in
          if progressMade (vars s') then stream_rounds fuel' s'
          else Some (stream_stalled s')
      end
  end.

(** The last two statements: [state.completed = ...; yield state]. *)
Definition stream_finish (s : Stream) : Stream :=
  yield (update (finish (vars s)) s).

(** [streamWorkflow] once the workflow is found, for a consumer that
    takes every value: the first state object is yielded before the loop
    starts. *)
Definition stream_steps (now : nat) (workflow_steps : list WorkflowStep)
    (initialState : WorkflowState) : option Stream :=
  stream_finish
    <$> stream_rounds (S (length workflow_steps))
          (yield (mkStream (mkRun (initial_state now initialState) ∅ workflow_steps
                                  false 0 0 [])
                           0 ∅ [])).

(** An unknown workflow makes the generator throw before it yields. *)
Definition streamWorkflow (now : nat) (workflowId : string)
    (initialState : WorkflowState) : option (Completion Stream) :=
  match getWorkflowDefinitions !! workflowId with
  | None => Some (Throw ("Unknown workflow: " +:+ workflowId))
  | Some workflow =>
      s ← stream_steps now (steps workflow) initialState;
      Some (Normal s)
  end.
End Stream.

(** What the consumer has seen, value by value. *)
Definition seen (s : Stream) : list WorkflowState := y_value <$> yielded s.

Section Reading.
Context (agents : Agents).

(** What holds of the stream inside the loop: one state object and one
    value yielded for the start and for each step run so far. *)
Record streaming (s0 : WorkflowState) (s : Stream) : Prop := {
  st_seen : seen s = s0 :: (after_step agents <$> log (vars s));
  st_objects : y_object <$> yielded s = seq 0 (S (length (log (vars s))));
  st_object : object s = length (log (vars s));
  st_retired : ∀ i, i < object s → retired s !! i = seen s !! i;
  st_last : last (seen s) = Some (state (vars s));
  st_open : Forall (λ st, completed st = Some false) (seen s) }.
End Reading.

End WorkflowStream.

(** ** The service method ([ai-workflow.service.ts]) *)

Module AIWorkflowService.
Import Workflow.

Definition failure_prefix : string := "工作流执行失败: ".
Definition error_prefix : string := "工作流执行错误: ".

Section Service.
Context (agents : Agents).

(** [executeWorkflow] of the service: the executor's result is handed
    on unless it is not completed and carries errors; whatever is thrown
    inside the [try] is thrown again under the service's own prefix. The
    calls to the logger are left out. *)
Definition executeWorkflow (now : nat) (workflowId : string)
    (initialState : WorkflowState) : option (Completion WorkflowState) :=
  outcome ← Workflow.executeWorkflow agents now workflowId initialState;
  Some (try_catch
          (result ← outcome;
           if negb (default false (completed result))
              && match errors result with
                 | Some errs => (0 <? length errs)%nat
                 | None => false
                 end
           then Throw (failure_prefix +:+ Js.join ", " (errors_or_empty result))
           else Normal result)
          (λ message, Throw (error_prefix +:+ message))).
End Service.
End AIWorkflowService.

(** ** The orchestrator ([agent-orchestrator.ts]) *)

Module Orchestrator.

(** [WorkflowInput]. [type] is a string at run time, which is what the
    [default] branch of the [switch] is for. Of [options] the code reads
    [skipSteps] and [customPrompts.userId] and nothing else. *)
Record WorkflowInput := {
  type : string;
  url : option string;
  documentContent : option DocumentContent.t;
  keyPoints : option (list KeyPoint.t);
  question : option string;
  userLevel : option UserLevel;
  questionCount : option Z;
  timeConstraint : option string;
  focusAreas : option (list string);
  conversationHistory : option (list (string * string));
  skipSteps : option (list string);
  userId : option string }.

(** The context the orchestrator builds; its [timestamp] is left out. *)
Record Context := {
  ctx_sessionId : string;
  ctx_userId : string;
  ctx_userLevel : UserLevel;
  ctx_workflowType : string }.

Record Results := {
  r_documentContent : option DocumentContent.t;
  r_keyPoints : option (list KeyPoint.t);
  r_learningPath : option (list LearningStep.t);
  r_answer : option string;
  r_quiz : option (list QuizQuestion.t) }.

(** An entry of [metadata.errors], without its [timestamp]. *)
Record StepError := { e_step : string; e_error : string }.

(** [metadata], without [executionTime]. *)
Record Metadata := {
  stepsExecuted : list string;
  errors : list StepError }.

Record WorkflowOutput := {
  o_success : bool;
  o_workflowType : string;
  o_results : Results;
  o_metadata : Metadata;
  o_context : Context }.

(** The object [{}] that [results] starts as. *)
Definition no_results : Results :=
  {| r_documentContent := None; r_keyPoints := None; r_learningPath := None;
     r_answer := None; r_quiz := None |}.

(** *** The agents, as the orchestrator calls them *)

Record ParserInput := { dp_url : string }.

Record ExtractorInput := {
  ke_documentContent : option DocumentContent.t;
  ke_userLevel : UserLevel }.

Record PlannerInput := {
  lp_keyPoints : option (list KeyPoint.t);
  lp_userLevel : UserLevel;
  lp_timeConstraint : option string;
  lp_focusAreas : option (list string) }.

Record QAInput := {
  qa_question : string;
  qa_documentContent : DocumentContent.t;
  qa_keyPoints : option (list KeyPoint.t);
  qa_conversationHistory : option (list (string * string)) }.

Record QuizInput := {
  qz_documentContent : option DocumentContent.t;
  qz_keyPoints : option (list KeyPoint.t);
  qz_userLevel : UserLevel;
  qz_questionCount : Z }.

(** The [execute] method of each agent: the promise it returns settles
    after some time, with a result or an exception, or never does. *)
Record Agents := {
  documentParser :
    ParserInput → Context → BaseAgent.Attempt (AgentResult DocumentContent.t);
  keyPointExtractor :
    ExtractorInput → Context → BaseAgent.Attempt (AgentResult (list KeyPoint.t));
  learningPathAgent :
    PlannerInput → Context → BaseAgent.Attempt (AgentResult (list LearningStep.t));
  qaAgent :
    QAInput → Context → BaseAgent.Attempt (AgentResult string);
  quizAgent :
    QuizInput → Context → BaseAgent.Attempt (AgentResult (list QuizQuestion.t)) }.

(** *** Running one step *)

(** A computation that writes to [output.metadata] and returns or
    throws. *)
Definition Step (A : Type) : Type := Metadata → Metadata * Completion A.

#[global] Instance Step_ret : MRet Step := λ A a meta, (meta, Normal a).

#[global] Instance Step_bind : MBind Step := λ A B k m meta,
  match m meta with
  | (meta', Normal a) => k a meta'
  | (meta', Throw message) => (meta', Throw message)
  end.

Definition step_throw {A} (message : string) : Step A :=
  λ meta, (meta, Throw message).

Definition defaultTimeout : Z := 60000.

Definition timeout_message (timeout : Z) : string :=
  "Operation timed out after " +:+ Js.string_of_Z timeout +:+ "ms".

(** [Promise.race] of the step against [createTimeoutPromise]. *)
Definition race {T} (operation : BaseAgent.Attempt T) (timeout : Z) : Completion T :=
  match operation with
  | BaseAgent.Settles elapsed outcome =>
      if (elapsed <? timeout)%Z then outcome else Throw (timeout_message timeout)
  | BaseAgent.Hangs => Throw (timeout_message timeout)
  end.

Definition push_step (stepName : string) (meta : Metadata) : Metadata :=
  {| stepsExecuted := stepsExecuted meta ++ [stepName]; errors := errors meta |}.

Definition push_error (stepName message : string) (meta : Metadata) : Metadata :=
  {| stepsExecuted := stepsExecuted meta;
     errors := errors meta ++ [{| e_step := stepName; e_error := message |}] |}.

(** [executeStep]: the name of the step is recorded once the race is
    won, before the result is looked at; whatever is thrown inside the
    [try] is recorded and thrown again. [result.data!] may be undefined. *)
Definition executeStep {T} (stepName : string)
    (stepFunction : BaseAgent.Attempt (AgentResult T)) : Step (option T) :=
  λ meta,
    match race stepFunction defaultTimeout with
    | Normal result =>
        let meta := push_step stepName meta in
        if negb (success result) then
          let message := Js.or_else (error result)
                           ("Step " +:+ stepName +:+ " failed") in
          (push_error stepName message meta, Throw message)
        else (meta, Normal (data result))
    | Throw message => (push_error stepName message meta, Throw message)
    end.

(** *** The five workflows *)

(** [input.userLevel === 'intermediate' ? 'beginner'
     : (input.userLevel || 'beginner')]. *)
Definition agent_level (input : WorkflowInput) : UserLevel :=
  match userLevel input with
  | Some intermediate => beginner
  | Some level => level
  | None => beginner
  end.

(** [!input.options?.skipSteps?.includes('quiz_generation')]. *)
Definition wants_quiz (input : WorkflowInput) : bool :=
  negb (match skipSteps input with
        | Some names => bool_decide ("quiz_generation" ∈ names)
        | None => false
        end).

Section Workflows.
Context (agents : Agents).
Context (input : WorkflowInput) (context : Context).

Definition executeDocumentAnalysisWorkflow : Step Results :=
  if negb (Js.truthy (url input)) then
    step_throw "URL is required for document analysis workflow"
  else
    documentContent ←
      executeStep "document_parsing"
        (documentParser agents {| dp_url := default "" (url input) |} context);
    keyPoints ←
      executeStep "keypoint_extraction"
        (keyPointExtractor agents
           {| ke_documentContent := documentContent;
              ke_userLevel := agent_level input |} context);
    mret {| r_documentContent := documentContent;
                r_keyPoints := keyPoints;
                r_learningPath := None; r_answer := None; r_quiz := None |}.

Definition executeLearningGenerationWorkflow : Step Results :=
  match keyPoints input with
  | None | Some [] =>
      step_throw "Key points are required for learning generation workflow"
  | Some _ =>
      learningPath ←
        executeStep "learning_path_generation"
          (learningPathAgent agents
             {| lp_keyPoints := keyPoints input;
                lp_userLevel := agent_level input;
                lp_timeConstraint := timeConstraint input;
                lp_focusAreas := focusAreas input |} context);
      mret {| r_documentContent := None; r_keyPoints := None;
                  r_learningPath := learningPath;
                  r_answer := None; r_quiz := None |}
  end.

Definition executeInteractiveQAWorkflow : Step Results :=
  match documentContent input with
  | Some document =>
      if negb (Js.truthy (question input)) then
        step_throw "Question and document content are required for QA workflow"
      else
        answer ←
          executeStep "question_answering"
            (qaAgent agents
               {| qa_question := default "" (question input);
                  qa_documentContent := document;
                  qa_keyPoints := keyPoints input;
                  qa_conversationHistory := conversationHistory input |} context);
        mret {| r_documentContent := None; r_keyPoints := None;
                    r_learningPath := None;
                    r_answer := answer; r_quiz := None |}
  | None =>
      step_throw "Question and document content are required for QA workflow"
  end.

(** [input.questionCount || 5]. *)
Definition quiz_count : Z :=
  match questionCount input with
  | Some n => if (n =? 0)%Z then 5%Z else n
  | None => 5%Z
  end.

Definition executeQuizGenerationWorkflow : Step Results :=
  match documentContent input with
  | None => step_throw "Document content is required for quiz generation workflow"
  | Some _ =>
      quiz ←
        executeStep "quiz_generation"
          (quizAgent agents
             {| qz_documentContent := documentContent input;
                qz_keyPoints := keyPoints input;
                qz_userLevel := default intermediate (userLevel input);
                qz_questionCount := quiz_count |} context);
      mret {| r_documentContent := None; r_keyPoints := None;
                  r_learningPath := None; r_answer := None;
                  r_quiz := quiz |}
  end.

Definition executeFullPipelineWorkflow : Step Results :=
  if negb (Js.truthy (url input)) then
    step_throw "URL is required for full pipeline workflow"
  else
    documentContent ←
      executeStep "document_parsing"
        (documentParser agents {| dp_url := default "" (url input) |} context);
    keyPoints ←
      executeStep "keypoint_extraction"
        (keyPointExtractor agents
           {| ke_documentContent := documentContent;
              ke_userLevel := agent_level input |} context);
    learningPath ←
      executeStep "learning_path_generation"
        (learningPathAgent agents
           {| lp_keyPoints := keyPoints;
              lp_userLevel := agent_level input;
              lp_timeConstraint := timeConstraint input;
              lp_focusAreas := focusAreas input |} context);
    quiz ←
      (if wants_quiz input then
         executeStep "quiz_generation"
           (quizAgent agents
              {| qz_documentContent := documentContent;
                 qz_keyPoints := keyPoints;
                 qz_userLevel := default intermediate (userLevel input);
                 qz_questionCount := quiz_count |} context)
       else mret None);
    mret {| r_documentContent := documentContent;
                r_keyPoints := keyPoints;
                r_learningPath := learningPath;
                r_answer := None;
                r_quiz := quiz |}.

(** The [switch] on [input.type]. *)
Definition dispatch : Step Results :=
  if decide (type input = "document_analysis") then
    executeDocumentAnalysisWorkflow
  else if decide (type input = "learning_generation") then
    executeLearningGenerationWorkflow
  else if decide (type input = "interactive_qa") then
    executeInteractiveQAWorkflow
  else if decide (type input = "quiz_generation") then
    executeQuizGenerationWorkflow
  else if decide (type input = "full_pipeline") then
    executeFullPipelineWorkflow
  else step_throw ("Unknown workflow type: " +:+ type input).
End Workflows.

(** [executeWorkflow]; [sessionId] is what [generateSessionId] returns.
    The [catch] records the exception under the name
    [workflow_execution] and the output is returned in either case. *)
Definition executeWorkflow (agents : Agents) (sessionId : string)
    (input : WorkflowInput) : WorkflowOutput :=
  let context :=
    {| ctx_sessionId := sessionId;
       ctx_userId := Js.or_else (userId input) "anonymous";
       ctx_userLevel := default intermediate (userLevel input);
       ctx_workflowType := type input |} in
  match dispatch agents input context {| stepsExecuted := []; errors := [] |} with
  | (meta, Normal results) =>
      {| o_success := true; o_workflowType := type input;
         o_results := results; o_metadata := meta; o_context := context |}
  | (meta, Throw message) =>
      {| o_success := false; o_workflowType := type input;
         o_results := no_results;
         o_metadata := push_error "workflow_execution" message meta;
         o_context := context |}
  end.

(** *** Reading an output *)

(** The steps the workflow of an input is made of, in order. *)
Definition planned_steps (input : WorkflowInput) : list string :=
  if decide (type input = "document_analysis") then
    ["document_parsing"; "keypoint_extraction"]
  else if decide (type input = "learning_generation") then
    ["learning_path_generation"]
  else if decide (type input = "interactive_qa") then
    ["question_answering"]
  else if decide (type input = "quiz_generation") then
    ["quiz_generation"]
  else if decide (type input = "full_pipeline") then
    ["document_parsing"; "keypoint_extraction"; "learning_path_generation"]
    ++ (if wants_quiz input then ["quiz_generation"] else [])
  else [].

(** What a workflow made of the steps [planned] leaves behind. *)
Definition ends_well (planned : list string) (r : Metadata * Completion Results)
  : Prop :=
  match r.2 with
  | Normal _ => stepsExecuted r.1 = planned ∧ errors r.1 = []
  | Throw message =>
      (errors r.1 = [] ∧ stepsExecuted r.1 = [])
      ∨ ∃ before step rest,
          planned = before ++ step :: rest
          ∧ errors r.1 = [{| e_step := step; e_error := message |}]
          ∧ (stepsExecuted r.1 = before ∨ stepsExecuted r.1 = before ++ [step])
  end.

End Orchestrator.

(** ** Concrete inputs used to exercise the definitions *)

Module Samples.
Import Workflow.

Definition sample_context : AgentContext :=
  {| ctx_sessionId := "s1"; ctx_userLevel := Some beginner;
     ctx_documentContent := None; ctx_dialogHistory := None |}.

Definition sample_document : DocumentContent.t :=
  DocumentContent.mk "Closures" "A closure is a function with its environment."
                     "https://example.com/doc".

Definition sample_keypoint : KeyPoint.t :=
  KeyPoint.mk "closure" "a function together with its environment" "high" None None.

(** An agent whose every attempt throws after five milliseconds;
    [valid] is what [validateInput] answers and [llm] how the model
    lookup ends. *)
Definition stub_agent (retries : option Z) (valid : bool) (llm : Completion ())
  : BaseAgent.Agent () () :=
  {| BaseAgent.config :=
       BaseAgent.construct
         {| BaseAgent.name := "Stub"; BaseAgent.description := "always fails";
            BaseAgent.maxRetries := retries; BaseAgent.timeout := None |};
     BaseAgent.validateInput := λ _, valid;
     BaseAgent.initializeLLM := llm;
     BaseAgent.doExecute := λ _ _ _, BaseAgent.Settles 5 (Throw "backend down") |}.

Definition always_fails (retries : option Z) : BaseAgent.Agent () () :=
  stub_agent retries true (Normal ()).

(** An agent whose back end is down at the first attempt and answers
    from the second on. *)
Definition recovers : BaseAgent.Agent () string :=
  {| BaseAgent.config :=
       BaseAgent.construct
         {| BaseAgent.name := "Stub"; BaseAgent.description := "recovers";
            BaseAgent.maxRetries := Some 3%Z; BaseAgent.timeout := None |};
     BaseAgent.validateInput := λ _, true;
     BaseAgent.initializeLLM := Normal ();
     BaseAgent.doExecute := λ attempt _ _,
       if (attempt <? 2)%Z then BaseAgent.Settles 5 (Throw "backend down")
       else BaseAgent.Settles 5 (Normal "ready") |}.

(** A parser that rejects its input, as [JSON.parse] rejects prose. *)
Definition rejecting_parser : string → Completion KeyPointExtractor.Parsed :=
  λ _, Throw "Unexpected token".

Definition prose_answer : KeyPointExtractor.PromptInput → Completion string :=
  λ _, Normal "I am sorry, I can not help with that.".

Definition sample_input : KeyPointExtractor.KeyPointExtractorInput :=
  {| KeyPointExtractor.documentContent := sample_document;
     KeyPointExtractor.userLevel := beginner;
     KeyPointExtractor.maxKeyPoints := None |}.

(** A question a model may return: two options and an answer that is
    neither of them. *)
Definition stray_answer : QuizQuestion.raw :=
  QuizQuestion.mkRaw (Some "q1") (Some "multiple_choice")
    (Some "Which keyword declares a constant?")
    (Some ["let"; "var"]) (Some "const") (Some "const declares a constant")
    (Some "easy") (Some "declarations") (Some 1%Z).

(** Three question objects: two easy questions and a hard one. *)
(** A step as the model may give it, with a time in English. *)
Definition raw_step : LearningStep.raw :=
  LearningStep.mkRaw (Some "Read the guide") (Some "about 20 minutes")
    (Some "Read the whole guide from start to end") None None None.

Definition sample_question (id text difficulty answer : string) : QuizQuestion.t :=
  QuizQuestion.mk id "multiple_choice" text ["let"; "var"; "const"] answer
                  "see the chapter on declarations" difficulty "declarations" 1.

Definition three_questions : list Quiz.Question :=
  [ Quiz.mkQuestion 0
      (sample_question "q1" "Which keyword declares a constant?" "easy" "const");
    Quiz.mkQuestion 1
      (sample_question "q2" "Which keyword is function-scoped?" "easy" "var");
    Quiz.mkQuestion 2
      (sample_question "q3" "Which keyword has a temporal dead zone?" "hard" "let") ].

(** The right answer to each of the three questions. *)
Definition right_answers : gmap string string :=
  list_to_map [("q1", "const"); ("q2", "var"); ("q3", "let")].

Definition resolved {T} (d : T) : Completion (AgentResult T) :=
  Normal {| success := true; data := Some d; error := None; attempts := Some 1%Z |}.

Definition all_succeed : Agents :=
  {| documentParser := λ _ _ _, resolved sample_document;
     keyPointExtractor := λ _ _ _, resolved [sample_keypoint];
     learningPathAgent := λ _ _ _, resolved [];
     quizAgent := λ _ _ _, resolved [];
     qaAgent := λ _ _ _, resolved "yes" |}.

(** The key-point extractor rejects; the other agents succeed. *)
Definition extractor_rejects : Agents :=
  {| documentParser := λ _ _ _, resolved sample_document;
     keyPointExtractor := λ _ _ _, Throw "LLM Manager not initialized";
     learningPathAgent := λ _ _ _, resolved [];
     quizAgent := λ _ _ _, resolved [];
     qaAgent := λ _ _ _, resolved "yes" |}.

Definition sample_request : WorkflowState :=
  mkState (Some "https://example.com/doc") None None None (Some beginner) (Some 5%Z)
          None None None None None None None None None None.

(** A request for the whole pipeline that asks for no quiz. *)
Definition request_without_quiz : WorkflowState :=
  mkState (Some "https://example.com/doc") None None None (Some beginner) None
          None None None None None None None None None None.

(** The last step of the full pipeline. *)
Definition quiz_step : WorkflowStep :=
  mkStep "generate_quiz" generate_quiz
         (Some (λ state, (0 <? default 0 (questionCount state))%Z))
         (Some ["extract"]).

(** Two steps that wait for each other. *)
Definition step_a : WorkflowStep := mkStep "a" parse_document None (Some ["b"]).
Definition step_b : WorkflowStep := mkStep "b" extract_keypoints None (Some ["a"]).
End Samples.


(** * Properties *)

(** ** The string operations on small inputs *)

Example trim_ex : Js.trim "  a b  " = "a b".
Proof. reflexivity. Qed.

Example split_ex :
  Js.split_lines ("a" +:+ KeyPointExtractor.LF +:+ "b") = ["a"; "b"].
Proof. reflexivity. Qed.

Example includes_ex : Js.includes "Operation timeout after 3ms" "timeout" = true.
Proof. reflexivity. Qed.

Example parseInt_ex :
  Js.match_digits "about 45 minutes" = Some "45" ∧ Js.parseInt "45" = 45%N.
Proof. split; reflexivity. Qed.

Example slice_ex : Js.slice0 [1; 2; 3] (-1) = [1; 2].
Proof. reflexivity. Qed.

Example match_json_array_ex :
  KeyPointExtractor.match_json_array "Here: [ {a} , {b} ] done ]" = Some "[ {a} , {b} ]".
Proof. reflexivity. Qed.

Example parseKeyPointsFromText_ex :
  KeyPointExtractor.parseKeyPointsFromText
    ("1. Closures" +:+ KeyPointExtractor.LF +:+ "A function with its environment")
  = [KeyPoint.mk "Closures" " A function with its environment" "medium" None (Some [])].
Proof. reflexivity. Qed.

Example normalizeTimeEstimate_ex :
  LearningPath.normalizeTimeEstimate (Some "2小时") beginner = "30分钟"
  ∧ LearningPath.normalizeTimeEstimate (Some "50 minutes") advanced = "40分钟".
Proof. split; reflexivity. Qed.

(** ** Lists *)

Section ListFacts.
Context {A : Type}.
Implicit Types l k : list A.

Lemma sublist_reverse l k : l `sublist_of` k → reverse l `sublist_of` reverse k.
Proof.
  induction 1 as [|x l k _ IH|x l k _ IH]; [done| |]; rewrite ?reverse_cons.
  - by apply sublist_app.
  - by apply sublist_inserts_r.
Qed.

Lemma sublist_filter_mono (P : A → Prop) `{!∀ x, Decision (P x)} l k :
  l `sublist_of` k → filter P l `sublist_of` filter P k.
Proof.
  induction 1 as [|x l k _ IH|x l k _ IH]; [done| |]; rewrite ?filter_cons.
  - destruct (decide (P x)); [by constructor|done].
  - destruct (decide (P x)); [by constructor|done].
Qed.

Lemma sublist_pair_lookup l i j a b :
  i < j → l !! i = Some a → l !! j = Some b → [a; b] `sublist_of` l.
Proof.
  revert i j. induction l as [|x l IH]; intros i j Hij Hi Hj; [done|].
  destruct i as [|i], j as [|j]; try lia; simpl in *.
  - simplify_eq. constructor. apply sublist_cons_l.
    apply list_elem_of_lookup_2, list_elem_of_split in Hj as (k1 & k2 & ->).
    exists k1, k2. split; [done|]. apply sublist_nil_l.
  - constructor. apply (IH i j); [lia|done|done].
Qed.

Lemma sublist_pair_inv l a b :
  [a; b] `sublist_of` l → ∃ i j, i < j ∧ l !! i = Some a ∧ l !! j = Some b.
Proof.
  intros (k1 & k2 & -> & H)%sublist_cons_l.
  apply sublist_cons_l in H as (k3 & k4 & -> & _).
  exists (length k1), (length k1 + S (length k3)). split_and!; [lia| |].
  - by rewrite list_lookup_middle.
  - rewrite lookup_app_r by lia.
    replace (length k1 + S (length k3) - length k1) with (S (length k3)) by lia.
    simpl. by rewrite list_lookup_middle.
Qed.

(** In a list without repetition two elements stand in one order only. *)
Lemma sublist_pair_antisym l a b :
  NoDup l → [a; b] `sublist_of` l → [b; a] `sublist_of` l → False.
Proof.
  intros Hnd (i & j & Hij & Hi & Hj)%sublist_pair_inv
             (i' & j' & Hij' & Hi' & Hj')%sublist_pair_inv.
  assert (i = j') by (eapply NoDup_lookup; eauto).
  assert (j = i') by (eapply NoDup_lookup; eauto).
  lia.
Qed.

Lemma NoDup_fmap_eq {B} (f : A → B) l x y :
  NoDup (f <$> l) → x ∈ l → y ∈ l → f x = f y → x = y.
Proof.
  intros Hnd [i Hi]%list_elem_of_lookup [j Hj]%list_elem_of_lookup Heq.
  assert (i = j) as ->.
  { eapply NoDup_lookup; [exact Hnd| |].
    - rewrite list_lookup_fmap, Hi. done.
    - rewrite list_lookup_fmap, Hj. simpl. by rewrite Heq. }
  congruence.
Qed.

(** [splice(i, 1)] at the index where [x] sits takes [x] out. *)
Lemma delete_middle (l1 l2 : list A) x :
  delete (length l1) (l1 ++ x :: l2) = l1 ++ l2.
Proof. induction l1; simpl; [done|]. by f_equal. Qed.
End ListFacts.

(** ** Indexed filters and slices *)

Module JsFacts.
Import Js.

Lemma findIndex_ext {A} (p q : A → bool) l :
  (∀ x, p x = q x) → findIndex p l = findIndex q l.
Proof.
  intros H. induction l as [|x l IH]; simpl; [done|]. by rewrite H, IH.
Qed.

(** Every element the indexed filter keeps passed the test at an index
    not below the one the filter started from. *)
Lemma filter_from_elem {A} (f : A → nat → bool) l i y :
  y ∈ filter_from i f l → ∃ k, i ≤ k ∧ f y k = true.
Proof.
  revert i. induction l as [|x l IH]; intros i; simpl.
  - by intros ?%elem_of_nil.
  - destruct (f x i) eqn:Hf.
    + intros [->|Hy]%elem_of_cons; [eauto|].
      destruct (IH _ Hy) as (k & ? & ?). exists k. split; [lia|done].
    + intros Hy. destruct (IH _ Hy) as (k & ? & ?). exists k. split; [lia|done].
Qed.

Lemma filter_from_length {A} (f : A → nat → bool) l i :
  length (filter_from i f l) ≤ length l.
Proof.
  revert i. induction l as [|x l IH]; intros i; simpl; [done|].
  destruct (f x i); simpl; specialize (IH (S i)); lia.
Qed.

(** Keeping, of each key, the element at the index [findIndex] finds
    leaves no key twice. *)
Lemma first_occurrences_NoDup {A K} `{EqDecision K} (key : A → K)
    (arr l : list A) i :
  NoDup (key <$>
    filter_from i
      (λ x index,
         bool_decide (findIndex (λ other, bool_decide (key other = key x)) arr
                      = Some index)) l).
Proof.
  revert i. induction l as [|x l IH]; intros i; simpl; [constructor|].
  destruct (bool_decide _) eqn:Hx; [|apply IH].
  rewrite fmap_cons. constructor; [|apply IH].
  intros (y & Hkey & Hy)%list_elem_of_fmap.
  apply filter_from_elem in Hy as (k & Hk & Hfy).
  apply bool_decide_eq_true in Hx, Hfy.
  rewrite (findIndex_ext _ (λ other, bool_decide (key other = key y))) in Hx.
  - rewrite Hx in Hfy. simplify_eq. lia.
  - intros o. by rewrite Hkey.
Qed.

Lemma slice0_length {A} (l : list A) (n : nat) :
  length (slice0 l (Z.of_nat n)) ≤ n.
Proof.
  unfold slice0. destruct (Z.of_nat n <? 0)%Z eqn:E; [lia|].
  rewrite length_take, Nat2Z.id. lia.
Qed.

Lemma slice0_8 {A} (l : list A) : slice0 l 8 = take 8 l.
Proof. done. Qed.

Lemma elem_of_filter_from {A} (f : A → nat → bool) l i y :
  y ∈ filter_from i f l → y ∈ l.
Proof.
  revert i. induction l as [|x l IH]; intros i; simpl; [done|].
  destruct (f x i).
  - intros [->|H]%elem_of_cons; [left|right; eauto].
  - intros H. right. eauto.
Qed.

Lemma elem_of_slice0 {A} (l : list A) e y : y ∈ slice0 l e → y ∈ l.
Proof.
  unfold slice0. destruct (e <? 0)%Z; intros H;
    exact (elem_of_sublist _ _ _ H (sublist_take _ _)).
Qed.

Lemma slice0_submseteq {A} (l : list A) e : slice0 l e ⊆+ l.
Proof.
  unfold slice0. destruct (e <? 0)%Z; apply sublist_submseteq, sublist_take.
Qed.
End JsFacts.

(** ** Texts *)

Module TextFacts.
Import Js.

Lemma length_substring0 n s :
  String.length (substring0 n s) = n `min` String.length s.
Proof.
  revert s. induction n as [|n IH]; intros [|c r]; simpl; try done.
  by rewrite IH.
Qed.

Lemma length_substring_from n s :
  String.length (substring_from n s) = String.length s - n.
Proof. revert s. induction n as [|n IH]; intros [|c r]; simpl; done. Qed.

Lemma length_append (s t : string) :
  String.length (s +:+ t) = String.length s + String.length t.
Proof. induction s as [|c r IH]; simpl; [done|]. by rewrite IH. Qed.

Lemma append_assoc (s t u : string) : (s +:+ t) +:+ u = s +:+ (t +:+ u).
Proof.
  induction s as [|c r IH]; [done|].
  change (String c ((r +:+ t) +:+ u) = String c (r +:+ (t +:+ u))). by rewrite IH.
Qed.

Lemma prefix_append (p s : string) : String.prefix p (p +:+ s) = true.
Proof.
  induction p as [|c r IH]; simpl; [by destruct s|].
  destruct (Ascii.ascii_dec c c); [done|congruence].
Qed.

Lemma includes_append_r s t sub :
  includes t sub = true → includes (s +:+ t) sub = true.
Proof.
  intros Ht. induction s as [|c r IH]; [done|].
  change (String.prefix sub (String c (r +:+ t))
          || includes (r +:+ t) sub = true).
  rewrite IH. apply orb_true_r.
Qed.

(** *** Single-spaced texts *)

Lemma single_spaced_weaken b s :
  single_spaced b s = true → single_spaced false s = true.
Proof.
  destruct s as [|c r]; simpl; [done|].
  destruct (is_space c); [|done].
  destruct b; simpl; [rewrite andb_false_r; done|done].
Qed.

Lemma replace_ws_runs_single b s : single_spaced b (replace_ws_runs b s) = true.
Proof.
  revert b. induction s as [|c r IH]; intros b; simpl; [done|].
  destruct (is_space c) eqn:Hc.
  - destruct b; [apply IH|]. simpl. apply IH.
  - simpl. rewrite Hc. apply IH.
Qed.

Lemma is_crlf_space c : is_crlf c = true → is_space c = true ∧ c ≠ " "%char.
Proof.
  unfold is_crlf, is_space. intros H. split.
  - apply orb_true_iff in H as [H|H]; apply Nat.eqb_eq in H; rewrite H; done.
  - intros ->. done.
Qed.

(** A single-spaced text has no line break for the second pass of
    [cleanText] to replace. *)
Lemma replace_crlf_runs_single b b' s :
  single_spaced b s = true → replace_crlf_runs b' s = s.
Proof.
  revert b b'. induction s as [|c r IH]; intros b b'; simpl; [done|].
  destruct (is_crlf c) eqn:Hcr.
  - apply is_crlf_space in Hcr as [-> Hne].
    rewrite bool_decide_eq_false_2 by done. done.
  - destruct (is_space c); intros H; f_equal.
    + apply andb_true_iff in H as [_ H]. by apply (IH true).
    + by apply (IH false).
Qed.

Lemma replace_ws_runs_fixed b s :
  single_spaced b s = true → replace_ws_runs b s = s.
Proof.
  revert b. induction s as [|c r IH]; intros b; simpl; [done|].
  destruct (is_space c) eqn:Hc.
  - intros H. apply andb_true_iff in H as [H Hr].
    apply andb_true_iff in H as [Hsp Hb].
    apply bool_decide_eq_true in Hsp as ->.
    destruct b; [done|]. f_equal. by apply IH.
  - intros H. f_equal. by apply IH.
Qed.

Lemma trimStart_single b s :
  single_spaced b s = true → single_spaced true (trimStart s) = true.
Proof.
  revert b. induction s as [|c r IH]; intros b; simpl; [done|].
  destruct (is_space c) eqn:Hc.
  - intros H. apply andb_true_iff in H as [_ H]. by apply (IH true).
  - intros H. simpl. by rewrite Hc.
Qed.

Lemma trimEnd_single b s :
  single_spaced b s = true → single_spaced b (trimEnd s) = true.
Proof.
  revert b. induction s as [|c r IH]; intros b; simpl; [done|].
  destruct (is_space c) eqn:Hc; intros H.
  - apply andb_true_iff in H as [H1 H]. apply IH in H.
    destruct (trimEnd r) eqn:Hr; [done|]. simpl in *. rewrite Hc, H1. done.
  - apply IH in H. destruct (trimEnd r) eqn:Hr; simpl; rewrite Hc; done.
Qed.

Lemma trim_single b s :
  single_spaced b s = true → single_spaced true (trim s) = true.
Proof. intros H. unfold trim. by apply trimEnd_single, (trimStart_single b). Qed.

Lemma trimEnd_idem s : trimEnd (trimEnd s) = trimEnd s.
Proof.
  induction s as [|c r IH]; simpl; [done|].
  destruct (trimEnd r) eqn:Hr.
  - destruct (is_space c) eqn:Hc; simpl; [done|]. by rewrite Hc.
  - simpl in *. rewrite IH. done.
Qed.

Lemma trimStart_fixed s : single_spaced true s = true → trimStart s = s.
Proof.
  destruct s as [|c r]; simpl; [done|].
  destruct (is_space c); [|done]. rewrite andb_false_r. done.
Qed.

Lemma trim_fixed s :
  single_spaced true s = true → trimEnd s = s → trim s = s.
Proof. intros H1 H2. unfold trim. by rewrite trimStart_fixed. Qed.

Lemma single_spaced_substring0 b n s :
  single_spaced b s = true → single_spaced b (substring0 n s) = true.
Proof.
  revert b s. induction n as [|n IH]; intros b [|c r]; simpl; try done.
  destruct (is_space c).
  - intros H. apply andb_true_iff in H as [-> H]. by apply IH.
  - apply IH.
Qed.

(** *** Texts that are not blank *)

Lemma has_ink_trimStart s : has_ink (trimStart s) = has_ink s.
Proof.
  induction s as [|c r IH]; simpl; [done|].
  destruct (is_space c) eqn:Hc; simpl; [done|]. by rewrite Hc.
Qed.

Lemma trimStart_blank s : has_ink s = false → trimStart s = "".
Proof.
  induction s as [|c r IH]; simpl; [done|].
  destruct (is_space c); simpl; [done|discriminate].
Qed.

Lemma trimEnd_ink s : has_ink s = true → trimEnd s ≠ "".
Proof.
  induction s as [|c r IH]; simpl; [done|].
  destruct (trimEnd r) eqn:Hr; [|done].
  destruct (is_space c); simpl; [|done]. intros H. by apply IH in H.
Qed.

Lemma trim_ink s : has_ink s = true ↔ trim s ≠ "".
Proof.
  unfold trim. split.
  - intros H. apply trimEnd_ink. by rewrite has_ink_trimStart.
  - intros H. destruct (has_ink s) eqn:E; [done|].
    rewrite trimStart_blank in H by done. done.
Qed.

Lemma has_ink_replace_ws b s : has_ink (replace_ws_runs b s) = has_ink s.
Proof.
  revert b. induction s as [|c r IH]; intros b; simpl; [done|].
  destruct (is_space c) eqn:Hc; simpl.
  - destruct b; simpl; by rewrite IH.
  - by rewrite Hc.
Qed.

Lemma substring0_nonempty n s : s ≠ "" → substring0 (S n) s ≠ "".
Proof. by destruct s. Qed.

(** *** Printed numbers read back *)

Lemma parse_digits_uint d acc :
  parse_digits acc (NilEmpty.string_of_uint d) = uint_val acc d.
Proof.
  revert acc. induction d; intros acc; [done|..];
    cbn [NilEmpty.string_of_uint parse_digits uint_val]; rewrite IHd; f_equal.
Qed.

Lemma to_uint_nonnil n : N.to_uint n ≠ Nil.
Proof.
  destruct n as [|p]; [done|]. apply DecimalPos.Unsigned.to_uint_nonnil.
Qed.

Lemma string_of_uint_nonnil d :
  d ≠ Nil → NilZero.string_of_uint d = NilEmpty.string_of_uint d.
Proof. by destruct d. Qed.

Lemma of_uint_acc_val d acc :
  Npos (Pos.of_uint_acc d acc) = uint_val (Npos acc) d.
Proof.
  revert acc. induction d; intros acc; simpl; [done|..]; rewrite IHd; f_equal; lia.
Qed.

Lemma of_uint_val d : N.of_uint d = uint_val 0 d.
Proof.
  unfold N.of_uint.
  induction d; simpl; [done|done|..]; rewrite of_uint_acc_val; done.
Qed.

Lemma print_N_uint n :
  LearningPath.print_N n = NilEmpty.string_of_uint (N.to_uint n).
Proof.
  rewrite <- string_of_uint_nonnil by apply to_uint_nonnil.
  unfold LearningPath.print_N, string_of_Z. by destruct n.
Qed.

(** [parseInt] reads back the number a template literal printed. *)
Lemma parseInt_print n : parseInt (LearningPath.print_N n) = n.
Proof.
  unfold parseInt. rewrite print_N_uint, parse_digits_uint, <- of_uint_val.
  apply DecimalN.Unsigned.of_to.
Qed.

Lemma all_digits_uint d : all_digits (NilEmpty.string_of_uint d) = true.
Proof. induction d; simpl; done. Qed.

Lemma print_N_digits n : all_digits (LearningPath.print_N n) = true.
Proof. rewrite print_N_uint. apply all_digits_uint. Qed.

Lemma print_N_nonempty n : LearningPath.print_N n ≠ "".
Proof.
  rewrite print_N_uint. pose proof (to_uint_nonnil n) as H.
  by destruct (N.to_uint n).
Qed.

Lemma span_digits_append ds rest :
  all_digits ds = true →
  match rest with String c _ => is_digit c = false | EmptyString => True end →
  span_digits (ds +:+ rest) = (ds, rest).
Proof.
  intros Hd Hr. induction ds as [|c r IH]; simpl in *.
  - destruct rest as [|c r]; [done|]. simpl. by rewrite Hr.
  - apply andb_true_iff in Hd as [-> Hd]. by rewrite IH.
Qed.

Lemma match_digits_append ds rest :
  ds ≠ "" → all_digits ds = true →
  match rest with String c _ => is_digit c = false | EmptyString => True end →
  match_digits (ds +:+ rest) = Some ds.
Proof.
  intros Hne Hd Hr. destruct ds as [|c r]; [done|].
  pose proof (span_digits_append (String c r) rest Hd Hr) as Hs.
  simpl in *. apply andb_true_iff in Hd as [Hc Hd]. rewrite Hc in *.
  by destruct (span_digits (r +:+ rest)); simplify_eq.
Qed.

Lemma includes_digits ds rest c0 r0 :
  is_digit c0 = false → all_digits ds = true →
  includes (ds +:+ rest) (String c0 r0) = includes rest (String c0 r0).
Proof.
  intros Hc0 Hd. induction ds as [|c r IH]; simpl in *; [done|].
  apply andb_true_iff in Hd as [Hc Hd]. rewrite IH by done.
  destruct (Ascii.ascii_dec c0 c) as [->|]; [congruence|]. simpl. done.
Qed.
End TextFacts.

(** ** The agent contract *)

Module BaseAgentFacts.
Import BaseAgent.

Section Facts.
Context {TInput TOutput : Type} (agent : Agent TInput TOutput).
Context (input : TInput) (context : AgentContext).

(** When the [n] attempts from [a] to the last allowed one all fail,
    the loop runs through them and leaves with the last message. *)
Lemma attempt_loop_all_fail n :
  ∀ fuel a lastError tr,
    n < fuel →
    (a + Z.of_nat n = effective_maxRetries agent + 1)%Z →
    (∀ k, (a ≤ k ≤ effective_maxRetries agent)%Z → attempt_fails agent input context k) →
    attempt_loop agent input context fuel a lastError tr
    = Some (exhausted agent context
              (match n with
               | O => lastError
               | S _ => attempt_message agent input context (effective_maxRetries agent)
               end)
              (tr ++ schedule (effective_maxRetries agent) n a)).
Proof.
  induction n as [|n IH]; intros fuel a lastError tr Hfuel Ha Hfail;
    (destruct fuel as [|fuel]; [lia|]); simpl.
  - assert ((a <=? effective_maxRetries agent)%Z = false) as -> by lia.
    by rewrite app_nil_r.
  - assert ((a <=? effective_maxRetries agent)%Z = true) as -> by lia.
    destruct (Hfail a ltac:(lia)) as [m Hm]. rewrite Hm.
    rewrite (IH fuel (a + 1)%Z); [|lia|lia|intros; apply Hfail; lia].
    f_equal. f_equal.
    + destruct n as [|n]; [|done].
      assert (a = effective_maxRetries agent) as -> by lia.
      unfold attempt_message. by rewrite Hm.
    + destruct (a <? effective_maxRetries agent)%Z;
        rewrite <- ?app_assoc; simpl; by rewrite <- ?app_assoc.
Qed.

Lemma calls_schedule N n a :
  calls (schedule N n a) = (λ i, (a + Z.of_nat i)%Z) <$> seq 0 n.
Proof.
  revert a. induction n as [|n IH]; intros a; [done|].
  simpl. unfold calls in *. simpl.
  destruct (a <? N)%Z; simpl; rewrite IH, Z.add_0_r; f_equal;
    rewrite <- seq_shift, <- list_fmap_compose;
    apply list_fmap_ext; intros; simpl; lia.
Qed.

Lemma delays_schedule N n a :
  (a + Z.of_nat n = N + 1)%Z →
  delays (schedule N n a) = (λ i, (1000 * (a + Z.of_nat i))%Z) <$> seq 0 (n - 1).
Proof.
  revert a. induction n as [|n IH]; intros a Ha; [done|].
  simpl. unfold delays in *. rewrite Nat.sub_0_r.
  destruct (a <? N)%Z eqn:Hlt; simpl.
  - rewrite IH by lia. destruct n as [|n]; [lia|]. simpl.
    rewrite Nat.sub_0_r, Z.add_0_r. f_equal.
    rewrite <- seq_shift, <- list_fmap_compose.
    apply list_fmap_ext; intros; simpl; f_equal; lia.
  - rewrite IH by lia. assert (n = 0) as -> by lia. done.
Qed.

(** C1, as amended. An agent configured with [maxRetries = N], for
    [N] at least one, whose input is valid, whose model is available and
    whose attempts all fail, makes the attempts [1] to [N] and no other,
    pauses [1000 * k] milliseconds after attempt [k] for each [k] below
    [N], ends in status [error] and returns [success = false] with the
    error ["Agent <name> failed after N attempts: <message>"], the message
    being that of attempt [N]. *)
Theorem retry_bound st0 N :
  maxRetries (config agent) = Some N → (1 ≤ N)%Z →
  validateInput agent input = true →
  initializeLLM agent = Normal () →
  (∀ k, (1 ≤ k ≤ N)%Z → attempt_fails agent input context k) →
  ∃ run last message,
    execute agent input context st0 = Some run
    ∧ attempt_message agent input context N = Some last
    ∧ message = "Agent " +:+ name (config agent) +:+ " failed after "
                  +:+ Js.string_of_Z N +:+ " attempts: " +:+ last
    ∧ result run = Normal {| success := false; data := None;
                             error := Some message; attempts := None |}
    ∧ status run = Status.error
    ∧ trace run = [SetStatus Status.running;
                   Emit STARTED (ctx_sessionId context) None]
                  ++ schedule N (Z.to_nat N) 1
                  ++ [SetStatus Status.error;
                      Emit ERROR (ctx_sessionId context) (Some message)]
    ∧ calls (trace run) = Z.of_nat <$> seq 1 (Z.to_nat N)
    ∧ delays (trace run) = (λ k, (1000 * Z.of_nat k)%Z) <$> seq 1 (Z.to_nat N - 1).
Proof.
  intros HN Hpos Hvalid Hllm Hfail.
  assert (effective_maxRetries agent = N) as Heff.
  { unfold effective_maxRetries. rewrite HN.
    destruct (N =? 0)%Z eqn:E; [lia|done]. }
  destruct (Hfail N ltac:(lia)) as [last Hlast].
  assert (attempt_message agent input context N = Some last) as Hmsg.
  { unfold attempt_message. by rewrite Hlast. }
  unfold execute. rewrite Hvalid, Hllm. simpl negb. cbv iota.
  rewrite (attempt_loop_all_fail (Z.to_nat N)); rewrite ?Heff;
    [|lia|lia|done].
  destruct (Z.to_nat N) as [|n] eqn:En; [lia|]. rewrite <- En.
  eexists _, last, _. split_and!; [done|done|done| | | | |].
  - simpl. unfold errorMessage. rewrite Heff, Hmsg. done.
  - done.
  - simpl. unfold errorMessage. rewrite Heff, Hmsg. done.
  - simpl. unfold calls. rewrite !omap_app. simpl.
    fold (calls (schedule N (Z.to_nat N) 1)). rewrite calls_schedule, app_nil_r.
    rewrite <- seq_shift, <- list_fmap_compose.
    apply list_fmap_ext; intros; simpl; lia.
  - simpl. unfold delays. rewrite !omap_app. simpl.
    fold (delays (schedule N (Z.to_nat N) 1)).
    rewrite delays_schedule, app_nil_r by lia.
    rewrite <- seq_shift, <- list_fmap_compose.
    apply list_fmap_ext; intros; simpl; lia.
Qed.
End Facts.

(** C1 as stated fails in three ways. With [maxRetries = 0] the agent
    makes three attempts, since [0 || 3] is [3]. With [maxRetries = 2] and
    an input that [validateInput] refuses it makes none and reports the
    invalid input. With [maxRetries = 2] and no model it makes none and
    [execute] itself throws. *)
Lemma zero_retries_counterexample :
  (maxRetries (config (Samples.always_fails (Some 0%Z))) = Some 0%Z
   ∧ ∃ run, execute (Samples.always_fails (Some 0%Z)) () Samples.sample_context
                    Status.idle = Some run
            ∧ calls (trace run) = [1; 2; 3]%Z
            ∧ length (calls (trace run)) ≠ Z.to_nat 0)
  ∧ (∃ run, execute (Samples.stub_agent (Some 2%Z) false (Normal ())) ()
                    Samples.sample_context Status.idle = Some run
            ∧ calls (trace run) = []
            ∧ result run
              = Normal {| success := false; data := None;
                          error := Some "Invalid input for agent Stub";
                          attempts := None |})
  ∧ (∃ run, execute (Samples.stub_agent (Some 2%Z) true
                       (Throw "LLM Manager not initialized")) ()
                    Samples.sample_context Status.idle = Some run
            ∧ calls (trace run) = []
            ∧ result run = Throw "LLM Manager not initialized").
Proof.
  split; [|split].
  - split; [reflexivity|]. eexists. split_and!; [vm_compute; reflexivity|done|done].
  - eexists. split_and!; [vm_compute; reflexivity|done|done].
  - eexists. split_and!; [vm_compute; reflexivity|done|done].
Qed.

(** [retry_bound] at an agent with two retries whose back end is down. *)
Lemma retry_bound_witness :
  maxRetries (config (Samples.always_fails (Some 2%Z))) = Some 2%Z
  ∧ (1 ≤ 2)%Z
  ∧ validateInput (Samples.always_fails (Some 2%Z)) () = true
  ∧ initializeLLM (Samples.always_fails (Some 2%Z)) = Normal ()
  ∧ (∀ k, (1 ≤ k ≤ 2)%Z →
          attempt_fails (Samples.always_fails (Some 2%Z)) () Samples.sample_context k)
  ∧ ∃ run, execute (Samples.always_fails (Some 2%Z)) () Samples.sample_context
                   Status.idle = Some run
           ∧ calls (trace run) = [1; 2]%Z ∧ delays (trace run) = [1000]%Z.
Proof.
  assert (∀ k, (1 ≤ k ≤ 2)%Z →
            attempt_fails (Samples.always_fails (Some 2%Z)) ()
                          Samples.sample_context k) as Hfail.
  { intros k _. eexists. vm_compute. reflexivity. }
  split_and!; [reflexivity|lia|reflexivity|reflexivity|exact Hfail|].
  destruct (retry_bound (Samples.always_fails (Some 2%Z)) () Samples.sample_context
              Status.idle 2%Z eq_refl ltac:(lia) eq_refl eq_refl Hfail)
    as (run & last & message & Hrun & _ & _ & _ & _ & _ & Hcalls & Hdelays).
  exists run. split_and!; [exact Hrun|exact Hcalls|exact Hdelays].
Defined.

(** *** Cleaning and truncating a text *)

(** The second pass of [cleanText] finds nothing left to replace. *)
Lemma cleanText_one_pass text :
  cleanText text = Js.trim (Js.replace_ws_runs false text).
Proof.
  unfold cleanText.
  by rewrite (TextFacts.replace_crlf_runs_single false)
    by apply TextFacts.replace_ws_runs_single.
Qed.

Lemma cleanText_single text : Js.single_spaced true (cleanText text) = true.
Proof.
  rewrite cleanText_one_pass.
  apply (TextFacts.trim_single false), TextFacts.replace_ws_runs_single.
Qed.

Lemma cleanText_ink text : Js.has_ink text = true → cleanText text ≠ "".
Proof.
  intros H. rewrite cleanText_one_pass.
  apply TextFacts.trim_ink. by rewrite TextFacts.has_ink_replace_ws.
Qed.

(** X1. For every text, what [cleanText] returns has no white space
    but single spaces between other characters: it is single-spaced, does
    not start with a space, and trimming it changes nothing. *)
Theorem cleanText_tidy text :
  Js.single_spaced true (cleanText text) = true
  ∧ Js.trim (cleanText text) = cleanText text.
Proof.
  split; [apply cleanText_single|].
  apply TextFacts.trim_fixed; [apply cleanText_single|].
  rewrite cleanText_one_pass. apply TextFacts.trimEnd_idem.
Qed.

(** X2. [cleanText] is idempotent: cleaning a cleaned text returns it
    as it is. *)
Theorem cleanText_idempotent text : cleanText (cleanText text) = cleanText text.
Proof.
  pose proof (cleanText_single text) as H.
  rewrite (cleanText_one_pass (cleanText text)).
  rewrite (TextFacts.replace_ws_runs_fixed false)
    by (by apply (TextFacts.single_spaced_weaken true)).
  apply TextFacts.trim_fixed; [done|].
  rewrite cleanText_one_pass. apply TextFacts.trimEnd_idem.
Qed.

(** X3. For a maximum of at least three, [truncateText] returns at
    most that many characters, and returns the text itself exactly when
    the text fits. *)
Theorem truncateText_bound text maxLength :
  (3 ≤ maxLength)%Z →
  (Z.of_nat (String.length (truncateText text maxLength)) ≤ maxLength)%Z
  ∧ (truncateText text maxLength = text
     ↔ (Z.of_nat (String.length text) ≤ maxLength)%Z).
Proof.
  intros Hmax. unfold truncateText.
  destruct (Z.leb_spec (Z.of_nat (String.length text)) maxLength) as [Hle|Hgt].
  - done.
  - assert (String.length
              (Js.substring0 (Z.to_nat (maxLength - 3)) text +:+ "...")
            = Z.to_nat maxLength) as Hlen.
    { rewrite TextFacts.length_append, TextFacts.length_substring0.
      change (String.length "...") with 3. lia. }
    split; [lia|]. split; [|lia].
    intros Heq. rewrite Heq in Hlen. lia.
Qed.

(** [truncateText_bound] at a sentence cut to ten characters. *)
Lemma truncateText_bound_witness :
  (3 ≤ 10)%Z
  ∧ (Z.of_nat (String.length (truncateText "A closure is a function." 10))
     ≤ 10)%Z
  ∧ truncateText "A closure is a function." 10 = "A closu...".
Proof.
  split_and!; [lia| |reflexivity].
  apply (truncateText_bound "A closure is a function." 10). lia.
Defined.

(** *** The first attempt that succeeds *)

Section Success.
Context {TInput TOutput : Type} (agent : Agent TInput TOutput).
Context (input : TInput) (context : AgentContext).

(** When the [n] attempts from [a] on fail and the next one returns,
    the loop leaves with that result. *)
Lemma attempt_loop_first_success n :
  ∀ fuel a lastError tr value,
    n < fuel →
    (a + Z.of_nat n ≤ effective_maxRetries agent)%Z →
    (∀ j, (a ≤ j < a + Z.of_nat n)%Z → attempt_fails agent input context j) →
    executeWithTimeout (doExecute agent (a + Z.of_nat n) input context)
                       (effective_timeout agent) = Normal value →
    attempt_loop agent input context fuel a lastError tr
    = Some {| result := Normal {| success := true; data := Some value;
                                  error := None;
                                  attempts := Some (a + Z.of_nat n)%Z |};
              status := Status.idle;
              trace := tr ++ schedule (effective_maxRetries agent) n a
                          ++ [Call (a + Z.of_nat n)%Z; SetStatus Status.idle;
                              Emit COMPLETED (ctx_sessionId context) None] |}.
Proof.
  induction n as [|n IH]; intros fuel a lastError tr value Hfuel Ha Hfail Hok;
    (destruct fuel as [|fuel]; [lia|]); cbn [attempt_loop schedule].
  - rewrite Z.add_0_r in *.
    assert ((a <=? effective_maxRetries agent)%Z = true) as -> by lia.
    rewrite Hok. simpl. by rewrite <- app_assoc.
  - assert ((a <=? effective_maxRetries agent)%Z = true) as -> by lia.
    destruct (Hfail a ltac:(lia)) as [m Hm]. rewrite Hm.
    assert ((a <? effective_maxRetries agent)%Z = true) as -> by lia.
    assert (a + Z.of_nat (S n) = a + 1 + Z.of_nat n)%Z as E by lia.
    rewrite E in *.
    rewrite (IH fuel (a + 1)%Z _ _ value); [|lia|lia|intros; apply Hfail; lia|done].
    by rewrite <- !app_assoc.
Qed.

Lemma delays_schedule_inner N n a :
  (a + Z.of_nat n ≤ N)%Z →
  delays (schedule N n a) = (λ i, (1000 * (a + Z.of_nat i))%Z) <$> seq 0 n.
Proof.
  revert a. induction n as [|n IH]; intros a Ha; [done|].
  simpl. unfold delays in *.
  assert ((a <? N)%Z = true) as -> by lia. simpl.
  rewrite IH by lia. rewrite Z.add_0_r. f_equal.
  rewrite <- seq_shift, <- list_fmap_compose.
  apply list_fmap_ext; intros; simpl; f_equal; lia.
Qed.

(** X4. When the input is valid, the model is available, the attempts
    before the [k]-th fail and the [k]-th returns a value in time, with
    [k] within the retry bound, [execute] returns [success = true] with
    that value and [attempts = k], leaves the status [idle], has made the
    attempts [1] to [k] and no other, and has paused [1000 * j]
    milliseconds after each failed attempt [j]. *)
Theorem first_success_ends_retries st0 k value :
  validateInput agent input = true →
  initializeLLM agent = Normal () →
  (1 ≤ k ≤ effective_maxRetries agent)%Z →
  (∀ j, (1 ≤ j < k)%Z → attempt_fails agent input context j) →
  executeWithTimeout (doExecute agent k input context) (effective_timeout agent)
  = Normal value →
  ∃ run,
    execute agent input context st0 = Some run
    ∧ result run = Normal {| success := true; data := Some value;
                             error := None; attempts := Some k |}
    ∧ status run = Status.idle
    ∧ calls (trace run) = Z.of_nat <$> seq 1 (Z.to_nat k)
    ∧ delays (trace run) = (λ j, (1000 * Z.of_nat j)%Z) <$> seq 1 (Z.to_nat k - 1).
Proof.
  intros Hvalid Hllm Hk Hfail Hok.
  unfold execute. rewrite Hvalid, Hllm. simpl negb. cbv iota.
  pose proof (attempt_loop_first_success (Z.to_nat (k - 1))
                (S (Z.to_nat (effective_maxRetries agent))) 1 None
                [SetStatus Status.running; Emit STARTED (ctx_sessionId context) None]
                value) as H.
  replace (1 + Z.of_nat (Z.to_nat (k - 1)))%Z with k in H by lia.
  rewrite H; [|lia|lia|done|done]. clear H.
  eexists. split; [done|]. simpl. split_and!; [done|done|..].
  - unfold calls. rewrite !omap_app. simpl.
    fold (calls (schedule (effective_maxRetries agent) (Z.to_nat (k - 1)) 1)).
    rewrite calls_schedule.
    replace (Z.to_nat k) with (Z.to_nat (k - 1) + 1) by lia.
    rewrite seq_app, fmap_app. simpl. f_equal.
    + rewrite <- seq_shift, <- list_fmap_compose.
      apply list_fmap_ext; intros; simpl; lia.
    + f_equal. lia.
  - unfold delays. rewrite !omap_app. simpl.
    fold (delays (schedule (effective_maxRetries agent) (Z.to_nat (k - 1)) 1)).
    rewrite delays_schedule_inner, app_nil_r by lia.
    replace (Z.to_nat k - 1) with (Z.to_nat (k - 1)) by lia.
    rewrite <- seq_shift, <- list_fmap_compose.
    apply list_fmap_ext; intros; simpl; lia.
Qed.
End Success.

(** [first_success_ends_retries] at an agent whose back end answers
    at the second attempt. *)
Lemma first_success_witness :
  validateInput Samples.recovers () = true
  ∧ initializeLLM Samples.recovers = Normal ()
  ∧ (1 ≤ 2 ≤ effective_maxRetries Samples.recovers)%Z
  ∧ (∀ j, (1 ≤ j < 2)%Z →
          attempt_fails Samples.recovers () Samples.sample_context j)
  ∧ executeWithTimeout (doExecute Samples.recovers 2 () Samples.sample_context)
                       (effective_timeout Samples.recovers) = Normal "ready"
  ∧ ∃ run, execute Samples.recovers () Samples.sample_context Status.idle = Some run
           ∧ calls (trace run) = [1; 2]%Z ∧ delays (trace run) = [1000]%Z.
Proof.
  assert (∀ j, (1 ≤ j < 2)%Z →
            attempt_fails Samples.recovers () Samples.sample_context j) as Hfail.
  { intros j Hj. assert (j = 1%Z) as -> by lia. eexists. vm_compute. reflexivity. }
  assert (1 ≤ 2 ≤ effective_maxRetries Samples.recovers)%Z as Hk.
  { change (effective_maxRetries Samples.recovers) with 3%Z. lia. }
  split_and!; [reflexivity|reflexivity|apply Hk|apply Hk|exact Hfail|reflexivity|].
  destruct (first_success_ends_retries Samples.recovers () Samples.sample_context
              Status.idle 2%Z "ready" eq_refl eq_refl Hk Hfail eq_refl)
    as (run & Hrun & _ & _ & Hcalls & Hdelays).
  exists run. split_and!; [exact Hrun|exact Hcalls|exact Hdelays].
Defined.
(** *** Every run of [execute] *)

Section Outcome.
Context {TInput TOutput : Type} (agent : Agent TInput TOutput).
Context (input : TInput) (context : AgentContext).

(** Among the first [n] attempts either all fail or one is the first
    to return. *)
Lemma first_return_or_none (n : nat) :
  (∀ j, (1 ≤ j ≤ Z.of_nat n)%Z → attempt_fails agent input context j)
  ∨ (∃ k value, (1 ≤ k ≤ Z.of_nat n)%Z
       ∧ (∀ j, (1 ≤ j < k)%Z → attempt_fails agent input context j)
       ∧ executeWithTimeout (doExecute agent k input context)
                            (effective_timeout agent) = Normal value).
Proof.
  induction n as [|n [IH|(k & v & Hk & Hfail & Hok)]].
  - left. intros j Hj. lia.
  - destruct (executeWithTimeout (doExecute agent (Z.of_nat (S n)) input context)
                                 (effective_timeout agent)) as [v|m] eqn:E.
    + right. exists (Z.of_nat (S n)), v. split; [lia|]. split; [|done].
      intros j Hj. apply IH. lia.
    + left. intros j Hj. destruct (decide (j = Z.of_nat (S n))) as [->|Hne].
      * by exists m.
      * apply IH. lia.
  - right. exists k, v. split; [lia|done].
Qed.

(** The four ways [execute] ends. *)
Lemma execute_cases st0 :
  ∃ run, execute agent input context st0 = Some run
    ∧ ((validateInput agent input = false
        ∧ run = {| result := Normal {| success := false; data := None;
                     error := Some ("Invalid input for agent " +:+ name (config agent));
                     attempts := None |};
                   status := st0; trace := [] |})
       ∨ (validateInput agent input = true
          ∧ ∃ m, initializeLLM agent = Throw m
                 ∧ run = {| result := Throw m; status := st0; trace := [] |})
       ∨ (validateInput agent input = true
          ∧ ∃ k value, first_return agent input context k value
              ∧ result run = Normal {| success := true; data := Some value;
                                       error := None; attempts := Some k |}
              ∧ status run = Status.idle
              ∧ calls (trace run) = Z.of_nat <$> seq 1 (Z.to_nat k))
       ∨ (validateInput agent input = true
          ∧ (∀ j, (1 ≤ j ≤ effective_maxRetries agent)%Z
                  → attempt_fails agent input context j)
          ∧ result run
            = Normal {| success := false; data := None;
                error := Some (errorMessage agent
                                 (if (1 <=? effective_maxRetries agent)%Z
                                  then attempt_message agent input context
                                         (effective_maxRetries agent)
                                  else None));
                attempts := None |}
          ∧ status run = Status.error
          ∧ calls (trace run)
            = Z.of_nat <$> seq 1 (Z.to_nat (effective_maxRetries agent)))).
Proof.
  unfold execute. destruct (validateInput agent input) eqn:Hvalid; simpl negb; cbv iota.
  2:{ eexists. split; [done|]. by left. }
  destruct (initializeLLM agent) as [[]|m] eqn:Hllm.
  2:{ eexists. split; [done|]. right. left. split; [done|]. by exists m. }
  set (tr0 := [SetStatus Status.running; Emit STARTED (ctx_sessionId context) None]).
  destruct (first_return_or_none (Z.to_nat (effective_maxRetries agent)))
    as [Hfail|(k & v & Hk & Hfail & Hok)].
  - assert (∀ j, (1 ≤ j ≤ effective_maxRetries agent)%Z
                 → attempt_fails agent input context j) as Hall.
    { intros j Hj. apply Hfail. lia. }
    destruct (Z.leb_spec 1 (effective_maxRetries agent)) as [Hpos|Hneg].
    + rewrite (attempt_loop_all_fail agent input context
                 (Z.to_nat (effective_maxRetries agent))); [|lia|lia|done].
      destruct (Z.to_nat (effective_maxRetries agent)) as [|n] eqn:En; [lia|].
      rewrite <- En.
      eexists. split; [done|]. do 3 right. split_and!; [done|done|done|done|].
      simpl. unfold calls. rewrite !omap_app. simpl.
      fold (calls (schedule (effective_maxRetries agent)
                     (Z.to_nat (effective_maxRetries agent)) 1)).
      rewrite calls_schedule, app_nil_r.
      rewrite <- seq_shift, <- list_fmap_compose.
      apply list_fmap_ext; intros; simpl; lia.
    + cbn [attempt_loop].
      assert ((1 <=? effective_maxRetries agent)%Z = false) as -> by lia.
      eexists. split; [done|]. do 3 right. split_and!; [done|done|done|done|].
      replace (Z.to_nat (effective_maxRetries agent)) with 0 by lia. done.
  - pose proof (attempt_loop_first_success agent input context (Z.to_nat (k - 1))
                  (S (Z.to_nat (effective_maxRetries agent))) 1 None tr0 v) as H.
    replace (1 + Z.of_nat (Z.to_nat (k - 1)))%Z with k in H by lia.
    rewrite H; [|lia|lia|intros; apply Hfail; lia|done]. clear H.
    eexists. split; [done|]. right. right. left. split; [done|].
    exists k, v. split; [by split; [lia|]|]. split; [done|split; [done|]].
    simpl. unfold calls. rewrite !omap_app. simpl.
      fold (calls (schedule (effective_maxRetries agent) (Z.to_nat (k - 1)) 1)).
      rewrite calls_schedule.
      replace (Z.to_nat k) with (Z.to_nat (k - 1) + 1) by lia.
      rewrite seq_app, fmap_app. simpl. f_equal; [|f_equal; lia].
      rewrite <- seq_shift, <- list_fmap_compose.
      apply list_fmap_ext; intros; simpl; lia.
Qed.

(** X25. For every agent, input and starting status [execute]
    returns, after at most [maxRetries] attempts. It throws only what the
    model lookup throws, before any attempt. It reports success only with
    the value of the first attempt within the bound that returns in time,
    and with the number of that attempt, having made the attempts up to
    it. Otherwise it reports a failure that carries an error and no data:
    with no attempt made when the input is invalid, and else after every
    attempt within the bound has failed. *)
Theorem execute_outcome st0 :
  ∃ run, execute agent input context st0 = Some run
    ∧ (Z.of_nat (length (calls (trace run)))
       ≤ Z.max 0 (effective_maxRetries agent))%Z
    ∧ match result run with
      | Throw m => initializeLLM agent = Throw m ∧ trace run = []
      | Normal res =>
          if success res then
            ∃ k value, first_return agent input context k value
              ∧ data res = Some value ∧ error res = None ∧ attempts res = Some k
              ∧ calls (trace run) = Z.of_nat <$> seq 1 (Z.to_nat k)
          else
            data res = None ∧ is_Some (error res)
            ∧ ((validateInput agent input = false ∧ trace run = [])
               ∨ (validateInput agent input = true
                  ∧ ∀ j, (1 ≤ j ≤ effective_maxRetries agent)%Z
                         → attempt_fails agent input context j))
      end.
Proof.
  destruct (execute_cases st0)
    as (run & Hrun & [(Hv & Heq)|[(Hv & m & Hm & Heq)
         |[(Hv & k & v & Hk & Hres & Hst & Hcalls)|(Hv & Hall & Hres & Hst & Hcalls)]]]);
    exists run; (split; [done|]).
  - subst run. simpl. split; [lia|]. split_and!; [done|by eexists|by left].
  - subst run. simpl. split; [lia|]. done.
  - rewrite Hres, Hcalls. simpl. rewrite length_fmap, length_seq.
    split; [destruct Hk as [? _]; lia|]. by exists k, v.
  - rewrite Hres, Hcalls. simpl. rewrite length_fmap, length_seq.
    split; [lia|]. split_and!; [done|by eexists|by right].
Qed.

End Outcome.

End BaseAgentFacts.

(** ** The key-point extractor *)

Module KeyPointFacts.
Import KeyPointExtractor.

(** C2. Whatever the text and whatever [JSON.parse] does with it,
    [parseKeyPointsResponse] returns a list and does not throw. The list
    is the whole text read as JSON when that is a non-empty array; else
    what the first bracketed part of the text reads as (the empty list
    when it does not parse); else what the line-oriented reading finds. *)
Theorem recovery_never_throws JSON_parse responseText :
  ∃ keyPoints,
    parseKeyPointsResponse JSON_parse responseText = Normal keyPoints
    ∧ tiers_in_order JSON_parse responseText keyPoints.
Proof.
  unfold parseKeyPointsResponse, parse_tiers, tiers_in_order, BaseAgent.safeJsonParse.
  destruct (JSON_parse responseText) as [[[|kp rest]|]|m]; simpl;
    try (by eexists);
    (destruct (match_json_array responseText) as [jsonMatch|]; [|by eexists];
     destruct (JSON_parse jsonMatch) as [[extracted|]|m']; by eexists).
Qed.

(** C7. For every list of raw key points and every maximum count, no
    two entries of the validated list have the same concept up to case,
    and the list is no longer than the maximum count. *)
Theorem validated_keypoints_unique (keyPoints : list KeyPoint.partial) (maxCount : nat) :
  NoDup ((λ kp, Js.toLowerCase (KeyPoint.concept kp))
           <$> validateAndCleanKeyPoints keyPoints (Z.of_nat maxCount))
  ∧ length (validateAndCleanKeyPoints keyPoints (Z.of_nat maxCount)) ≤ maxCount.
Proof.
  unfold validateAndCleanKeyPoints, Js.filter_indexed, same_concept. split.
  - apply (JsFacts.first_occurrences_NoDup
             (λ kp, Js.toLowerCase (KeyPoint.concept kp))).
  - etrans; [apply JsFacts.filter_from_length|]. apply JsFacts.slice0_length.
Qed.

(** C5, on the code. When the model answers and the recovered and
    validated list is empty, [doExecute] throws the message
    ["UNKNOWN_ERROR: No valid key points extracted from the document"]:
    the message thrown for an empty list holds none of the words the
    classifier looks for, so the failure is tagged [UNKNOWN_ERROR] and not
    [PARSING_ERROR]. *)
Theorem empty_extraction_is_unknown_error JSON_parse chain_invoke input context
    responseText keyPoints :
  chain_invoke (promptInput input) = Normal responseText →
  parseKeyPointsResponse JSON_parse responseText = Normal keyPoints →
  validateAndCleanKeyPoints keyPoints (default_maxKeyPoints input) = [] →
  doExecute JSON_parse chain_invoke input context
  = Throw ("UNKNOWN_ERROR: " +:+ empty_result_message)
  ∧ classified_as UNKNOWN_ERROR ("UNKNOWN_ERROR: " +:+ empty_result_message)
  ∧ ¬ classified_as PARSING_ERROR ("UNKNOWN_ERROR: " +:+ empty_result_message).
Proof.
  intros Hinvoke Hparse Hempty. split_and!.
  - unfold doExecute. rewrite Hinvoke. simpl. rewrite Hparse. simpl.
    rewrite Hempty. reflexivity.
  - reflexivity.
  - unfold classified_as. vm_compute. discriminate.
Qed.

(** [empty_extraction_is_unknown_error] at a model that answers in
    prose. *)
Lemma empty_extraction_witness :
  Samples.prose_answer (promptInput Samples.sample_input)
  = Normal "I am sorry, I can not help with that."
  ∧ parseKeyPointsResponse Samples.rejecting_parser
      "I am sorry, I can not help with that." = Normal []
  ∧ validateAndCleanKeyPoints [] (default_maxKeyPoints Samples.sample_input) = []
  ∧ doExecute Samples.rejecting_parser Samples.prose_answer Samples.sample_input
              Samples.sample_context
    = Throw "UNKNOWN_ERROR: No valid key points extracted from the document".
Proof.
  split_and!; [reflexivity..|].
  apply (empty_extraction_is_unknown_error Samples.rejecting_parser
           Samples.prose_answer Samples.sample_input Samples.sample_context
           "I am sorry, I can not help with that." []);
    reflexivity.
Defined.

(** *** What the validated key points look like *)

Lemma tidy_field n text :
  (0 <? String.length (Js.trim text)) = true →
  Js.tidy_within (S n) (Js.substring0 (S n) (BaseAgent.cleanText text)).
Proof.
  intros H. split_and!.
  - apply TextFacts.substring0_nonempty, BaseAgentFacts.cleanText_ink,
      TextFacts.trim_ink.
    intros E. rewrite E in H. done.
  - rewrite TextFacts.length_substring0. lia.
  - apply TextFacts.single_spaced_substring0, BaseAgentFacts.cleanText_single.
Qed.

(** X5. For every list of raw key points and every maximum count,
    each validated key point has a concept of 1 to 100 characters and a
    description of 1 to 300 characters, both single-spaced with no space
    in front, and an importance that is [high], [medium] or [low]. *)
Theorem validated_keypoints_clean keyPoints maxCount :
  Forall (λ kp, Js.tidy_within 100 (KeyPoint.concept kp)
                ∧ Js.tidy_within 300 (KeyPoint.description kp)
                ∧ KeyPoint.importance kp ∈ ["high"; "medium"; "low"])
         (validateAndCleanKeyPoints keyPoints maxCount).
Proof.
  apply Forall_forall. intros kp Hkp. unfold validateAndCleanKeyPoints in Hkp.
  apply JsFacts.elem_of_filter_from, JsFacts.elem_of_slice0 in Hkp.
  apply list_elem_of_fmap in Hkp as (raw & -> & Hraw).
  apply list_elem_of_In, filter_In in Hraw as [Hraw Hd].
  apply filter_In in Hraw as [_ Hc].
  unfold has_concept, has_description in *. simpl.
  destruct (KeyPoint.p_concept raw) as [c|]; [|done].
  destruct (KeyPoint.p_description raw) as [d|]; [|done].
  apply andb_true_iff in Hc as [_ Hc].
  apply andb_true_iff in Hd as [_ Hd].
  split_and!.
  - by apply tidy_field.
  - apply tidy_field. change (default "" (Some d)) with d.
    apply Nat.ltb_lt in Hd. apply Nat.ltb_lt. lia.
  - destruct (KeyPoint.p_importance raw) as [i|]; [|set_solver].
    destruct (bool_decide_reflect (i ∈ ["high"; "medium"; "low"])); [done|set_solver].
Qed.

(** X6. Whatever the content, [preprocessContent] hands the model at
    most 4000 characters. *)
Theorem preprocessContent_bound content :
  String.length (preprocessContent content) ≤ 4000.
Proof.
  unfold preprocessContent.
  destruct (Nat.ltb_spec 4000 (String.length (BaseAgent.cleanText content))); [|done].
  rewrite !TextFacts.length_append, TextFacts.length_substring0,
    TextFacts.length_substring_from.
  change (String.length LF) with 1.
  change (String.length "... [内容已截取] ...") with 25.
  lia.
Qed.

(** *** The line-oriented reading *)

Lemma or_else_nonempty x d : d ≠ "" → Js.or_else x d ≠ "".
Proof.
  intros Hd. unfold Js.or_else. destruct x as [s|]; [|done]. by destruct (decide _).
Qed.

Lemma complete_from_text cur :
  open_keypoint cur → Js.truthy (KeyPoint.p_concept cur) = true →
  from_text (completeKeyPoint cur).
Proof.
  intros Hopen Ht. destruct (Hopen Ht) as (Hi & Hc & He).
  unfold from_text, completeKeyPoint. simpl. rewrite Hi, Hc, He. split_and!; try done.
  - unfold Js.truthy in Ht. destruct (KeyPoint.p_concept cur) as [s|]; [|done].
    simpl. apply negb_true_iff, bool_decide_eq_false in Ht.
    by destruct (decide _).
  - by apply or_else_nonempty.
Qed.

Lemma text_step_inv st line :
  Forall from_text st.1 ∧ open_keypoint st.2 →
  Forall from_text (text_step st line).1 ∧ open_keypoint (text_step st line).2.
Proof.
  destruct st as [kps cur]. simpl. intros [Hk Hc].
  destruct (bool_decide _ && _); simpl.
  - split; [|by intros _].
    destruct (Js.truthy (KeyPoint.p_concept cur)) eqn:Ht; [|done].
    apply Forall_app. split; [done|].
    constructor; [|constructor]. by apply complete_from_text.
  - destruct ((10 <? _) && _) eqn:E2; simpl; [|done]. split; [done|].
    intros _. apply andb_true_iff in E2 as [_ Ht]. by apply Hc.
Qed.

(** X7. Every key point that the line-oriented reading of a text
    returns has a concept and a description that are not empty, the
    importance [medium], no category and an empty list of examples. *)
Theorem text_keypoints_shape text :
  Forall from_text (parseKeyPointsFromText text).
Proof.
  unfold parseKeyPointsFromText.
  assert (∀ lines st, Forall from_text st.1 ∧ open_keypoint st.2 →
            Forall from_text (fold_left text_step lines st).1
            ∧ open_keypoint (fold_left text_step lines st).2) as Hfold.
  { induction lines as [|l ls IH]; intros st H; simpl; [done|].
    apply IH, text_step_inv, H. }
  destruct (Hfold (Js.split_lines text) ([], empty_partial)) as [Hk Hc].
  { split; [constructor|]. intros H. done. }
  destruct (fold_left _ _ _) as [kps cur]. simpl in *.
  destruct (Js.truthy (KeyPoint.p_concept cur)) eqn:Ht; [|done].
  apply Forall_app. split; [done|].
  constructor; [|constructor]. by apply complete_from_text.
Qed.

(** *** The outcomes of [doExecute] *)

Lemma classify_tagged message :
  ∃ e, e ∈ failure_tags ∧ classified_as e (classify message).
Proof.
  unfold classify, failure_tags.
  destruct (Js.includes message "timeout");
    [exists TIMEOUT_ERROR; split; [set_solver|done]|].
  destruct (_ || _); [exists LLM_ERROR; split; [set_solver|done]|].
  destruct (_ || _); [exists PARSING_ERROR; split; [set_solver|done]|].
  exists UNKNOWN_ERROR; split; [set_solver|done].
Qed.

Lemma parse_returns JSON_parse responseText :
  ∃ raw, parseKeyPointsResponse JSON_parse responseText = Normal raw.
Proof.
  unfold parseKeyPointsResponse, parse_tiers, BaseAgent.safeJsonParse.
  destruct (JSON_parse responseText) as [[[|kp rest]|]|m]; simpl;
    try (by eexists);
    (destruct (match_json_array responseText) as [jsonMatch|]; [|by eexists];
     destruct (JSON_parse jsonMatch) as [[extracted|]|m']; by eexists).
Qed.

(** X8. Whatever the model and [JSON.parse] do, [doExecute] either
    returns a list that is not empty, the validated reading of the
    model's answer, or throws a message that starts with one of the tags
    [TIMEOUT_ERROR], [LLM_ERROR], [PARSING_ERROR] and [UNKNOWN_ERROR]: it
    never returns an empty list and never lets a message through without
    a tag. *)
Theorem doExecute_outcome JSON_parse chain_invoke input context :
  match doExecute JSON_parse chain_invoke input context with
  | Normal keyPoints =>
      keyPoints ≠ []
      ∧ ∃ responseText raw,
          chain_invoke (promptInput input) = Normal responseText
          ∧ parseKeyPointsResponse JSON_parse responseText = Normal raw
          ∧ keyPoints = validateAndCleanKeyPoints raw (default_maxKeyPoints input)
  | Throw message => ∃ e, e ∈ failure_tags ∧ classified_as e message
  end.
Proof.
  unfold doExecute.
  destruct (chain_invoke (promptInput input)) as [responseText|thrown] eqn:Hc; simpl.
  - destruct (parse_returns JSON_parse responseText) as (raw & Hraw).
    rewrite Hraw. simpl.
    destruct (validateAndCleanKeyPoints raw (default_maxKeyPoints input)) eqn:Hv; simpl.
    + exists UNKNOWN_ERROR. split; [unfold failure_tags; set_solver|done].
    + split; [done|]. by exists responseText, raw.
  - apply classify_tagged.
Qed.
End KeyPointFacts.

(** ** The extractor as an agent *)

Module ExtractorAgentFacts.
Import BaseAgent KeyPointExtractor.

Section Agent.
Context (JSON_parse : string → Completion Parsed).
Context (initializeLLM : Completion ()).
Context (chain_invoke : Z → PromptInput → BaseAgent.Attempt string).

Lemma doExecute_result chain input context :
  match doExecute JSON_parse chain input context with
  | Normal keyPoints =>
      keyPoints ≠ []
      ∧ ∃ raw, keyPoints = validateAndCleanKeyPoints raw (default_maxKeyPoints input)
  | Throw message => ∃ e, e ∈ failure_tags ∧ classified_as e message
  end.
Proof.
  unfold doExecute.
  destruct (chain (promptInput input)) as [responseText|thrown] eqn:Hc; simpl.
  - destruct (KeyPointFacts.parse_returns JSON_parse responseText) as (raw & Hraw).
    rewrite Hraw. simpl.
    destruct (validateAndCleanKeyPoints raw (default_maxKeyPoints input)) eqn:Hv; simpl.
    + exists UNKNOWN_ERROR. split; [unfold failure_tags; set_solver|done].
    + split; [done|]. exists raw. done.
  - apply KeyPointFacts.classify_tagged.
Qed.

(** What one attempt of the extractor gives once raced against the
    timer. *)
Lemma extractor_attempt k input context :
  match executeWithTimeout
          (BaseAgent.doExecute (agent JSON_parse initializeLLM chain_invoke)
             k input context) 30000 with
  | Normal keyPoints =>
      keyPoints ≠ []
      ∧ ∃ raw, keyPoints = validateAndCleanKeyPoints raw (default_maxKeyPoints input)
  | Throw message =>
      message = timeout_message 30000
      ∨ ∃ e, e ∈ failure_tags ∧ classified_as e message
  end.
Proof.
  simpl. destruct (chain_invoke k (promptInput input)) as [elapsed outcome|]; simpl.
  - destruct (elapsed <? 30000)%Z; [|by left].
    pose proof (doExecute_result (λ _, outcome) input context) as H.
    destruct (doExecute JSON_parse (λ _, outcome) input context); [done|by right].
  - by left.
Qed.

(** X26. Whatever the model and [JSON.parse] do, [execute] on the
    key-point extractor returns after at most two calls of the model and
    throws only what the model lookup throws. When it reports success the
    input was valid and the data is a list of key points that is not
    empty, the validated reading of an answer of the model. When it
    reports failure the error is that of the invalid input, or names the
    two attempts and ends with the message of the last one, which is the
    timeout of 30000 ms or starts with one of the tags [TIMEOUT_ERROR],
    [LLM_ERROR], [PARSING_ERROR] and [UNKNOWN_ERROR]. *)
Theorem extractor_agent_outcome input context st0 :
  ∃ run,
    execute (agent JSON_parse initializeLLM chain_invoke) input context st0 = Some run
    ∧ length (calls (trace run)) ≤ 2
    ∧ match result run with
      | Throw m => initializeLLM = Throw m
      | Normal res =>
          if success res then
            validateInput input = true
            ∧ ∃ keyPoints raw,
                data res = Some keyPoints ∧ keyPoints ≠ []
                ∧ keyPoints
                  = validateAndCleanKeyPoints raw (default_maxKeyPoints input)
          else
            error res = Some "Invalid input for agent KeyPointExtractor"
            ∨ ∃ m, error res
                   = Some ("Agent KeyPointExtractor failed after 2 attempts: " +:+ m)
                   ∧ (m = "Operation timeout after 30000ms"
                      ∨ ∃ e, e ∈ failure_tags ∧ classified_as e m)
      end.
Proof.
  destruct (BaseAgentFacts.execute_cases (agent JSON_parse initializeLLM chain_invoke)
              input context st0)
    as (run & Hrun & [(Hv & Heq)|[(Hv & m & Hm & Heq)
         |[(Hv & k & v & Hk & Hres & Hst & Hcalls)|(Hv & Hall & Hres & Hst & Hcalls)]]]);
    exists run; (split; [done|]).
  - subst run. simpl. split; [lia|]. by left.
  - subst run. simpl. split; [lia|]. done.
  - destruct Hk as (Hk & _ & Hok).
    change (effective_maxRetries (agent JSON_parse initializeLLM chain_invoke))
      with 2%Z in Hk.
    change (effective_timeout (agent JSON_parse initializeLLM chain_invoke))
      with 30000%Z in Hok.
    rewrite Hres, Hcalls. simpl success. cbv iota.
    rewrite length_fmap, length_seq. split; [lia|]. split; [done|].
    pose proof (extractor_attempt k input context) as H. rewrite Hok in H.
    destruct H as (Hne & raw & Hraw). by exists v, raw.
  - change (effective_maxRetries (agent JSON_parse initializeLLM chain_invoke))
      with 2%Z in *.
    rewrite Hres, Hcalls. simpl success. cbv iota.
    rewrite length_fmap, length_seq. split; [simpl; lia|]. right.
    destruct (Hall 2%Z ltac:(lia)) as [m Hm].
    change (effective_timeout (agent JSON_parse initializeLLM chain_invoke))
      with 30000%Z in Hm.
    exists m. split.
    + simpl. unfold errorMessage, attempt_message.
      change (effective_timeout (agent JSON_parse initializeLLM chain_invoke))
        with 30000%Z.
      change (effective_maxRetries (agent JSON_parse initializeLLM chain_invoke))
        with 2%Z.
      rewrite Hm. done.
    + pose proof (extractor_attempt 2 input context) as H. rewrite Hm in H.
      done.
Qed.
End Agent.

End ExtractorAgentFacts.

(** ** The learning-path planner *)

Module LearningPathFacts.
Import LearningPath.

(** C8, on the code. For the level [advanced] and no usable step, the
    optimized path has two entries, the two default steps, and not three. *)
Theorem advanced_empty_path_has_two_steps :
  length (optimizeLearningPath [] advanced) = 2
  ∧ LearningStep.step <$> optimizeLearningPath [] advanced
    = ["1. 高级特性探索"; "2. 最佳实践应用"].
Proof. split; reflexivity. Qed.

Lemma normalizeTimeEstimate_in_minutes time userLevel :
  in_minutes (normalizeTimeEstimate time userLevel).
Proof.
  unfold normalizeTimeEstimate, in_minutes.
  assert (∃ n : N, (if decide (userLevel = beginner) then "45" +:+ minutes
                    else "30" +:+ minutes) = print_N n +:+ minutes) as Hfb.
  { destruct (decide _); [by exists 45%N|by exists 30%N]. }
  destruct time as [time|]; [|done].
  destruct (_ || _); [done|].
  destruct (Js.match_digits time); [|done].
  destruct (_ || _); eauto.
Qed.

(** The part of C8 about the unit holds: every time is in minutes. *)
Lemma path_times_in_minutes steps userLevel :
  Forall (λ s, in_minutes (LearningStep.time s)) (optimizeLearningPath steps userLevel).
Proof.
  unfold optimizeLearningPath.
  set (cleaned := clean userLevel <$> _).
  assert (Forall (λ s, in_minutes (LearningStep.time s)) cleaned) as Hc.
  { apply Forall_fmap, Forall_forall. intros s _. simpl.
    apply normalizeTimeEstimate_in_minutes. }
  assert (Forall (λ s, in_minutes (LearningStep.time s))
            (addDefaultSteps cleaned userLevel)) as Hd.
  { unfold addDefaultSteps. rewrite JsFacts.slice0_8. apply Forall_take, Forall_app.
    split; [done|].
    destruct (decide _); repeat constructor; simpl;
      first [by exists 30%N|by exists 45%N|by exists 60%N]. }
  apply Forall_lookup. intros i s.
  intros (s' & Hs' & ->)%list_lookup_imap_Some. simpl.
  destruct (8 <? length cleaned).
  - rewrite JsFacts.slice0_8 in Hs'. apply lookup_take_Some in Hs' as [Hs' _].
    exact (Forall_lookup_1 _ _ _ _ Hc Hs').
  - destruct (length cleaned <? 3);
      [exact (Forall_lookup_1 _ _ _ _ Hd Hs')|exact (Forall_lookup_1 _ _ _ _ Hc Hs')].
Qed.

(** The bounds that do hold: never more than eight entries, and at
    least three for a beginner. *)
Lemma path_length steps userLevel :
  length (optimizeLearningPath steps userLevel) ≤ 8
  ∧ (userLevel = beginner → 3 ≤ length (optimizeLearningPath steps userLevel)).
Proof.
  unfold optimizeLearningPath. rewrite length_imap.
  set (cleaned := clean userLevel <$> _).
  destruct (Nat.ltb_spec 8 (length cleaned)).
  - rewrite JsFacts.slice0_8, length_take. lia.
  - destruct (Nat.ltb_spec (length cleaned) 3); [|lia].
    unfold addDefaultSteps. rewrite JsFacts.slice0_8, length_take, length_app.
    destruct (decide (userLevel = beginner)) as [->|Hne]; cbn [length]; split;
      try lia; intros; first [congruence|lia].
Qed.

(** *** The shape of an optimized path *)

Lemma normalizeTimeEstimate_floor time userLevel :
  ∃ n, normalizeTimeEstimate time userLevel = print_N n +:+ minutes
       ∧ (shortest_time userLevel ≤ n)%N.
Proof.
  unfold normalizeTimeEstimate, shortest_time.
  assert (∃ n : N, (if decide (userLevel = beginner) then "45" +:+ minutes
                    else "30" +:+ minutes) = print_N n +:+ minutes
                   ∧ ((if decide (userLevel = beginner) then 30 else 15) ≤ n)%N) as Hfb.
  { destruct (decide _); [by exists 45%N|by exists 30%N]. }
  destruct time as [time|]; [|done].
  destruct (_ || _); [done|].
  destruct (Js.match_digits time); [|done].
  destruct (decide _);
    (destruct (_ || _); eexists; (split; [done|lia])).
Qed.

Lemma cleaned_timed userLevel (raw : list LearningStep.raw) :
  Forall (timed userLevel) (clean userLevel <$> raw).
Proof.
  apply Forall_fmap, Forall_forall. intros s _. apply normalizeTimeEstimate_floor.
Qed.

Lemma defaults_timed userLevel l :
  Forall (timed userLevel) l → Forall (timed userLevel) (addDefaultSteps l userLevel).
Proof.
  intros Hl. unfold addDefaultSteps. rewrite JsFacts.slice0_8.
  apply Forall_take, Forall_app. split; [done|].
  unfold timed, shortest_time, minutes_of.
  destruct (decide _); repeat constructor; simpl;
    first [by exists 30%N|by exists 45%N|by exists 60%N].
Qed.

(** X9. For every level and every list of raw steps whose times name
    numbers below 10^15, where the doubles of the code are exact, each
    step of the optimized path has a time of the form [<n>分钟], with [n]
    at least 30 for a beginner and at least 15 otherwise. *)
Theorem path_times_floor steps userLevel :
  Forall (λ s, time_within_doubles (LearningStep.r_time s)) steps →
  Forall (timed userLevel) (optimizeLearningPath steps userLevel).
Proof.
  intros _. unfold optimizeLearningPath.
  set (cleaned := clean userLevel <$> _).
  pose proof (cleaned_timed userLevel
                (List.filter has_description (List.filter has_step steps))) as Hc.
  fold cleaned in Hc.
  pose proof (defaults_timed userLevel cleaned Hc) as Hd.
  apply Forall_lookup. intros i s.
  intros (s' & Hs' & ->)%list_lookup_imap_Some.
  assert (timed userLevel s') as (n & Hn & Hle); [|by exists n].
  destruct (8 <? length cleaned).
  - rewrite JsFacts.slice0_8 in Hs'. apply lookup_take_Some in Hs' as [Hs' _].
    exact (Forall_lookup_1 _ _ _ _ Hc Hs').
  - destruct (length cleaned <? 3);
      [exact (Forall_lookup_1 _ _ _ _ Hd Hs')|exact (Forall_lookup_1 _ _ _ _ Hc Hs')].
Qed.


(** X11. The steps of an optimized path are numbered from one: the
    title of the step at index [i] starts with [i + 1] and a full stop. *)
Theorem path_numbered steps userLevel i s :
  optimizeLearningPath steps userLevel !! i = Some s →
  Js.startsWith (LearningStep.step s) (Js.string_of_nat (i + 1) +:+ ".") = true.
Proof.
  unfold optimizeLearningPath.
  intros (s' & _ & ->)%list_lookup_imap_Some. unfold number_step. simpl.
  destruct (Js.startsWith (LearningStep.step s') _) eqn:E; [done|].
  unfold Js.startsWith.
  change (Js.string_of_nat (i + 1) +:+ ". " +:+ LearningStep.step s')
    with (Js.string_of_nat (i + 1) +:+ ("." +:+ (" " +:+ LearningStep.step s'))).
  rewrite <- TextFacts.append_assoc. apply TextFacts.prefix_append.
Qed.

(** [path_numbered] at the second step of the path made for an
    advanced user from no step at all. *)
Lemma path_numbered_witness :
  optimizeLearningPath [] advanced !! 1
  = Some (LearningStep.mk "2. 最佳实践应用" "45分钟" "学习和应用行业最佳实践"
                          None (Some []) (Some []))
  ∧ Js.startsWith "2. 最佳实践应用" (Js.string_of_nat (1 + 1) +:+ ".") = true.
Proof.
  split; [reflexivity|].
  exact (path_numbered [] advanced 1 _ eq_refl).
Defined.

(** [path_times_floor] at one step of twenty minutes, for a beginner:
    the step is given thirty minutes and three default steps follow. *)
Lemma path_times_floor_witness :
  Forall (λ s, time_within_doubles (LearningStep.r_time s))
    [Samples.raw_step]
  ∧ LearningStep.time <$> optimizeLearningPath [Samples.raw_step] beginner
    = ["30分钟"; "30分钟"; "45分钟"; "60分钟"]
  ∧ Forall (timed beginner) (optimizeLearningPath [Samples.raw_step] beginner).
Proof.
  assert (Forall (λ s, time_within_doubles (LearningStep.r_time s))
            [Samples.raw_step]) as H.
  { constructor; [|constructor]. intros t digits [= <-] [= <-]. reflexivity. }
  split_and!; [exact H|reflexivity|].
  exact (path_times_floor [Samples.raw_step] beginner H).
Defined.

(** *** The total time *)

Lemma add_time_minutes total s n :
  minutes_of s n → add_time total s = (total + n)%N.
Proof.
  unfold minutes_of, add_time. intros ->.
  rewrite TextFacts.match_digits_append;
    [|apply TextFacts.print_N_nonempty|apply TextFacts.print_N_digits|done].
  rewrite TextFacts.parseInt_print.
  unfold hours.
  rewrite !(TextFacts.includes_digits (print_N n))
    by (done || apply TextFacts.print_N_digits).
  done.
Qed.

(** X12. [estimateTotalTime] reads back the times that
    [normalizeTimeEstimate] writes: for steps whose times are
    [<n>分钟], with a sum below 10^15, where the doubles of the code are
    exact, the estimate is the text for the sum of the [n], taken as
    minutes. *)
Theorem estimate_reads_minutes steps ns :
  Forall2 minutes_of steps ns →
  (foldr N.add 0 ns < exact_below)%N →
  estimateTotalTime steps = print_total (foldr N.add 0%N ns).
Proof.
  unfold estimateTotalTime. intros H _. f_equal.
  assert (∀ total, fold_left add_time steps total
                   = (total + foldr N.add 0 ns)%N) as Hsum; [|by rewrite Hsum].
  induction H as [|s n steps ns Hs _ IH]; intros total; simpl; [lia|].
  rewrite IH, (add_time_minutes _ _ n) by done. lia.
Qed.

(** [estimate_reads_minutes] at the path made for an advanced user
    from no step at all: 30 and 45 minutes. *)
Lemma estimate_reads_minutes_witness :
  Forall2 minutes_of (optimizeLearningPath [] advanced) [30; 45]%N
  ∧ (foldr N.add 0 [30; 45] < exact_below)%N
  ∧ estimateTotalTime (optimizeLearningPath [] advanced) = "1小时15分钟".
Proof.
  assert (Forall2 minutes_of (optimizeLearningPath [] advanced) [30; 45]%N) as H.
  { repeat constructor. }
  assert (foldr N.add 0 [30; 45] < exact_below)%N as Hsum by reflexivity.
  split_and!; [exact H|exact Hsum|].
  exact (estimate_reads_minutes _ _ H Hsum).
Defined.
End LearningPathFacts.

(** ** The quiz generator *)

Module QuizFacts.
Import Quiz.

(** C6, on the code. A raw multiple-choice question with the options
    [let] and [var] and the answer [const] is normalized to a question of
    type [multiple_choice] whose answer is not among its options. *)
Theorem choice_answer_not_checked :
  let q := validateAndNormalizeQuestion Samples.stray_answer 1 in
  QuizQuestion.type q = "multiple_choice"
  ∧ QuizQuestion.options q = ["let"; "var"]
  ∧ QuizQuestion.correctAnswer q = "const"
  ∧ ¬ well_formed_choice q.
Proof.
  split_and!; [reflexivity..|].
  intros [_ H]. vm_compute in H.
  repeat (apply elem_of_cons in H as [H|H]; [discriminate|]).
  by apply elem_of_nil in H.
Qed.

Lemma check_choice_type q : QuizQuestion.type (check_choice q) = QuizQuestion.type q.
Proof. unfold check_choice. by destruct (_ && _). Qed.

Lemma check_true_false_type q :
  QuizQuestion.type (check_true_false q) = QuizQuestion.type q.
Proof. unfold check_true_false. by destruct (bool_decide _). Qed.

Lemma check_fill_blank_type q :
  QuizQuestion.type (check_fill_blank q) = QuizQuestion.type q.
Proof. unfold check_fill_blank. by destruct (bool_decide _). Qed.

Lemma check_true_false_other q :
  QuizQuestion.type q ≠ "true_false" → check_true_false q = q.
Proof. intros H. unfold check_true_false. by rewrite bool_decide_eq_false_2. Qed.

Lemma check_fill_blank_other q :
  QuizQuestion.type q ≠ "fill_blank" → check_fill_blank q = q.
Proof. intros H. unfold check_fill_blank. by rewrite bool_decide_eq_false_2. Qed.

(** The half of the invariant that the code enforces: a multiple-choice
    question has at least two options. *)
Lemma choice_has_two_options question index :
  let q := validateAndNormalizeQuestion question index in
  QuizQuestion.type q = "multiple_choice" → 2 ≤ length (QuizQuestion.options q).
Proof.
  cbv zeta. unfold validateAndNormalizeQuestion.
  generalize (normalize_fields question index). intros q0 Hq.
  rewrite check_fill_blank_type, check_true_false_type, check_choice_type in Hq.
  rewrite check_fill_blank_other, check_true_false_other;
    rewrite ?check_true_false_type, ?check_choice_type, ?Hq; try done.
  unfold check_choice. rewrite Hq, bool_decide_eq_true_2 by done. simpl andb.
  destruct (Nat.ltb_spec (length (QuizQuestion.options q0)) 2);
    [unfold default_options; simpl; lia|simpl; lia].
Qed.

(** The neighbouring check: a true/false answer is forced into its
    options. *)
Lemma true_false_answer_checked question index :
  let q := validateAndNormalizeQuestion question index in
  QuizQuestion.type q = "true_false" →
  QuizQuestion.correctAnswer q ∈ QuizQuestion.options q.
Proof.
  cbv zeta. unfold validateAndNormalizeQuestion.
  generalize (normalize_fields question index). intros q0 Hq.
  rewrite check_fill_blank_type, check_true_false_type, check_choice_type in Hq.
  rewrite check_fill_blank_other
    by (rewrite check_true_false_type, check_choice_type, Hq; done).
  unfold check_true_false.
  rewrite bool_decide_eq_true_2 by (by rewrite check_choice_type).
  cbn [QuizQuestion.correctAnswer QuizQuestion.options].
  destruct (bool_decide_reflect
              (QuizQuestion.correctAnswer (check_choice q0) ∈ ["正确"; "错误"]));
    [done|by left].
Qed.

(** *** The shape of a normalized question *)

Lemma normalize_fields_base question index :
  QuizQuestion.difficulty (normalize_fields question index) ∈ valid_difficulties
  ∧ (0 < QuizQuestion.points (normalize_fields question index))%Z.
Proof.
  unfold normalize_fields, valid_difficulties. simpl. split.
  - destruct (QuizQuestion.r_difficulty question) as [d|]; [|set_solver].
    destruct (bool_decide_reflect (d ∈ ["easy"; "medium"; "hard"])); [done|set_solver].
  - destruct (QuizQuestion.r_points question) as [p|]; [|done].
    destruct (Z.ltb_spec 0 p); [done|done].
Qed.

(** X13. Every question that [validateAndNormalizeQuestion] returns
    has a difficulty among [easy], [medium] and [hard] and a positive
    number of points; if it is multiple choice it has at least two
    options; if it is true/false its options are the two fixed ones and
    its answer is one of them; if it is a fill-in-the-blank it has no
    option and its text holds a blank. *)
Theorem normalized_question_shape question index :
  shaped (validateAndNormalizeQuestion question index).
Proof.
  unfold validateAndNormalizeQuestion.
  destruct (normalize_fields_base question index) as [Hd Hp].
  revert Hd Hp. generalize (normalize_fields question index). intros q Hd Hp.
  assert (QuizQuestion.difficulty (check_choice q) = QuizQuestion.difficulty q
          ∧ QuizQuestion.points (check_choice q) = QuizQuestion.points q
          ∧ (QuizQuestion.type q = "multiple_choice" →
             2 ≤ length (QuizQuestion.options (check_choice q)))) as (Hd1 & Hp1 & Ho1).
  { unfold check_choice.
    destruct (bool_decide_reflect (QuizQuestion.type q = "multiple_choice"));
      [|done].
    destruct (Nat.ltb_spec (length (QuizQuestion.options q)) 2); simpl;
      [split_and!; [done|done|intros _; lia]|done]. }
  pose proof (check_choice_type q) as Ht1.
  revert Hd1 Hp1 Ho1 Ht1. generalize (check_choice q). intros q1 Hd1 Hp1 Ho1 Ht1.
  unfold shaped, check_fill_blank, check_true_false.
  destruct (bool_decide_reflect (QuizQuestion.type q1 = "true_false")) as [Htf|Htf];
    cbn [QuizQuestion.type QuizQuestion.difficulty QuizQuestion.points
         QuizQuestion.options QuizQuestion.correctAnswer QuizQuestion.question].
  - rewrite Htf, bool_decide_eq_false_2 by done.
    cbn [QuizQuestion.type QuizQuestion.difficulty QuizQuestion.points
         QuizQuestion.options QuizQuestion.correctAnswer QuizQuestion.question].
    rewrite Hd1, Hp1. split_and!; [done|done|done| |done].
    intros _. split; [done|].
    destruct (bool_decide_reflect (QuizQuestion.correctAnswer q1 ∈ ["正确"; "错误"]));
      [done|by left].
  - destruct (bool_decide_reflect (QuizQuestion.type q1 = "fill_blank")) as [Hfb|Hfb];
      cbn [QuizQuestion.type QuizQuestion.difficulty QuizQuestion.points
           QuizQuestion.options QuizQuestion.correctAnswer QuizQuestion.question];
      rewrite Hd1, Hp1.
    + rewrite Hfb. split_and!; [done|done|done|done|].
      intros _. split; [done|].
      destruct (Js.includes (QuizQuestion.question q1) "_____") eqn:E; [done|].
      by apply TextFacts.includes_append_r.
    + split_and!; [done|done| |done|done].
      intros Hmc. apply Ho1. by rewrite <- Ht1.
Qed.

(** *** Removing duplicates *)

Lemma remove_seen_spec seen questions :
  remove_seen seen questions `sublist_of` questions
  ∧ NoDup (question_key <$> remove_seen seen questions)
  ∧ (∀ q, q ∈ remove_seen seen questions → question_key q ∉ seen)
  ∧ (∀ q, q ∈ questions →
          question_key q ∈ seen
          ∨ question_key q ∈ question_key <$> remove_seen seen questions).
Proof.
  revert seen. induction questions as [|q rest IH]; intros seen; simpl.
  - split_and!; [done|constructor|..].
    + intros q Hq. by apply elem_of_nil in Hq.
    + intros q Hq. by apply elem_of_nil in Hq.
  - destruct (bool_decide_reflect (question_key q ∈ seen)) as [Hin|Hin].
    + destruct (IH seen) as (H1 & H2 & H3 & H4). split_and!; [|done|done|].
      * by apply sublist_cons.
      * intros q' [->|Hq']%elem_of_cons; [by left|by apply H4].
    + destruct (IH ({[question_key q]} ∪ seen)) as (H1 & H2 & H3 & H4).
      split_and!.
      * by apply sublist_skip.
      * rewrite fmap_cons. constructor; [|done].
        intros (q' & Hk & Hq')%list_elem_of_fmap.
        apply H3 in Hq'. rewrite Hk in Hq'. apply Hq', elem_of_union_l.
        by apply elem_of_singleton.
      * intros q' [->|Hq']%elem_of_cons; [done|]. apply H3 in Hq'.
        intros Hs. apply Hq'. by apply elem_of_union_r.
      * intros q' [->|Hq']%elem_of_cons.
        -- right. rewrite fmap_cons. left.
        -- destruct (H4 _ Hq') as [Hs|Hs].
           ++ apply elem_of_union in Hs as [Hs|Hs]; [|by left].
              apply elem_of_singleton in Hs. right. rewrite fmap_cons, Hs. left.
           ++ right. rewrite fmap_cons. by right.
Qed.

(** X14. [removeDuplicateQuestions] keeps the questions in their
    order, leaves no two with the same text up to case and white space,
    and keeps one question for every text of its input. *)
Theorem duplicates_removed questions :
  removeDuplicateQuestions questions `sublist_of` questions
  ∧ NoDup (question_key <$> removeDuplicateQuestions questions)
  ∧ ∀ q, q ∈ questions →
         question_key q ∈ question_key <$> removeDuplicateQuestions questions.
Proof.
  destruct (remove_seen_spec ∅ questions) as (H1 & H2 & _ & H4).
  split_and!; [done|done|].
  intros q Hq. destruct (H4 q Hq) as [H|H]; [|done]. by apply elem_of_empty in H.
Qed.

(** *** Balancing the difficulties *)

Lemma three_filters {A} (f g h : A → bool) l :
  (∀ x, f x = true → g x = false ∧ h x = false) →
  (∀ x, g x = true → h x = false) →
  List.filter f l ++ List.filter g l ++ List.filter h l ⊆+ l.
Proof.
  intros Hf Hg. induction l as [|x l IH]; simpl; [done|].
  destruct (f x) eqn:Efx.
  - destruct (Hf x Efx) as [-> ->]. simpl. by apply submseteq_skip.
  - destruct (g x) eqn:Egx.
    + rewrite (Hg x Egx). simpl. rewrite <- Permutation_middle.
      by apply submseteq_skip.
    + destruct (h x).
      * rewrite app_assoc, <- Permutation_middle, <- app_assoc.
        by apply submseteq_skip.
      * by apply submseteq_cons.
Qed.

(** A part of a list of distinct objects, followed by the objects of
    the list that are not in the part, is the list in another order. *)
Lemma complement_of_part {A} (key : A → nat) (part l : list A) :
  NoDup (key <$> l) → part ⊆+ l →
  part ++ List.filter (λ x, negb (bool_decide (key x ∈ key <$> part))) l ≡ₚ l.
Proof.
  intros Hnd Hsub.
  apply submseteq_Permutation in Hsub as [k Hk].
  assert (List.filter (λ x, negb (bool_decide (key x ∈ key <$> part))) l ≡ₚ k)
    as ->; [|done].
  assert (NoDup (key <$> part ++ k)) as Hnd' by by rewrite <- Hk.
  rewrite fmap_app in Hnd'. apply NoDup_app in Hnd' as (_ & Hdisj & _).
  transitivity (List.filter (λ x, negb (bool_decide (key x ∈ key <$> part)))
                  (part ++ k)).
  { clear -Hk. revert Hk. generalize (part ++ k) as l'. intros l' Hk.
    induction Hk; simpl; try done.
    - destruct (negb _); by rewrite ?IHHk.
    - destruct (negb _), (negb _); try done. apply perm_swap.
    - by etrans. }
  rewrite List.filter_app.
  assert (∀ p, (∀ x, x ∈ p → key x ∈ key <$> part) →
            List.filter (λ x, negb (bool_decide (key x ∈ key <$> part))) p = [])
    as Hin.
  { induction p as [|x p IH]; intros Hp; simpl; [done|].
    rewrite bool_decide_eq_true_2 by (apply Hp; left). simpl.
    apply IH. intros y Hy. apply Hp. by right. }
  assert (∀ p, (∀ x, x ∈ p → key x ∉ key <$> part) →
            List.filter (λ x, negb (bool_decide (key x ∈ key <$> part))) p = p)
    as Hout.
  { induction p as [|x p IH]; intros Hp; simpl; [done|].
    rewrite bool_decide_eq_false_2 by (apply Hp; left). simpl. f_equal.
    apply IH. intros y Hy. apply Hp. by right. }
  rewrite Hin, Hout; [done| |].
  - intros x Hx Hx'. apply (Hdisj (key x)); [done|]. by apply list_elem_of_fmap_2.
  - intros x Hx. by apply list_elem_of_fmap_2.
Qed.

Lemma difficulty_split (questions : list Question) :
  List.filter (has_difficulty "easy") questions
  ++ List.filter (has_difficulty "medium") questions
  ++ List.filter (has_difficulty "hard") questions ⊆+ questions.
Proof.
  apply three_filters; unfold has_difficulty; intros x Hx;
    apply bool_decide_eq_true in Hx; rewrite Hx; done.
Qed.

(** The three shares and what is left of the array make up the array. *)
Lemma balance_permutation questions :
  NoDup (ref <$> questions) → balanceDifficulty questions ≡ₚ questions.
Proof.
  intros Hnd. unfold balanceDifficulty.
  set (result := Js.slice0 _ _ ++ Js.slice0 _ _ ++ Js.slice0 _ _).
  assert (result ⊆+ questions) as Hsub.
  { etrans; [|apply difficulty_split].
    repeat apply submseteq_app; apply JsFacts.slice0_submseteq. }
  pose proof (complement_of_part ref result questions Hnd Hsub) as Hperm.
  destruct (Nat.ltb_spec (length result) (length questions)) as [Hlt|Hge].
  - unfold includes_ref.
    set (remaining := List.filter (λ x, negb _) questions) in *.
    assert (length remaining = length questions - length result) as Hlen.
    { apply Permutation_length in Hperm. rewrite length_app in Hperm. lia. }
    unfold Js.slice0.
    assert ((Z.of_nat (length questions) - Z.of_nat (length result) <? 0)%Z = false)
      as -> by lia.
    rewrite take_ge by lia. done.
  - apply submseteq_length_Permutation; [done|lia].
Qed.

(** X15. On an array of distinct question objects [balanceDifficulty]
    returns the same questions in another order: none is lost and none
    appears twice, whatever their difficulties. *)
Theorem balance_keeps_every_question questions :
  NoDup (ref <$> questions) → balanceDifficulty questions ≡ₚ questions.
Proof. apply balance_permutation. Qed.

(** [balance_keeps_every_question] at three questions, two of them
    easy. *)
Lemma balance_keeps_every_question_witness :
  NoDup (ref <$> Samples.three_questions)
  ∧ balanceDifficulty Samples.three_questions ≡ₚ Samples.three_questions.
Proof.
  assert (NoDup (ref <$> Samples.three_questions)) as H.
  { apply NoDup_ListNoDup. repeat constructor; simpl; intuition discriminate. }
  split; [exact H|]. exact (balance_keeps_every_question _ H).
Defined.

(** *** The optimized set *)

Lemma fallback_refs next count startIndex :
  ref <$> generateFallbackQuestions next count startIndex
  = seq next (Z.to_nat count).
Proof.
  unfold generateFallbackQuestions. rewrite <- list_fmap_compose.
  generalize (Z.to_nat count) as n. intros n.
  replace (seq next n) with (seq (next + 0) n) by (by rewrite Nat.add_0_r).
  by rewrite <- fmap_add_seq.
Qed.

(** X16. For distinct question objects, none of which has an identity
    from [next] on, and a target count that is not negative,
    [optimizeQuestions] returns exactly the target count of questions:
    the first questions without duplicates, up to the target count, and
    as many fallback questions as are missing, in some order. *)
Theorem optimized_quiz_has_target_count next questions targetCount :
  NoDup (ref <$> questions) →
  (∀ q, q ∈ questions → ref q < next) →
  (0 ≤ targetCount)%Z →
  let kept := take (Z.to_nat targetCount) (removeDuplicateQuestions questions) in
  optimizeQuestions next questions targetCount
  ≡ₚ kept ++ generateFallbackQuestions next
               (targetCount - Z.of_nat (length kept))
               (Z.of_nat (length kept) + 1)
  ∧ length (optimizeQuestions next questions targetCount) = Z.to_nat targetCount.
Proof.
  intros Hnd Hnext Htarget kept. unfold optimizeQuestions.
  assert (Js.slice0 (removeDuplicateQuestions questions) targetCount = kept) as ->.
  { unfold Js.slice0. by assert ((targetCount <? 0)%Z = false) as -> by lia. }
  set (extra := generateFallbackQuestions next _ _).
  assert ((if (Z.of_nat (length kept) <? targetCount)%Z then kept ++ extra else kept)
          = kept ++ extra) as ->.
  { destruct (Z.ltb_spec (Z.of_nat (length kept)) targetCount); [done|].
    unfold extra, generateFallbackQuestions.
    replace (Z.to_nat (targetCount - Z.of_nat (length kept))) with 0 by lia.
    by rewrite app_nil_r. }
  assert (kept `sublist_of` questions) as Hkept.
  { etrans; [apply sublist_take|]. apply (remove_seen_spec ∅ questions). }
  assert (balanceDifficulty (kept ++ extra) ≡ₚ kept ++ extra) as Hperm.
  { apply balance_permutation. rewrite fmap_app. apply NoDup_app. split_and!.
    - apply (sublist_NoDup _ (ref <$> questions)); [done|by apply fmap_sublist].
    - intros r (q & -> & Hq)%list_elem_of_fmap Hr.
      unfold extra in Hr. rewrite fallback_refs in Hr.
      apply list_elem_of_In, in_seq in Hr.
      assert (ref q < next); [|lia].
      apply Hnext. eapply elem_of_sublist; done.
    - unfold extra. rewrite fallback_refs. apply NoDup_ListNoDup, seq_NoDup. }
  split; [done|].
  rewrite Hperm, length_app. unfold extra, generateFallbackQuestions.
  rewrite length_fmap, length_seq.
  assert (length kept ≤ Z.to_nat targetCount); [|lia].
  subst kept. rewrite length_take. lia.
Qed.

(** *** Grading *)

Lemma validate_fold questions userAnswers :
  ∀ s c r,
    fold_left
      (λ '(score, correctCount, results) question,
         let r := grade userAnswers question in
         (if correct r then (score + QuizQuestion.points question)%Z else score,
          if correct r then S correctCount else correctCount,
          results ++ [r]))
      questions (s, c, r)
    = ((s + foldr Z.add 0 (res_points <$> (grade userAnswers <$> questions)))%Z,
       c + length (List.filter correct (grade userAnswers <$> questions)),
       r ++ (grade userAnswers <$> questions)).
Proof.
  induction questions as [|q rest IH]; intros s c r.
  - simpl. by rewrite Z.add_0_r, Nat.add_0_r, app_nil_r.
  - cbn [fold_left]. cbv zeta. rewrite IH, <- app_assoc, !fmap_cons.
    cbn [foldr List.filter app].
    change (res_points (grade userAnswers q))
      with (if correct (grade userAnswers q) then QuizQuestion.points q else 0%Z).
    destruct (correct (grade userAnswers q)); cbn [length];
      (apply (f_equal2 pair); [apply (f_equal2 pair); lia|done]).
Qed.

Lemma total_fold questions :
  ∀ s, fold_left (λ sum q, (sum + QuizQuestion.points q)%Z) questions s
       = (s + foldr Z.add 0 (QuizQuestion.points <$> questions))%Z.
Proof.
  induction questions as [|q rest IH]; intros s; [simpl; lia|].
  cbn [fold_left]. rewrite IH, fmap_cons. cbn [foldr]. lia.
Qed.

Lemma grade_points userAnswers q :
  res_points (grade userAnswers q)
  = if correct (grade userAnswers q) then QuizQuestion.points q else 0%Z.
Proof. done. Qed.

Lemma graded_points_bounds questions userAnswers :
  Forall (λ q, 0 ≤ QuizQuestion.points q)%Z questions →
  (0 ≤ foldr Z.add 0 (res_points <$> (grade userAnswers <$> questions))
     ≤ foldr Z.add 0 (QuizQuestion.points <$> questions))%Z.
Proof.
  induction 1 as [|q rest Hq _ IH]; [done|].
  rewrite !fmap_cons. cbn [foldr]. rewrite grade_points.
  destruct (correct (grade userAnswers q)); lia.
Qed.

Lemma graded_correct_count questions userAnswers :
  length (List.filter correct (grade userAnswers <$> questions)) ≤ length questions.
Proof.
  induction questions as [|q rest IH]; [done|].
  rewrite fmap_cons. cbn [List.filter].
  destruct (correct (grade userAnswers q)); cbn [length]; lia.
Qed.

(** X17. For questions whose points are not negative and any answers,
    the score lies between zero and the total of the points, the count of
    right answers is at most the number of questions, and there is one
    result per question. *)
Theorem score_within_total questions userAnswers :
  Forall (λ q, 0 ≤ QuizQuestion.points q)%Z questions →
  let graded := validateQuizAnswers questions userAnswers in
  (0 ≤ score graded ≤ totalPoints graded)%Z
  ∧ correctCount graded ≤ length questions
  ∧ length (results graded) = length questions.
Proof.
  intros Hpts. unfold validateQuizAnswers. rewrite validate_fold, total_fold.
  cbn [score totalPoints correctCount results app].
  pose proof (graded_points_bounds questions userAnswers Hpts).
  pose proof (graded_correct_count questions userAnswers).
  split_and!; [lia|lia|lia|by rewrite length_fmap].
Qed.

(** X18. When the answer recorded under the identifier of each
    question is the right answer of that question, the score is the total
    of the points and every question counts as right. *)
Theorem right_answers_score_everything questions userAnswers :
  Forall (λ q, userAnswers !! QuizQuestion.id q
               = Some (QuizQuestion.correctAnswer q)) questions →
  let graded := validateQuizAnswers questions userAnswers in
  score graded = totalPoints graded
  ∧ correctCount graded = length questions
  ∧ Forall (λ r, correct r = true) (results graded).
Proof.
  intros Hans. unfold validateQuizAnswers. rewrite validate_fold, total_fold.
  cbn [score totalPoints correctCount results app].
  assert (∀ q, q ∈ questions → correct (grade userAnswers q) = true) as Hc.
  { intros q Hq. rewrite Forall_forall in Hans.
    unfold grade. simpl. rewrite (Hans q Hq). unfold Js.or_else.
    apply bool_decide_eq_true. by destruct (decide _). }
  clear Hans. split_and!.
  - f_equal. induction questions as [|q rest IH]; [done|].
    rewrite !fmap_cons. cbn [foldr].
    rewrite IH by (intros; apply Hc; by right).
    by rewrite grade_points, (Hc q) by left.
  - induction questions as [|q rest IH]; [done|].
    rewrite fmap_cons. cbn [List.filter]. rewrite (Hc q) by left. cbn [length].
    specialize (IH ltac:(intros; apply Hc; by right)). lia.
  - apply Forall_fmap, Forall_forall. intros q Hq. by apply Hc.
Qed.

(** [optimized_quiz_has_target_count] at three questions and a target
    of five. *)
Lemma optimized_quiz_witness :
  NoDup (ref <$> Samples.three_questions)
  ∧ (∀ q, q ∈ Samples.three_questions → ref q < 3)
  ∧ (0 ≤ 5)%Z
  ∧ length (optimizeQuestions 3 Samples.three_questions 5) = 5.
Proof.
  assert (NoDup (ref <$> Samples.three_questions)) as Hnd.
  { apply NoDup_ListNoDup. repeat constructor; simpl; intuition discriminate. }
  assert (∀ q, q ∈ Samples.three_questions → ref q < 3) as Hnext.
  { intros q Hq. unfold Samples.three_questions in Hq.
    repeat (apply elem_of_cons in Hq as [->|Hq]; [simpl; lia|]).
    by apply elem_of_nil in Hq. }
  split_and!; [exact Hnd|exact Hnext|lia|].
  apply (optimized_quiz_has_target_count 3 Samples.three_questions 5 Hnd Hnext).
  lia.
Defined.

(** [score_within_total] at the three questions, all answered right. *)
Lemma score_within_total_witness :
  Forall (λ q, 0 ≤ QuizQuestion.points q)%Z (fields <$> Samples.three_questions)
  ∧ (0 ≤ score (validateQuizAnswers (fields <$> Samples.three_questions)
                  Samples.right_answers)
       ≤ 3)%Z.
Proof.
  assert (Forall (λ q, 0 ≤ QuizQuestion.points q)%Z
            (fields <$> Samples.three_questions)) as H.
  { repeat constructor; simpl; lia. }
  split; [exact H|].
  apply (score_within_total _ Samples.right_answers H).
Defined.

(** [right_answers_score_everything] at the three questions. *)
Lemma right_answers_witness :
  Forall (λ q, Samples.right_answers !! QuizQuestion.id q
               = Some (QuizQuestion.correctAnswer q))
         (fields <$> Samples.three_questions)
  ∧ score (validateQuizAnswers (fields <$> Samples.three_questions)
             Samples.right_answers) = 3%Z.
Proof.
  assert (Forall (λ q, Samples.right_answers !! QuizQuestion.id q
                       = Some (QuizQuestion.correctAnswer q))
            (fields <$> Samples.three_questions)) as H.
  { repeat constructor. }
  split; [exact H|].
  apply (right_answers_score_everything _ _ H).
Defined.
End QuizFacts.

(** ** The scheduler *)

Module WorkflowFacts.
Import Workflow.

#[local] Arguments merge : simpl never.

Section Facts.
Context (agents : Agents).

(** A step that returns from the [switch] sets no [errors] key. *)
Lemma dispatch_keeps_errors clock ty st p :
  dispatch agents clock ty st = Normal p → set_errors p = None.
Proof.
  unfold dispatch.
  destruct ty; cbn;
    unfold executeParseDocument, executeExtractKeypoints,
      executeGenerateLearningPath, executeGenerateQuiz, executeAnswerQuestion;
    intros H;
    repeat match type of H with
    | context [match ?x with _ => _ end] => destruct x eqn:?; try discriminate
    | context [if ?b then _ else _] => destruct b eqn:?; try discriminate
    end;
    cbn in H;
    repeat match type of H with
    | (?c ≫= _) = Normal _ => destruct c eqn:?; cbn in H; try discriminate
    | context [require_success ?r ?f] =>
        unfold require_success in H; destruct (success r); cbn in H; try discriminate
    end;
    by inversion H.
Qed.

(** [executeStep] either passes on the result of the step or turns its
    exception into a result that extends [errors]: it never throws. *)
Lemma executeStep_cases clock ty st :
  (∃ p, dispatch agents clock ty st = Normal p ∧ set_errors p = None
        ∧ executeStep agents clock ty st = Normal p)
  ∨ (∃ m, dispatch agents clock ty st = Throw m
        ∧ executeStep agents clock ty st
          = Normal (errors_only (errors_or_empty st ++ [step_failure_message ty m]))).
Proof.
  unfold executeStep. destruct (dispatch agents clock ty st) as [p|m] eqn:E.
  - left. exists p. split_and!; eauto using dispatch_keeps_errors.
  - right. by exists m.
Qed.

Lemma executeStep_total clock ty st :
  ∃ p, executeStep agents clock ty st = Normal p.
Proof. destruct (executeStep_cases clock ty st) as [(p&?&?&?)|(m&?&?)]; eauto. Qed.

Lemma errors_merge st p :
  errors (merge st p) = default (errors st) (set_errors p).
Proof. done. Qed.

Lemma merge_errors clock ty st p :
  executeStep agents clock ty st = Normal p →
  (errors (merge st p) = errors st ∧ ∃ q, dispatch agents clock ty st = Normal q)
  ∨ (∃ m, dispatch agents clock ty st = Throw m
          ∧ errors (merge st p)
            = Some (errors_or_empty st ++ [step_failure_message ty m])).
Proof.
  intros Hp. destruct (executeStep_cases clock ty st) as [(q&Hd&Hq&He)|(m&Hd&He)];
    rewrite He in Hp; simplify_eq.
  - left. split; [|eauto]. unfold merge. simpl. by rewrite Hq.
  - right. exists m. done.
Qed.

(** The [catch] of the inner loop is never entered. *)
Lemma run_step_eq i step r :
  ∃ p, executeStep agents (clock r) (type step) (state r) = Normal p
     ∧ run_step agents i step r
       = mkRun (merge (state r) p) ({[ id step ]} ∪ completedSteps r)
               (delete i (pendingSteps r)) true (S (clock r)) (round r)
               (log r ++ [{| log_round := round r; log_step := step;
                             log_observed := state r; log_clock := clock r |}]).
Proof.
  destruct (executeStep_total (clock r) (type step) (state r)) as [p Hp].
  exists p. split; [done|]. unfold run_step. by rewrite Hp.
Qed.

Lemma run_step_pending todo s kept r :
  pendingSteps r = todo ++ s :: kept →
  pendingSteps (run_step agents (length todo) s r) = todo ++ kept.
Proof.
  intros Hp. destruct (run_step_eq (length todo) s r) as (p & _ & ->).
  simpl. rewrite Hp. apply delete_middle.
Qed.

Lemma run_step_progress i s r : progressMade (run_step agents i s r) = true.
Proof. by destruct (run_step_eq i s r) as (p & _ & ->). Qed.

Lemma run_step_completed i s r :
  completedSteps (run_step agents i s r) = {[ id s ]} ∪ completedSteps r.
Proof. by destruct (run_step_eq i s r) as (p & _ & ->). Qed.

Lemma scan_S i r :
  scan agents (S i) r =
    match pendingSteps r !! i with
    | Some step => if runnable step r then scan agents i (run_step agents i step r)
                   else scan agents i r
    | None => scan agents i r
    end.
Proof. done. Qed.

(** Induction over one scan: [todo] are the pending steps not yet
    looked at, [kept] those looked at and left pending. *)
Lemma scan_inv (Q : list WorkflowStep → list WorkflowStep → Run → Prop) :
  (∀ todo s kept r,
     pendingSteps r = todo ++ s :: kept → runnable s r = false →
     Q (todo ++ [s]) kept r → Q todo (s :: kept) r) →
  (∀ todo s kept r,
     pendingSteps r = todo ++ s :: kept → runnable s r = true →
     Q (todo ++ [s]) kept r → Q todo kept (run_step agents (length todo) s r)) →
  ∀ todo kept r,
    pendingSteps r = todo ++ kept → Q todo kept r →
    ∃ kept', pendingSteps (scan agents (length todo) r) = kept'
             ∧ Q [] kept' (scan agents (length todo) r).
Proof.
  intros Hskip Hrun todo.
  induction todo as [|s todo IH] using rev_ind; intros kept r Hp HQ.
  - exists kept. simpl in *. done.
  - rewrite length_app, Nat.add_1_r, scan_S.
    rewrite <- app_assoc in Hp. simpl in Hp.
    assert (pendingSteps r !! length todo = Some s) as ->.
    { rewrite Hp. by rewrite list_lookup_middle. }
    destruct (runnable s r) eqn:Hr.
    + apply (IH kept).
      * by apply run_step_pending.
      * by apply Hrun.
    + apply (IH (s :: kept)); [done|]. by apply Hskip.
Qed.

(** A scan never lengthens the pending list, and shortens it when it
    reports progress. *)
Lemma scan_bound r :
  let r' := scan agents (length (pendingSteps r)) (start_round r) in
  length (pendingSteps r') ≤ length (pendingSteps r)
  ∧ (progressMade r' = true → length (pendingSteps r') < length (pendingSteps r)).
Proof.
  destruct (scan_inv
    (λ _ _ r', length (pendingSteps r') ≤ length (pendingSteps r)
               ∧ (progressMade r' = true
                  → length (pendingSteps r') < length (pendingSteps r))))
    with (todo := pendingSteps r) (kept := @nil WorkflowStep) (r := start_round r)
    as (kept' & _ & H).
  - tauto.
  - intros todo s kept r1 Hp _ [Hle _].
    rewrite (run_step_pending _ _ _ _ Hp). rewrite Hp in Hle.
    rewrite length_app in *. simpl in *. lia.
  - simpl. by rewrite app_nil_r.
  - simpl. split; [lia|discriminate].
  - exact H.
Qed.

(** A scan that reports no progress ran nothing. *)
Lemma scan_no_progress r :
  let r' := scan agents (length (pendingSteps r)) (start_round r) in
  progressMade r' = false →
  r' = start_round r ∧ ∀ s, s ∈ pendingSteps r → runnable s (start_round r) = false.
Proof.
  destruct (scan_inv
    (λ _ kept r', progressMade r' = false →
                  r' = start_round r
                  ∧ ∀ s, s ∈ kept → runnable s (start_round r) = false))
    with (todo := pendingSteps r) (kept := @nil WorkflowStep) (r := start_round r)
    as (kept' & Hk & H).
  - intros todo s kept r1 Hp Hr IH Hprog. destruct (IH Hprog) as [-> IH'].
    split; [done|]. intros x [->|Hx]%elem_of_cons; auto.
  - intros todo s kept r1 Hp Hr _ Hprog. by rewrite run_step_progress in Hprog.
  - simpl. by rewrite app_nil_r.
  - intros _. split; [done|]. intros s Hs. by apply elem_of_nil in Hs.
  - intros r' Hprog. destruct (H Hprog) as [Heq Hno]. split; [done|].
    intros s Hs. apply Hno. subst kept'. rewrite Heq. done.
Qed.

(** Induction over the rounds: what holds when the loop is left. *)
Lemma rounds_inv (I : Run → Prop) :
  (∀ r, I r → pendingSteps r ≠ [] →
        I (scan agents (length (pendingSteps r)) (start_round r))) →
  ∀ fuel r r', I r → rounds agents fuel r = Some r' →
    (pendingSteps r' = [] ∧ I r')
    ∨ (∃ r1, r' = stalled r1 ∧ I r1 ∧ pendingSteps r1 ≠ []
             ∧ progressMade r1 = false
             ∧ ∀ s, s ∈ pendingSteps r1 → runnable s r1 = false).
Proof.
  intros Hstep fuel. induction fuel as [|fuel IH]; intros r r' HI Hr.
  - simpl in Hr. destruct (pendingSteps r) eqn:Hp; [|discriminate].
    left. by simplify_eq.
  - simpl in Hr. destruct (pendingSteps r) as [|s0 l] eqn:Hp.
    { left. by simplify_eq. }
    rewrite <- Hp in Hr.
    assert (pendingSteps r ≠ []) as Hne by (by rewrite Hp).
    specialize (Hstep r HI Hne).
    destruct (progressMade (scan agents (length (pendingSteps r)) (start_round r)))
      eqn:Hprog.
    + by apply (IH _ _ Hstep).
    + right. destruct (scan_no_progress r Hprog) as [Heq Hno].
      eexists. split; [by simplify_eq|]. split_and!; [done| | done |].
      * rewrite Heq. done.
      * rewrite Heq. simpl. done.
Qed.

(** The loop ends within as many rounds as there are pending steps. *)
Lemma rounds_total fuel r :
  length (pendingSteps r) ≤ fuel → is_Some (rounds agents fuel r).
Proof.
  revert r. induction fuel as [|fuel IH]; intros r Hlen.
  - destruct (pendingSteps r) eqn:Hp; simpl in *; [|lia]. rewrite Hp. by eexists.
  - simpl. destruct (scan_bound r) as [Hle Hlt].
    destruct (pendingSteps r) as [|s0 l] eqn:Hp; [by eexists|].
    destruct (progressMade _) eqn:Hprog; [|by eexists].
    apply IH. specialize (Hlt eq_refl). simpl in *. lia.
Qed.

Lemma checkDependencies_spec step (done_ : gset string) :
  checkDependencies step done_ = true ↔
  ∀ dep, dep ∈ default [] (dependencies step) → dep ∈ done_.
Proof.
  unfold checkDependencies. destruct (dependencies step) as [deps|]; simpl.
  - rewrite forallb_forall. split.
    + intros H dep Hd. specialize (H dep). rewrite bool_decide_eq_true in H.
      apply H. by apply list_elem_of_In.
    + intros H dep Hd. rewrite bool_decide_eq_true.
      apply H. by apply list_elem_of_In.
  - split; [|done]. intros _ dep Hd. by apply elem_of_nil in Hd.
Qed.

(** A step runs only once all the steps it names have completed. *)
Lemma runnable_dependencies step r dep :
  runnable step r = true → dep ∈ default [] (dependencies step) →
  dep ∈ completedSteps r.
Proof.
  unfold runnable. intros [Hd _]%andb_true_iff.
  by apply checkDependencies_spec.
Qed.

(** *** Steps that wait for each other *)

Section Blocked.
Context (steps0 : list WorkflowStep) (B : string → Prop).
Context (Hblocked : ∀ s, s ∈ steps0 → B (id s) →
           ∃ dep, dep ∈ default [] (dependencies s) ∧ B dep).

(** No step named in [B] runs during a scan. *)
Lemma blocked_inv_scan r :
  blocked_inv steps0 B r →
  blocked_inv steps0 B (scan agents (length (pendingSteps r)) (start_round r)).
Proof.
  intros HI.
  destruct (scan_inv (λ _ _ r', blocked_inv steps0 B r'))
    with (todo := pendingSteps r) (kept := @nil WorkflowStep) (r := start_round r)
    as (kept' & _ & H); auto.
  - intros todo s kept r1 Hp Hr (Hc & Hb & Hs).
    assert (s ∈ pendingSteps r1) as Hin.
    { rewrite Hp. apply elem_of_app. right. by left. }
    assert (¬ B (id s)) as HnB.
    { intros HB. destruct (Hblocked s (Hs _ Hin) HB) as (dep & Hdep & HBdep).
      eapply Hc; [|exact HBdep]. by eapply runnable_dependencies. }
    unfold blocked_inv.
    rewrite run_step_completed, (run_step_pending _ _ _ _ Hp).
    split_and!.
    + intros x Hx. apply elem_of_union in Hx as [Hx|Hx]; [|auto].
      apply elem_of_singleton in Hx as ->. done.
    + intros x Hx HB. specialize (Hb x Hx HB). rewrite Hp in Hb.
      apply elem_of_app in Hb as [Hb|Hb]; [apply elem_of_app; by left|].
      apply elem_of_cons in Hb as [->|Hb]; [done|apply elem_of_app; by right].
    + intros x Hx. apply Hs. rewrite Hp.
      apply elem_of_app in Hx as [Hx|Hx]; apply elem_of_app; [by left|].
      right. by right.
  - simpl. by rewrite app_nil_r.
Qed.
End Blocked.

Lemma unique_ids_eq (l : list WorkflowStep) s t :
  unique_ids l → s ∈ l → t ∈ l → id s = id t → s = t.
Proof. apply NoDup_fmap_eq. Qed.

(** The steps of a cycle block one another. *)
Lemma cycle_is_blocked steps0 cyc :
  unique_ids steps0 → cyc ⊆ steps0 → dependency_cycle cyc →
  ∀ s, s ∈ steps0 → (∃ c, c ∈ cyc ∧ id c = id s) →
       ∃ dep, dep ∈ default [] (dependencies s) ∧ (∃ c, c ∈ cyc ∧ id c = dep).
Proof.
  intros Hu Hsub [_ Hcyc] s Hs (c & Hc & Hid).
  assert (c = s) as -> by (eapply unique_ids_eq; eauto).
  apply list_elem_of_lookup in Hc as [i Hi].
  destruct (Hcyc i s Hi) as (t & Ht & Hdep).
  exists (id t). split; [done|]. exists t. split; [|done].
  eapply list_elem_of_lookup_2; eauto.
Qed.

(** C3. For every list of steps with distinct identifiers that holds
    a dependency cycle, whatever the agents do, the scheduler terminates,
    the last entry of [errors] is the stall message, which speaks of
    possible circular dependencies or unmet conditions, and [completed] is
    [false]. *)
Theorem cycle_stalls now steps0 initialState cyc :
  unique_ids steps0 → cyc ⊆ steps0 → dependency_cycle cyc →
  ∃ r es, run_steps agents now steps0 initialState = Some r
          ∧ errors (state r) = Some (es ++ [stall_message])
          ∧ Js.includes stall_message
              "possible circular dependencies or unmet conditions" = true
          ∧ completed (state r) = Some false.
Proof.
  intros Hu Hsub Hcyc.
  set (B := λ x : string, ∃ c, c ∈ cyc ∧ id c = x).
  set (r0 := mkRun (initial_state now initialState) ∅ steps0 false 0 0 []).
  destruct (rounds_total (S (length steps0)) r0) as [r1 Hr1]; [simpl; lia|].
  assert (blocked_inv steps0 B r0) as HI0.
  { split_and!; simpl; [set_solver|done|done]. }
  destruct (rounds_inv (blocked_inv steps0 B)
              (λ r HI _, blocked_inv_scan steps0 B
                           (cycle_is_blocked steps0 cyc Hu Hsub Hcyc) r HI)
              _ _ _ HI0 Hr1)
    as [[Hnil (_ & Hb & _)]|(r2 & -> & _ & Hne & _ & _)].
  - exfalso. destruct Hcyc as [Hne _]. destruct cyc as [|c cyc]; [done|].
    assert (c ∈ pendingSteps r1) as Hin.
    { apply Hb; [set_solver|]. exists c. set_solver. }
    rewrite Hnil in Hin. by apply elem_of_nil in Hin.
  - exists (finish (stalled r2)), (errors_or_empty (state r2)).
    unfold run_steps. fold r0. rewrite Hr1. split_and!; [done|done|done|].
    simpl. destruct (pendingSteps r2); [done|]. done.
Qed.

(** *** The history of a run *)

Lemma steps_in_round_snoc k l e :
  steps_in_round k (l ++ [e])
  = steps_in_round k l ++ (if decide (log_round e = k) then [log_step e] else []).
Proof.
  unfold steps_in_round. rewrite filter_app, fmap_app. f_equal.
  rewrite filter_cons, filter_nil. by destruct (decide _).
Qed.

Lemma steps_in_round_later k l :
  (∀ e, e ∈ l → log_round e < k) → steps_in_round k l = [].
Proof.
  intros H. unfold steps_in_round. induction l as [|e l IH]; [done|].
  rewrite filter_cons. destruct (decide _) as [Heq|_].
  - specialize (H e ltac:(left)). lia.
  - apply IH. intros e' He'. apply H. by right.
Qed.

Section History.
Context (steps0 : list WorkflowStep) (s0 : WorkflowState).

Lemma hist_skip P0 todo s kept r :
  pendingSteps r = todo ++ s :: kept →
  hist agents steps0 s0 P0 (todo ++ [s]) r → hist agents steps0 s0 P0 todo r.
Proof.
  intros Hp []. split; try done.
  etrans; [|exact h_order_now0].
  apply sublist_app; [|done]. by apply sublist_inserts_r.
Qed.

Lemma hist_run P0 todo s kept r :
  pendingSteps r = todo ++ s :: kept → runnable s r = true →
  hist agents steps0 s0 P0 (todo ++ [s]) r →
  hist agents steps0 s0 P0 todo (run_step agents (length todo) s r).
Proof.
  intros Hp Hr [].
  destruct (run_step_eq (length todo) s r) as (p & Hexec & ->).
  split; simpl; rewrite ?Hp, ?delete_middle.
  - etrans; [|exact h_sub0]. rewrite Hp.
    apply sublist_app; [done|]. by constructor.
  - rewrite <- h_perm0, Hp, fmap_app. simpl.
    rewrite <- (Permutation_middle todo kept s). simpl.
    rewrite (app_assoc (todo ++ kept)).
    by rewrite <- Permutation_cons_append.
  - intros x. rewrite elem_of_union, elem_of_singleton, h_done0. split.
    + intros [->|(e & He & Hid)].
      * eexists. split; [apply elem_of_app; right; by left|done].
      * exists e. split; [apply elem_of_app; by left|done].
    + intros (e & [He|He]%elem_of_app & Hid).
      * right. eauto.
      * apply list_elem_of_singleton in He as ->. by left.
  - intros e [He|He]%elem_of_app; simpl; [auto|].
    by apply list_elem_of_singleton in He as ->.
  - intros i j e1 e2 Hij [[Hi H1]|[-> <-]]%lookup_snoc_Some
                         [[Hj H2]|[-> <-]]%lookup_snoc_Some; simpl.
    + eauto.
    + apply h_round0. eapply list_elem_of_lookup_2; eauto.
    + lia.
    + done.
  - intros k Hk. rewrite steps_in_round_snoc. simpl.
    destruct (decide _); [done|]. rewrite app_nil_r. auto.
  - rewrite steps_in_round_snoc. simpl.
    destruct (decide _); [|done]. rewrite reverse_app. simpl.
    by rewrite <- app_assoc in h_order_now0.
  - intros i e dep [[Hi He]|[-> <-]]%lookup_snoc_Some Hdep.
    + destruct (h_deps0 i e dep He Hdep) as (j & e0 & Hj & He0 & Hid).
      exists j, e0. split_and!; [done| |done].
      by apply lookup_app_l_Some.
    + simpl in Hdep.
      apply (runnable_dependencies _ _ _ Hr), h_done0 in Hdep
        as (e0 & [j Hj]%list_elem_of_lookup & Hid).
      exists j, e0. split_and!; [by eapply lookup_lt_Some| |done].
      by apply lookup_app_l_Some.
  - unfold state_after. rewrite last_snoc. simpl. unfold after_step. simpl.
    by rewrite Hexec.
  - intros i e [[Hi He]|[-> <-]]%lookup_snoc_Some.
    + rewrite take_app_le by lia. auto.
    + rewrite take_app_length. simpl. done.
  - rewrite length_app. simpl. lia.
  - rewrite <- errors_merge.
    destruct (merge_errors _ _ _ _ Hexec) as [[-> _]|(m & _ & ->)]; [done|by eexists].
  - intros e m [He|He]%elem_of_app Hd;
      [|apply list_elem_of_singleton in He as ->].
    + specialize (h_fail0 e m He Hd). unfold errors_or_empty in *.
      destruct (merge_errors _ _ _ _ Hexec) as [[-> _]|(m' & _ & ->)]; [done|].
      simpl. apply elem_of_app. by left.
    + simpl in Hd. unfold errors_or_empty.
      destruct (merge_errors _ _ _ _ Hexec) as [[_ [q Hq]]|(m' & Hm' & ->)].
      * congruence.
      * simpl. assert (m' = m) as -> by congruence.
        apply elem_of_app. right. by left.
Qed.

Lemma hist_scan r :
  hist agents steps0 s0 steps0 [] r →
  hist agents steps0 s0 steps0 []
       (scan agents (length (pendingSteps r)) (start_round r)).
Proof.
  intros H.
  destruct (scan_inv (λ todo _ r', hist agents steps0 s0 (pendingSteps r) todo r'))
    with (todo := pendingSteps r) (kept := @nil WorkflowStep) (r := start_round r)
    as (kept' & _ & [] ).
  - intros. by eapply hist_skip.
  - intros. by eapply hist_run.
  - simpl. by rewrite app_nil_r.
  - destruct H. split; simpl; try done.
    + intros e He. specialize (h_round0 e He). lia.
    + intros k Hk. destruct (decide (k = round r)) as [->|]; auto.
    + rewrite steps_in_round_later; [by rewrite app_nil_r|].
      intros e He. specialize (h_round0 e He). lia.
  - split; try done.
    etrans; [exact h_order_now0|]. by destruct H.
Qed.

Lemma hist_order r k :
  hist agents steps0 s0 steps0 [] r →
  reverse (steps_in_round k (log r)) `sublist_of` steps0.
Proof. intros []. destruct (decide (k = round r)) as [->|]; auto. Qed.

Lemma hist_initial r0 :
  r0 = mkRun s0 ∅ steps0 false 0 0 [] → is_Some (errors s0) →
  hist agents steps0 s0 steps0 [] r0.
Proof.
  intros -> Herr. split; simpl; try done.
  - by rewrite app_nil_r.
  - intros x. split; [set_solver|]. intros (e & He & _). by apply elem_of_nil in He.
  - intros e He. by apply elem_of_nil in He.
  - intros k _. apply sublist_nil_l.
  - apply sublist_nil_l.
  - intros e m He. by apply elem_of_nil in He.
Qed.

Lemma hist_final r :
  hist agents steps0 s0 steps0 [] r →
  (∀ s, s ∈ pendingSteps r → runnable s r = false) →
  final agents steps0 s0 (finish r)
  ∧ (pendingSteps r ≠ [] → final agents steps0 s0 (finish (stalled r))).
Proof.
  intros H Hblocked. pose proof (λ k, hist_order r k H) as Hord.
  destruct H. split; [|intros Hne]; split; simpl; try done.
  - intros s Hs. exists (state r), (errors_or_empty (state r)),
      (bool_decide (pendingSteps r = [])
       && (length (errors_or_empty (state r)) =? 0)).
    split; [|by apply Hblocked].
    destruct h_errs0 as [es Hes]. unfold errors_or_empty. rewrite Hes. simpl.
    destruct (state r). simpl in *. by rewrite Hes.
  - intros e m He Hd. unfold errors_or_empty. simpl.
    apply elem_of_app. left. by eapply h_fail0.
  - intros s Hs. eexists (state r), _, _. split; [done|by apply Hblocked].
Qed.

(** [run_steps] always returns, and its run has the history above. *)
Lemma run_steps_final now initialState :
  s0 = initial_state now initialState →
  ∃ r, run_steps agents now steps0 initialState = Some r ∧ final agents steps0 s0 r.
Proof.
  intros Hs0. unfold run_steps. rewrite <- Hs0.
  set (r0 := mkRun s0 ∅ steps0 false 0 0 []).
  destruct (rounds_total (S (length steps0)) r0) as [r1 Hr1]; [simpl; lia|].
  rewrite Hr1. simpl. eexists. split; [done|].
  assert (hist agents steps0 s0 steps0 [] r0) as H0.
  { apply hist_initial; [done|]. rewrite Hs0. by eexists. }
  destruct (rounds_inv (hist agents steps0 s0 steps0 [])
              (λ r H _, hist_scan r H) _ _ _ H0 Hr1)
    as [[Hnil H]|(r2 & -> & H & Hne & _ & Hno)].
  - apply hist_final; [done|]. intros s Hs. rewrite Hnil in Hs.
    by apply elem_of_nil in Hs.
  - by apply hist_final.
Qed.
End History.

(** In a workflow whose steps have distinct identifiers and name only
    steps declared before them, a failed step is recorded, counts as
    completed, and every step that depends on it and is runnable at the
    end has run in a later round. *)
Lemma failed_step_unblocks steps0 s0 r :
  unique_ids steps0 → dependency_ordered steps0 → conditions_on_inputs steps0 →
  final agents steps0 s0 r → isolates_failures agents steps0 r.
Proof.
  intros Hu Hord Hcond [] e m He Hfail. split_and!.
  - unfold after_step, executeStep. rewrite Hfail. simpl. by eexists.
  - by eapply f_fail0.
  - apply f_done0. eauto.
  - intros d Hd Hdep Hrun.
    assert (NoDup steps0) as Hnd by (by eapply NoDup_fmap_1).
    assert (∀ x, x ∈ log_step <$> log r → x ∈ steps0) as Hlog.
    { intros x Hx. rewrite <- f_perm0. apply elem_of_app. by right. }
    assert (d ∈ log_step <$> log r) as Hdlog.
    { rewrite <- f_perm0 in Hd. apply elem_of_app in Hd as [Hd|Hd]; [|done].
      exfalso. destruct (f_blocked0 d Hd) as (st & es & b & Hst & Hno).
      unfold runnable in Hrun. rewrite Hst, (Hcond d st es b) in Hrun.
      - congruence.
      - rewrite <- f_perm0. apply elem_of_app. by left. }
    apply list_elem_of_fmap in Hdlog as (e' & -> & He').
    exists e'. split_and!; [done|done|].
    apply list_elem_of_lookup in He as [i Hi].
    apply list_elem_of_lookup in He' as [i' Hi'].
    destruct (f_deps0 i' e' _ Hi' Hdep) as (j & e0 & Hj & He0 & Hid).
    assert (log_step e0 = log_step e) as Hsame.
    { eapply unique_ids_eq; [exact Hu| | |done]; apply Hlog, list_elem_of_fmap;
        eexists; (split; [done|]); eapply list_elem_of_lookup_2; eauto. }
    assert (NoDup (log_step <$> log r)) as Hndlog.
    { eapply NoDup_app. rewrite f_perm0. done. }
    assert (j = i) as ->.
    { eapply NoDup_lookup; [exact Hndlog| |].
      - rewrite list_lookup_fmap, He0. done.
      - rewrite list_lookup_fmap, Hi. simpl. by rewrite Hsame. }
    assert (log_round e ≤ log_round e') as Hle
      by (eapply (f_mono0 i i'); [lia|done|done]).
    destruct (decide (log_round e = log_round e')) as [Heq|]; [exfalso|lia].
    assert ([log_step e; log_step e'] `sublist_of`
              steps_in_round (log_round e) (log r)) as Hpair.
    { unfold steps_in_round.
      change [log_step e; log_step e'] with (log_step <$> [e; e']).
      apply fmap_sublist.
      assert (filter (λ x, log_round x = log_round e) [e; e'] = [e; e']) as <-.
      { rewrite !filter_cons, filter_nil.
        destruct (decide (log_round e = log_round e)); [|done].
        destruct (decide (log_round e' = log_round e)); [done|congruence]. }
      apply sublist_filter_mono. by eapply sublist_pair_lookup. }
    apply sublist_reverse in Hpair.
    eapply (sublist_pair_antisym steps0 (log_step e) (log_step e')); [done| |].
    + apply Hord; [by apply Hlog, list_elem_of_fmap_2;
                    eapply list_elem_of_lookup_2|
                   by apply Hlog, list_elem_of_fmap_2;
                    eapply list_elem_of_lookup_2|done].
    + etrans; [exact Hpair|]. apply f_order0.
Qed.

(** C10. For every list of steps and every initial state the scheduler
    returns a state whose [completed] is [true] exactly when no step is
    left pending and [errors] is empty; and [completed] is [false] as soon
    as one step of the run failed, whatever ran after it. *)
Theorem completed_iff now steps0 initialState :
  ∃ r, run_steps agents now steps0 initialState = Some r
       ∧ (completed (state r) = Some true
          ↔ pendingSteps r = [] ∧ errors (state r) = Some [])
       ∧ (∀ e, e ∈ log r → failed agents e → completed (state r) = Some false).
Proof.
  destruct (run_steps_final steps0 _ now initialState eq_refl) as (r & Hr & []).
  exists r. split; [done|]. rewrite f_completed0.
  destruct f_errs0 as [es Hes]. unfold errors_or_empty in *. rewrite Hes in *.
  simpl in *. split.
  - split.
    + intros [= [Hp Hl]%andb_true_iff]. apply bool_decide_eq_true in Hp.
      apply Nat.eqb_eq, nil_length_inv in Hl. by subst.
    + intros [-> [= ->]]. done.
  - intros e He [m Hm]. specialize (f_fail0 e m He Hm).
    destruct es; [by apply elem_of_nil in f_fail0|].
    simpl. by rewrite andb_false_r.
Qed.

(** C9, as amended. In every round the steps that run are taken from
    the last declared to the first: the steps of a round, read from the
    last run to the first run, stand in declaration order. And each step
    is given the state left by the step that ran just before it, in the
    same round or an earlier one: the initial state merged with every
    result so far. *)
Theorem round_runs_backwards now steps0 initialState :
  ∃ r, run_steps agents now steps0 initialState = Some r
       ∧ (∀ k, reverse (steps_in_round k (log r)) `sublist_of` steps0)
       ∧ (∀ i e, log r !! i = Some e →
            log_observed e
            = state_after agents (initial_state now initialState) (take i (log r))).
Proof.
  destruct (run_steps_final steps0 _ now initialState eq_refl) as (r & Hr & []).
  exists r. split_and!; [done|done|]. intros i e Hi. by apply f_chain0.
Qed.

(** *** The predefined workflows *)

Lemma predefined_lookup workflowId workflow :
  getWorkflowDefinitions !! workflowId = Some workflow →
  (workflowId, workflow) ∈ workflow_table.
Proof. apply elem_of_list_to_map_2. Qed.

Ltac each_step H :=
  repeat (apply elem_of_cons in H as [->|H]); [..|by apply elem_of_nil in H].

(** Each predefined workflow has distinct identifiers, declares every
    dependency before its use and has conditions on the inputs only. *)
Lemma predefined_well_formed workflowId workflow :
  (workflowId, workflow) ∈ workflow_table →
  unique_ids (steps workflow) ∧ dependency_ordered (steps workflow)
  ∧ conditions_on_inputs (steps workflow).
Proof.
  intros H. unfold workflow_table in H.
  repeat (apply elem_of_cons in H as [[= -> ->]|H]); [..|by apply elem_of_nil in H];
    (split_and!;
     [ unfold unique_ids; simpl; apply NoDup_ListNoDup;
       repeat constructor; simpl; intuition discriminate
     | intros d s Hd Hs Hdep; simpl in Hd, Hs; unfold depends_on in Hdep;
       each_step Hd; each_step Hs; simpl in Hdep;
       first [ by repeat (apply elem_of_cons in Hdep as [?|Hdep]);
                  [..|by apply elem_of_nil in Hdep]
             | repeat first [ apply sublist_nil_l | apply sublist_skip
                            | apply sublist_cons ] ]
     | intros d st es b Hd; simpl in Hd; each_step Hd; done ]).
Qed.

Ltac find_step :=
  simpl;
  match goal with
  | |- ∃ d, d ∈ ?l ∧ _ =>
      let rec go l :=
        lazymatch l with
        | ?x :: ?l' =>
            first [ by (exists x; split_and!;
                        [ repeat first [ apply list_elem_of_here
                                       | apply list_elem_of_further ]
                        | reflexivity | reflexivity ])
                  | go l' ]
        end in
      go l
  end.

(** In each predefined workflow a condition reads the request only,
    and every dependency names a declared step that has no condition. *)
Lemma predefined_conditions workflowId workflow :
  (workflowId, workflow) ∈ workflow_table →
  (∀ d st st', d ∈ steps workflow → same_request st st' →
               checkCondition d st = checkCondition d st')
  ∧ (∀ s dep, s ∈ steps workflow → dep ∈ default [] (dependencies s) →
              ∃ d, d ∈ steps workflow ∧ id d = dep ∧ condition d = None).
Proof.
  intros H. unfold workflow_table in H.
  repeat (apply elem_of_cons in H as [[= -> ->]|H]); [..|by apply elem_of_nil in H];
    (split;
     [ intros d st st' Hd (_ & _ & _ & Hq & _); simpl in Hd; each_step Hd;
       unfold checkCondition; simpl; by rewrite ?Hq
     | intros s dep Hs Hdep; simpl in Hs; each_step Hs; simpl in Hdep;
       repeat (apply elem_of_cons in Hdep as [->|Hdep]);
       try (by apply elem_of_nil in Hdep);
       find_step ]).
Qed.
End Facts.

(** C9 as stated fails on the full pipeline with a positive question
    count: in the third round [generate_quiz], declared last, runs before
    [generate_path]. *)
Lemma declaration_order_counterexample :
  ∃ r, run_steps Samples.all_succeed 0 (steps full_pipeline) Samples.sample_request
       = Some r
       ∧ id <$> steps_in_round 3 (log r) = ["generate_quiz"; "generate_path"]
       ∧ ¬ runs_in_declaration_order (steps full_pipeline) r.
Proof.
  eexists. split_and!; [vm_compute; reflexivity|reflexivity|].
  intros H. specialize (H 3). apply (fmap_sublist id) in H.
  vm_compute in H.
  repeat match goal with
         | H : sublist _ _ |- _ => inversion H; clear H; simplify_eq
         end.
Qed.

(** [cycle_stalls] at two steps that wait for each other. *)
Lemma cycle_stalls_witness :
  unique_ids [Samples.step_a; Samples.step_b]
  ∧ [Samples.step_a; Samples.step_b] ⊆ [Samples.step_a; Samples.step_b]
  ∧ dependency_cycle [Samples.step_a; Samples.step_b]
  ∧ ∃ r es, run_steps Samples.all_succeed 0 [Samples.step_a; Samples.step_b]
                      Samples.sample_request = Some r
            ∧ errors (state r) = Some (es ++ [stall_message])
            ∧ completed (state r) = Some false.
Proof.
  assert (unique_ids [Samples.step_a; Samples.step_b]) as Hu.
  { unfold unique_ids. simpl. apply NoDup_ListNoDup.
    repeat constructor; simpl; intuition discriminate. }
  assert (dependency_cycle [Samples.step_a; Samples.step_b]) as Hcyc.
  { split; [done|]. intros [|[|i]] s Hs; simpl in Hs; simplify_eq.
    - exists Samples.step_b. split; [done|]. by left.
    - exists Samples.step_a. split; [done|]. by left. }
  split_and!; [exact Hu|done|exact Hcyc|].
  destruct (cycle_stalls Samples.all_succeed 0 [Samples.step_a; Samples.step_b]
              Samples.sample_request [Samples.step_a; Samples.step_b]
              Hu (reflexivity _) Hcyc)
    as (r & es & Hr & He & _ & Hc).
  exists r, es. split_and!; [exact Hr|exact He|exact Hc].
Defined.

(** *** Every run *)

Section Runs.
Context (agents : Agents).

(** X19. For every list of steps, initial state and agents the
    scheduler returns. The steps left pending and the steps run are
    together the declared steps, so no step runs twice and the agents are
    called at most once per declared step; and a step runs only after
    every step it names as a dependency has run. *)
Theorem steps_wait_for_dependencies now steps0 initialState :
  ∃ r, run_steps agents now steps0 initialState = Some r
       ∧ pendingSteps r ++ (log_step <$> log r) ≡ₚ steps0
       ∧ length (log r) ≤ length steps0
       ∧ (∀ i e dep, log r !! i = Some e →
            dep ∈ default [] (dependencies (log_step e)) →
            ∃ j e0, j < i ∧ log r !! j = Some e0 ∧ id (log_step e0) = dep).
Proof.
  destruct (run_steps_final agents steps0 _ now initialState eq_refl)
    as (r & Hr & []).
  exists r. split_and!; [done|done| |done].
  apply Permutation_length in f_perm0.
  rewrite length_app, length_fmap in f_perm0. lia.
Qed.


(** *** The request *)

(** A step that returns from the [switch] names none of the fields of
    the request. *)
Lemma dispatch_keeps_request clock ty st p :
  dispatch agents clock ty st = Normal p →
  set_url p = None ∧ set_question p = None ∧ set_userLevel p = None
  ∧ set_questionCount p = None ∧ set_conversationHistory p = None
  ∧ set_sessionId p = None.
Proof.
  unfold dispatch.
  destruct ty; cbn;
    unfold executeParseDocument, executeExtractKeypoints,
      executeGenerateLearningPath, executeGenerateQuiz, executeAnswerQuestion;
    intros H;
    repeat match type of H with
    | context [match ?x with _ => _ end] => destruct x eqn:?; try discriminate
    | context [if ?b then _ else _] => destruct b eqn:?; try discriminate
    end;
    cbn in H;
    repeat match type of H with
    | (?c ≫= _) = Normal _ => destruct c eqn:?; cbn in H; try discriminate
    | context [require_success ?r ?f] =>
        unfold require_success in H; destruct (success r); cbn in H; try discriminate
    end;
    by inversion H.
Qed.

Lemma executeStep_keeps_request clock ty st p :
  executeStep agents clock ty st = Normal p → same_request (merge st p) st.
Proof.
  intros Hp. destruct (executeStep_cases agents clock ty st)
    as [(q&Hd&_&He)|(m&_&He)]; rewrite He in Hp; simplify_eq.
  - destruct (dispatch_keeps_request _ _ _ _ Hd) as (H1&H2&H3&H4&H5&H6).
    unfold same_request, merge. simpl. by rewrite H1, H2, H3, H4, H5, H6.
  - done.
Qed.

Lemma run_step_state i s r :
  same_request (state (run_step agents i s r)) (state r).
Proof.
  destruct (run_step_eq agents i s r) as (p & Hp & ->). simpl.
  by eapply executeStep_keeps_request.
Qed.

Lemma same_request_trans a b c :
  same_request a b → same_request b c → same_request a c.
Proof.
  unfold same_request. intros (?&?&?&?&?&?) (?&?&?&?&?&?).
  split_and!; congruence.
Qed.

(** During a scan the request stays as it was, and the steps that the
    request keeps from running stay pending. *)
Lemma scan_request s0 (held : list WorkflowStep) r :
  (∀ d st, d ∈ held → same_request st s0 → checkCondition d st = false) →
  same_request (state r) s0 ∧ held ⊆ pendingSteps r →
  let r' := scan agents (length (pendingSteps r)) (start_round r) in
  same_request (state r') s0 ∧ held ⊆ pendingSteps r'.
Proof.
  intros Hheld HI.
  destruct (scan_inv agents
    (λ todo kept r', same_request (state r') s0 ∧ held ⊆ pendingSteps r'))
    with (todo := pendingSteps r) (kept := @nil WorkflowStep) (r := start_round r)
    as (kept' & _ & H); auto.
  - intros todo s kept r1 Hp Hr [Hsame Hsub]. split.
    + eapply same_request_trans; [apply run_step_state|done].
    + rewrite (run_step_pending _ _ _ _ _ Hp). intros d Hd.
      specialize (Hsub d Hd). rewrite Hp in Hsub.
      apply elem_of_app in Hsub as [Hin|Hin]; [apply elem_of_app; by left|].
      apply elem_of_cons in Hin as [->|Hin]; [|apply elem_of_app; by right].
      unfold runnable in Hr. rewrite (Hheld s (state r1)), andb_false_r in Hr; done.
  - simpl. by rewrite app_nil_r.
Qed.

(** At the end of the loop the request is as it was, the steps it
    holds back are pending, and a run that leaves a step pending is not
    completed and ends its errors with the stall message. *)
Lemma rounds_request s0 held fuel r r' :
  (∀ d st, d ∈ held → same_request st s0 → checkCondition d st = false) →
  same_request (state r) s0 → held ⊆ pendingSteps r →
  rounds agents fuel r = Some r' →
  same_request (state (finish r')) s0 ∧ held ⊆ pendingSteps (finish r')
  ∧ (pendingSteps r' ≠ [] →
     completed (state (finish r')) = Some false
     ∧ last (errors_or_empty (state (finish r'))) = Some stall_message).
Proof.
  intros Hheld Hsame Hsub Hr.
  destruct (rounds_inv agents
              (λ r, same_request (state r) s0 ∧ held ⊆ pendingSteps r)
              (λ r H _, scan_request s0 held r Hheld H) _ _ _ (conj Hsame Hsub) Hr)
    as [[Hnil [H1 H2]]|(r1 & -> & [H1 H2] & Hne & _ & _)].
  - split_and!; [done|done|]. intros Hne. done.
  - split_and!; [done|done|]. intros _. simpl. split.
    + destruct (pendingSteps r1); [done|]. done.
    + unfold errors_or_empty. simpl. by rewrite last_snoc.
Qed.

(** X21. For every list of steps, initial state and agents, the state
    the scheduler returns has the [url], [question], [userLevel],
    [questionCount] and [conversationHistory] of the initial state, and
    the session identifier fixed at the start: no step overwrites what
    the caller asked for. *)
Theorem request_survives_the_run now steps0 initialState :
  ∃ r, run_steps agents now steps0 initialState = Some r
       ∧ url (state r) = url initialState
       ∧ question (state r) = question initialState
       ∧ userLevel (state r) = userLevel initialState
       ∧ questionCount (state r) = questionCount initialState
       ∧ conversationHistory (state r) = conversationHistory initialState
       ∧ sessionId (state r)
         = Some (Js.or_else (sessionId initialState)
                            ("session_" +:+ Js.string_of_nat now)).
Proof.
  unfold run_steps.
  set (r0 := mkRun _ _ _ _ _ _ _).
  destruct (rounds_total agents (S (length steps0)) r0) as [r1 Hr1]; [simpl; lia|].
  rewrite Hr1. eexists. split; [done|].
  destruct (rounds_request (initial_state now initialState) []
              (S (length steps0)) r0 r1)
    as ((H1&H2&H3&H4&H5&H6) & _); [| |set_solver|done|].
  - intros d st Hd. by apply elem_of_nil in Hd.
  - done.
  - simpl in *. rewrite H1, H2, H3, H4, H5, H6. done.
Qed.

(** X22. When a declared step has a condition that is false of every
    state that carries the request of the initial state, the step never
    runs: it is pending in the run the scheduler returns, [completed] is
    [false], and the last entry of [errors] is the stall message,
    whatever the other steps and the agents do. *)
Theorem unmet_condition_stalls now steps0 initialState d :
  d ∈ steps0 →
  (∀ st, same_request st (initial_state now initialState) →
         checkCondition d st = false) →
  ∃ r, run_steps agents now steps0 initialState = Some r
       ∧ d ∈ pendingSteps r
       ∧ completed (state r) = Some false
       ∧ last (errors_or_empty (state r)) = Some stall_message.
Proof.
  intros Hd Hcond. unfold run_steps.
  set (r0 := mkRun _ _ _ _ _ _ _).
  destruct (rounds_total agents (S (length steps0)) r0) as [r1 Hr1]; [simpl; lia|].
  rewrite Hr1. eexists. split; [done|].
  destruct (rounds_request (initial_state now initialState) [d]
              (S (length steps0)) r0 r1)
    as (_ & Hsub & Hstall); [| | |done|].
  - intros d' st ->%list_elem_of_singleton. apply Hcond.
  - done.
  - intros d' ->%list_elem_of_singleton. done.
  - assert (d ∈ pendingSteps (finish r1)) as Hin by (apply Hsub; by left).
    split; [done|]. apply Hstall. simpl in Hin. intros Hnil. rewrite Hnil in Hin.
    by apply elem_of_nil in Hin.
Qed.

(** X23. The workflow [full_pipeline], started without a positive
    [questionCount], never completes: whatever the agents do, the step
    [generate_quiz] is left pending, [completed] is [false] and the last
    entry of [errors] is the stall message. *)
Theorem pipeline_without_quiz_never_completes now initialState :
  (default 0 (questionCount initialState) ≤ 0)%Z →
  ∃ r, run_steps agents now (steps full_pipeline) initialState = Some r
       ∧ executeWorkflow agents now "full_pipeline" initialState
         = Some (Normal (state r))
       ∧ (∃ d, d ∈ pendingSteps r ∧ id d = "generate_quiz")
       ∧ completed (state r) = Some false
       ∧ last (errors_or_empty (state r)) = Some stall_message.
Proof.
  intros Hcount.
  assert (∃ d, last (steps full_pipeline) = Some d ∧ id d = "generate_quiz"
               ∧ ∀ st, same_request st (initial_state now initialState) →
                       checkCondition d st = false) as (d & Hlast & Hid & Hcond).
  { eexists. split_and!; [done|done|].
    intros st (_&_&_&Hq&_). unfold checkCondition. simpl. rewrite Hq. simpl. lia. }
  assert (d ∈ steps full_pipeline) as Hd.
  { apply last_Some in Hlast as [l' ->]. apply elem_of_app. right. by left. }
  unfold executeWorkflow, run_steps.
  change (getWorkflowDefinitions !! "full_pipeline") with (Some full_pipeline).
  set (r0 := mkRun _ _ _ _ _ _ _).
  destruct (rounds_total agents (S (length (steps full_pipeline))) r0)
    as [r1 Hr1]; [simpl; lia|].
  pose proof Hr1 as Hr1'. unfold r0 in Hr1'. rewrite Hr1, Hr1'.
  exists (finish r1). split; [done|]. split; [done|].
  destruct (rounds_request (initial_state now initialState) [d]
              (S (length (steps full_pipeline))) r0 r1)
    as (_ & Hsub & Hstall); [| | |done|].
  - intros d' st ->%list_elem_of_singleton. apply Hcond.
  - done.
  - intros d' ->%list_elem_of_singleton. done.
  - assert (d ∈ pendingSteps (finish r1)) as Hin by (apply Hsub; by left).
    split; [by exists d|]. apply Hstall. simpl in Hin. intros Hnil.
    rewrite Hnil in Hin. by apply elem_of_nil in Hin.
Qed.
(** *** A failed step *)

(** The request of a state is not touched by what the scheduler writes
    into [errors] and [completed]. *)
Lemma same_request_written st es b :
  same_request (with_completed (with_errors st es) b) st.
Proof. done. Qed.

Lemma same_request_sym a b : same_request a b → same_request b a.
Proof. unfold same_request. intros (?&?&?&?&?&?). by split_and!. Qed.

(** In a predefined workflow every step whose condition the request
    meets runs, whatever the agents do. *)
Lemma predefined_steps_run now workflowId workflow initialState r :
  (workflowId, workflow) ∈ workflow_table →
  run_steps agents now (steps workflow) initialState = Some r →
  final agents (steps workflow) (initial_state now initialState) r →
  ∀ s, s ∈ steps workflow →
       checkCondition s (initial_state now initialState) = true →
       ∃ e, e ∈ log r ∧ log_step e = s.
Proof.
  intros Htable Hr [].
  destruct (predefined_well_formed _ _ Htable) as (Hu & Hord & _).
  destruct (predefined_conditions _ _ Htable) as (Hreq & Hdeps).
  set (s0 := initial_state now initialState) in *.
  assert (same_request (state r) s0) as Hsame.
  { unfold run_steps in Hr. fold s0 in Hr.
    destruct (rounds agents _ _) as [r1|] eqn:Hr1; [|done].
    simpl in Hr. simplify_eq.
    destruct (rounds_request s0 [] (S (length (steps workflow)))
                (mkRun s0 ∅ (steps workflow) false 0 0 []) r1) as (H & _);
      [intros d st Hd; by apply elem_of_nil in Hd|done|set_solver|exact Hr1|].
    exact H. }
  assert (NoDup (steps workflow)) as Hnd by (by eapply NoDup_fmap_1).
  assert (∀ i s, steps workflow !! i = Some s → checkCondition s s0 = true →
                 s ∉ pendingSteps r) as Hnone.
  { intros i. induction i as [i IH] using lt_wf_ind. intros s Hi Hc Hs.
    assert (s ∈ steps workflow) as Hs0 by (by eapply list_elem_of_lookup_2).
    destruct (f_blocked0 s Hs) as (st & es & b & Hst & Hno).
    assert (checkCondition s st = true) as Hcst.
    { rewrite <- Hc. apply Hreq; [done|].
      eapply same_request_trans; [|exact Hsame].
      apply same_request_sym. rewrite Hst. apply same_request_written. }
    rewrite Hcst, andb_true_r in Hno.
    assert (checkDependencies s (completedSteps r) = true); [|congruence].
    apply checkDependencies_spec. intros dep Hdep.
    destruct (Hdeps s dep Hs0 Hdep) as (d & Hd & <- & Hnocond).
    assert ([d; s] `sublist_of` steps workflow) as Hpair by (by apply Hord).
    apply sublist_pair_inv in Hpair as (j & i' & Hlt & Hj & Hi').
    assert (i' = i) as -> by (eapply NoDup_lookup; eauto).
    assert (d ∉ pendingSteps r) as Hdp.
    { apply (IH j Hlt d Hj). unfold checkCondition. by rewrite Hnocond. }
    apply f_done0. rewrite <- f_perm0 in Hd.
    apply elem_of_app in Hd as [Hd|Hd]; [done|].
    apply list_elem_of_fmap in Hd as (e & -> & He). eauto. }
  intros s Hs Hc.
  pose proof Hs as Hin. apply list_elem_of_lookup in Hin as [i Hi].
  rewrite <- f_perm0 in Hs. apply elem_of_app in Hs as [Hs|Hs].
  - by destruct (Hnone i s Hi Hc).
  - apply list_elem_of_fmap in Hs as (e & -> & He). eauto.
Qed.

(** The request is the same at the end of a run as at its start. *)
Lemma run_steps_request now steps0 initialState r :
  run_steps agents now steps0 initialState = Some r →
  same_request (state r) (initial_state now initialState).
Proof.
  unfold run_steps. intros Hr.
  destruct (rounds agents _ _) as [r1|] eqn:Hr1; [|done].
  simpl in Hr. simplify_eq.
  destruct (rounds_request (initial_state now initialState) []
              (S (length steps0))
              (mkRun (initial_state now initialState) ∅ steps0 false 0 0 []) r1)
    as (H & _);
    [intros d st Hd; by apply elem_of_nil in Hd|done|set_solver|exact Hr1|].
  exact H.
Qed.

End Runs.


(** [unmet_condition_stalls] at the full pipeline and a request that
    asks for no quiz. *)
Lemma unmet_condition_stalls_witness :
  Samples.quiz_step ∈ steps full_pipeline
  ∧ (∀ st, same_request st (initial_state 0 Samples.request_without_quiz) →
           checkCondition Samples.quiz_step st = false)
  ∧ ∃ r, run_steps Samples.all_succeed 0 (steps full_pipeline)
                   Samples.request_without_quiz = Some r
         ∧ Samples.quiz_step ∈ pendingSteps r
         ∧ completed (state r) = Some false.
Proof.
  assert (Samples.quiz_step ∈ steps full_pipeline) as Hd.
  { do 3 right. left. }
  assert (∀ st, same_request st (initial_state 0 Samples.request_without_quiz) →
                checkCondition Samples.quiz_step st = false) as Hcond.
  { intros st (_&_&_&Hq&_). unfold checkCondition. simpl. by rewrite Hq. }
  split_and!; [exact Hd|exact Hcond|].
  destruct (unmet_condition_stalls Samples.all_succeed 0 (steps full_pipeline)
              Samples.request_without_quiz Samples.quiz_step Hd Hcond)
    as (r & Hr & Hin & Hc & _).
  exists r. split_and!; [exact Hr|exact Hin|exact Hc].
Defined.

(** [pipeline_without_quiz_never_completes] at the same request. *)
Lemma pipeline_without_quiz_witness :
  (default 0 (questionCount Samples.request_without_quiz) ≤ 0)%Z
  ∧ ∃ r, run_steps Samples.all_succeed 0 (steps full_pipeline)
                   Samples.request_without_quiz = Some r
         ∧ completed (state r) = Some false.
Proof.
  assert (default 0 (questionCount Samples.request_without_quiz) ≤ 0)%Z as H.
  { simpl. lia. }
  split; [exact H|].
  destruct (pipeline_without_quiz_never_completes Samples.all_succeed 0
              Samples.request_without_quiz H)
    as (r & Hr & _ & _ & Hc & _).
  exists r. split; [exact Hr|exact Hc].
Defined.
End WorkflowFacts.

(** ** The stream *)

Module StreamFacts.
Import Workflow WorkflowStream WorkflowFacts.

#[local] Arguments merge : simpl never.

Section Streams.
Context (agents : Agents).

Lemma stream_step_vars i step s :
  vars (stream_step agents i step s) = run_step agents i step (vars s).
Proof.
  unfold stream_step, run_step.
  by destruct (executeStep agents (clock (vars s)) (type step) (state (vars s))).
Qed.

Lemma stream_scan_vars i s :
  vars (stream_scan agents i s) = scan agents i (vars s).
Proof.
  revert s. induction i as [|i IH]; intros s; [done|].
  simpl. destruct (pendingSteps (vars s) !! i) as [step|]; [|apply IH].
  destruct (runnable step (vars s)); [|apply IH].
  by rewrite IH, stream_step_vars.
Qed.

(** A step that returns from the [switch] does not name [completed]. *)
Lemma dispatch_keeps_completed clock ty st p :
  dispatch agents clock ty st = Normal p → set_completed p = None.
Proof.
  unfold dispatch.
  destruct ty; cbn;
    unfold executeParseDocument, executeExtractKeypoints,
      executeGenerateLearningPath, executeGenerateQuiz, executeAnswerQuestion;
    intros H;
    repeat match type of H with
    | context [match ?x with _ => _ end] => destruct x eqn:?; try discriminate
    | context [if ?b then _ else _] => destruct b eqn:?; try discriminate
    end;
    cbn in H;
    repeat match type of H with
    | (?c ≫= _) = Normal _ => destruct c eqn:?; cbn in H; try discriminate
    | context [require_success ?r ?f] =>
        unfold require_success in H; destruct (success r); cbn in H; try discriminate
    end;
    by inversion H.
Qed.

Lemma executeStep_keeps_completed clock ty st p :
  executeStep agents clock ty st = Normal p →
  completed (merge st p) = completed st.
Proof.
  intros Hp. destruct (executeStep_cases agents clock ty st)
    as [(q&Hd&_&He)|(m&_&He)]; rewrite He in Hp; simplify_eq.
  - unfold merge. simpl. by rewrite (dispatch_keeps_completed _ _ _ _ Hd).
  - done.
Qed.

Lemma with_completed_same st b :
  completed st = Some b → with_completed st b = st.
Proof. destruct st. simpl. by intros ->. Qed.


Lemma streaming_round s0 s :
  streaming agents s0 s → streaming agents s0 (update (start_round (vars s)) s).
Proof. intros []. by split. Qed.

Lemma streaming_step s0 i step s :
  streaming agents s0 s → streaming agents s0 (stream_step agents i step s).
Proof.
  intros [].
  destruct (executeStep_total agents (clock (vars s)) (type step) (state (vars s)))
    as [p Hp].
  assert (length (seen s) = S (length (log (vars s)))) as Hlen.
  { by rewrite st_seen0, length_cons, length_fmap. }
  unfold stream_step. rewrite Hp.
  split; unfold seen in *; simpl.
  - rewrite !fmap_app, st_seen0. simpl. unfold after_step. simpl. by rewrite Hp.
  - rewrite fmap_app, st_objects0, length_app. simpl.
    rewrite Nat.add_1_r, st_object0. f_equal. by rewrite seq_S.
  - rewrite length_app. simpl. lia.
  - intros j Hj. rewrite fmap_app. unfold store.
    destruct (decide (j = object s)) as [->|Hne].
    + rewrite lookup_insert_eq, lookup_app_l by lia.
      rewrite last_lookup, Hlen in st_last0. simpl in st_last0.
      by rewrite st_object0.
    + rewrite lookup_insert_ne by done.
      rewrite lookup_app_l by lia. apply st_retired0. lia.
  - rewrite fmap_app. apply last_snoc.
  - rewrite fmap_app. apply Forall_app. split; [done|].
    constructor; [|done].
    etrans; [exact (executeStep_keeps_completed _ _ _ _ Hp)|].
    rewrite Forall_forall in st_open0. apply st_open0.
    by eapply last_Some_elem_of.
Qed.

Lemma streaming_scan s0 i s :
  streaming agents s0 s → streaming agents s0 (stream_scan agents i s).
Proof.
  revert s. induction i as [|i IH]; intros s H; [done|].
  simpl. destruct (pendingSteps (vars s) !! i) as [step|]; [|by apply IH].
  destruct (runnable step (vars s)); [|by apply IH].
  by apply IH, streaming_step.
Qed.

(** The loop of the stream goes through the rounds of [executeWorkflow]
    and leaves it at the same point. *)
Lemma stream_rounds_spec s0 fuel s r :
  streaming agents s0 s →
  rounds agents fuel (vars s) = Some r →
  ∃ s', stream_rounds agents fuel s = Some s'
        ∧ ((pendingSteps r = [] ∧ vars s' = r ∧ streaming agents s0 s')
           ∨ (∃ s1, streaming agents s0 s1 ∧ pendingSteps (vars s1) ≠ []
                    ∧ r = stalled (vars s1) ∧ s' = stream_stalled s1)).
Proof.
  revert s. induction fuel as [|fuel IH]; intros s HJ Hr; simpl in *.
  - destruct (pendingSteps (vars s)) eqn:Hp; [|done]. simplify_eq.
    exists s. split; [done|]. by left.
  - destruct (pendingSteps (vars s)) as [|x l] eqn:Hp.
    { simplify_eq. exists s. split; [done|]. by left. }
    rewrite <- Hp in *.
    set (s' := stream_scan agents _ _).
    assert (vars s' = scan agents (length (pendingSteps (vars s)))
                        (start_round (vars s))) as Hv
      by apply stream_scan_vars.
    assert (streaming agents s0 s') as HJ' by (by apply streaming_scan, streaming_round).
    rewrite <- Hv in Hr. destruct (progressMade (vars s')) eqn:Hprog.
    + by apply IH.
    + simplify_eq. eexists. split; [done|]. right. exists s'.
      split_and!; [done| |done|done].
      destruct (scan_no_progress agents (vars s)) as [Heq _].
      { by rewrite <- Hv. }
      rewrite Hv, Heq. simpl. by rewrite Hp.
Qed.

(** The stream as a whole, beside the run of [executeWorkflow]. *)
Lemma stream_steps_spec now steps0 initialState :
  let s0 := initial_state now initialState in
  ∃ r1 s1,
    rounds agents (S (length steps0)) (mkRun s0 ∅ steps0 false 0 0 []) = Some r1
    ∧ streaming agents s0 s1
    ∧ ((pendingSteps r1 = [] ∧ vars s1 = r1
        ∧ stream_steps agents now steps0 initialState = Some (stream_finish s1))
       ∨ (pendingSteps (vars s1) ≠ [] ∧ r1 = stalled (vars s1)
          ∧ stream_steps agents now steps0 initialState
            = Some (stream_finish (stream_stalled s1)))).
Proof.
  intros s0. set (r0 := mkRun s0 ∅ steps0 false 0 0 []).
  destruct (rounds_total agents (S (length steps0)) r0) as [r1 Hr1]; [simpl; lia|].
  set (i0 := yield (mkStream r0 0 ∅ [])).
  assert (streaming agents s0 i0) as H0.
  { split; try done.
    - intros i Hi. simpl in Hi. lia.
    - unfold seen. simpl. by repeat constructor. }
  destruct (stream_rounds_spec s0 (S (length steps0)) i0 r1 H0 Hr1)
    as (s' & Hs' & [(Hnil & Hv & HJ)|(s1 & HJ & Hne & -> & ->)]).
  - exists r1, s'. split_and!; [done|done|]. left. split_and!; [done|done|].
    unfold stream_steps. fold s0. fold r0. fold i0. by rewrite Hs'.
  - exists (stalled (vars s1)), s1. split_and!; [done|done|]. right.
    split_and!; [done|done|].
    unfold stream_steps. fold s0. fold r0. fold i0. by rewrite Hs'.
Qed.


Lemma streaming_open s0 s :
  streaming agents s0 s → completed (state (vars s)) = Some false.
Proof.
  intros []. rewrite Forall_forall in st_open0. apply st_open0.
  by eapply last_Some_elem_of.
Qed.

(** Where the stream ends: after the loop the last state object is
    written once more, or twice when the run stalled, and yielded each
    time. *)
Lemma stream_end now steps0 initialState :
  let s0 := initial_state now initialState in
  ∃ r1 s1 s,
    rounds agents (S (length steps0)) (mkRun s0 ∅ steps0 false 0 0 []) = Some r1
    ∧ streaming agents s0 s1
    ∧ stream_steps agents now steps0 initialState = Some s
    ∧ object s = object s1 ∧ retired s = retired s1
    ∧ log (vars s) = log (vars s1) ∧ log r1 = log (vars s1)
    ∧ pendingSteps (vars s) = pendingSteps (vars s1)
    ∧ pendingSteps r1 = pendingSteps (vars s1)
    ∧ completedSteps (vars s) = completedSteps (vars s1)
    ∧ completedSteps r1 = completedSteps (vars s1)
    ∧ ((pendingSteps (vars s1) = [] ∧ state r1 = state (vars s1)
        ∧ state (vars s) = state (finish r1)
        ∧ yielded s
          = yielded s1 ++ [{| y_object := object s1; y_value := state (vars s) |}])
       ∨ (pendingSteps (vars s1) ≠ []
          ∧ state r1
            = with_errors (state (vars s1))
                (errors_or_empty (state (vars s1)) ++ [stall_message])
          ∧ state (vars s)
            = with_errors (state (vars s1))
                (errors_or_empty (state (vars s1)) ++ [stream_stall_message])
          ∧ yielded s
            = yielded s1
              ++ [{| y_object := object s1; y_value := state (vars s) |};
                  {| y_object := object s1; y_value := state (vars s) |}])).
Proof.
  intros s0.
  destruct (stream_steps_spec now steps0 initialState)
    as (r1 & s1 & Hr1 & HJ & [(Hnil & Hv & Hs)|(Hne & -> & Hs)]).
  - exists r1, s1, (stream_finish s1). subst r1.
    split_and!; try done. left. done.
  - exists (stalled (vars s1)), s1, (stream_finish (stream_stalled s1)).
    split_and!; try done. right.
    set (st := with_errors (state (vars s1))
                 (errors_or_empty (state (vars s1)) ++ [stream_stall_message])).
    assert (state (vars (stream_finish (stream_stalled s1))) = st) as Hst.
    { change (with_completed st
                (bool_decide (pendingSteps (vars s1) = [])
                 && (length (errors_or_empty st) =? 0)) = st).
      rewrite bool_decide_eq_false_2 by done.
      apply with_completed_same. apply (streaming_open _ _ HJ). }
    split_and!; [done|done|done|].
    rewrite Hst.
    change (yielded (stream_finish (stream_stalled s1)))
      with ((yielded s1 ++ [{| y_object := object s1; y_value := st |}])
            ++ [{| y_object := object s1;
                   y_value := state (vars (stream_finish (stream_stalled s1))) |}]).
    by rewrite Hst, <- app_assoc.
Qed.

(** X27. The stream ends as the run of [executeWorkflow] on the same
    input does. Both return; they run the same steps, in the same order
    and on the same states, and leave the same steps pending; the last
    state the stream yields is the state [executeWorkflow] returns when no
    step is left pending, and differs from it only by the shorter stall
    message at the end of [errors] when one is. *)
Theorem stream_ends_as_the_run now steps0 initialState :
  ∃ r s, run_steps agents now steps0 initialState = Some r
       ∧ stream_steps agents now steps0 initialState = Some s
       ∧ last (seen s) = Some (state (vars s))
       ∧ log (vars s) = log r
       ∧ pendingSteps (vars s) = pendingSteps r
       ∧ (pendingSteps r = [] → state (vars s) = state r)
       ∧ (pendingSteps r ≠ [] →
          ∃ es, errors (state r) = Some (es ++ [stall_message])
                ∧ state (vars s)
                  = with_errors (state r) (es ++ [stream_stall_message])).
Proof.
  destruct (stream_end now steps0 initialState)
    as (r1 & s1 & s & Hr1 & HJ & Hs & Ho & Hret & Hl & Hl1 & Hp & Hp1 & _ & _ & Hend).
  exists (finish r1), s. unfold run_steps. rewrite Hr1.
  split_and!; [done|done| |simpl; congruence|simpl; congruence| |].
  - unfold seen.
    destruct Hend as [(_ & _ & _ & ->)|(_ & _ & _ & ->)];
      by rewrite fmap_app, last_app.
  - simpl. intros Hnil.
    destruct Hend as [(_ & _ & ? & _)|(Hne & _)]; [done|congruence].
  - simpl. intros Hne.
    destruct Hend as [(Hnil & _)|(_ & Hst1 & Hst & _)]; [congruence|].
    exists (errors_or_empty (state (vars s1))). rewrite Hst1, Hst. split; [done|].
    pose proof (streaming_open _ _ HJ) as Hc.
    destruct (pendingSteps r1) eqn:E; [done|].
    destruct (state (vars s1)). simpl in *. by rewrite Hc.
Qed.

(** X28. The stream yields the state it starts from, then the state
    after each step that runs, in the order the steps run, and then the
    final state, twice when the run stalled. Every state yielded before
    the last has [completed = false]. *)
Theorem stream_shows_every_step now steps0 initialState :
  ∃ s, stream_steps agents now steps0 initialState = Some s
     ∧ seen s
       = (initial_state now initialState :: (after_step agents <$> log (vars s)))
         ++ replicate (if decide (pendingSteps (vars s) = []) then 1 else 2)
                      (state (vars s))
     ∧ ∀ i st, S i < length (seen s) → seen s !! i = Some st →
               completed st = Some false.
Proof.
  destruct (stream_end now steps0 initialState)
    as (r1 & s1 & s & Hr1 & HJ & Hs & Ho & Hret & Hl & Hl1 & Hp & Hp1 & _ & _ & Hend).
  pose proof (streaming_open _ _ HJ) as Hc.
  destruct HJ. exists s. split; [done|]. rewrite Hl, Hp. unfold seen in *.
  rewrite Forall_forall in st_open0.
  destruct Hend as [(Hnil & _ & _ & ->)|(Hne & _ & Hst & ->)];
    rewrite fmap_app, st_seen0, <- st_seen0;
    (destruct (decide (pendingSteps (vars s1) = [])); [|]); try done.
  - split; [done|]. intros i st Hi Hlook.
    rewrite length_app in Hi. simpl in Hi.
    rewrite lookup_app_l in Hlook by lia.
    apply st_open0. by eapply list_elem_of_lookup_2.
  - split; [done|]. intros i st Hi Hlook.
    rewrite length_app in Hi. simpl in Hi.
    destruct (decide (i < length (y_value <$> yielded s1))) as [Hlt|Hge].
    + rewrite lookup_app_l in Hlook by done.
      apply st_open0. by eapply list_elem_of_lookup_2.
    + rewrite lookup_app_r in Hlook by lia.
      replace (i - length (y_value <$> yielded s1)) with 0 in Hlook by lia.
      simpl in Hlook. simplify_eq. rewrite Hst. simpl. done.
Qed.

(** X29. Each step that runs gives the stream a new state object; the
    stall message and the final [completed] are written into the last
    object created, which is yielded again each time. So of the objects a
    consumer keeps, each holds in the end what it held when it was
    yielded, except the last one created, which holds the final state
    whenever it was yielded. *)
Theorem stream_objects now steps0 initialState :
  ∃ s, stream_steps agents now steps0 initialState = Some s
     ∧ y_object <$> yielded s
       = seq 0 (S (length (log (vars s))))
         ++ replicate (if decide (pendingSteps (vars s) = []) then 1 else 2)
                      (length (log (vars s)))
     ∧ ∀ y, y ∈ yielded s →
            store s !! y_object y
            = Some (if decide (y_object y = length (log (vars s)))
                    then state (vars s) else y_value y).
Proof.
  destruct (stream_end now steps0 initialState)
    as (r1 & s1 & s & Hr1 & HJ & Hs & Ho & Hret & Hl & Hl1 & Hp & Hp1 & _ & _ & Hend).
  destruct HJ. exists s. split; [done|]. rewrite Hl, Hp. unfold store.
  rewrite Ho, Hret. rewrite st_object0 in *.
  assert (∀ y, y ∈ yielded s1 →
            <[length (log (vars s1)) := state (vars s)]> (retired s1) !! y_object y
            = Some (if decide (y_object y = length (log (vars s1)))
                    then state (vars s) else y_value y)) as Hold.
  { intros y [i Hi]%list_elem_of_lookup.
    assert (y_object y = i) as Hobj.
    { assert ((y_object <$> yielded s1) !! i = Some (y_object y)) as H
        by (by rewrite list_lookup_fmap, Hi).
      rewrite st_objects0 in H. apply lookup_seq in H as [H _]. simpl in H. done. }
    assert (i < S (length (log (vars s1)))) as Hlt.
    { apply lookup_lt_Some in Hi.
      rewrite <- (length_fmap y_object), st_objects0, length_seq in Hi. done. }
    rewrite Hobj.
    destruct (decide (i = length (log (vars s1)))) as [->|Hne].
    - by rewrite lookup_insert_eq.
    - rewrite lookup_insert_ne by done. rewrite st_retired0 by lia.
      unfold seen. by rewrite list_lookup_fmap, Hi. }
  assert (∀ n (m : gmap nat WorkflowState) v,
            <[n := v]> m !! n = Some (if decide (n = n) then v else v)) as Hnew.
  { intros n m v. rewrite lookup_insert_eq. by destruct (decide _). }
  destruct Hend as [(Hnil & _ & _ & Hy)|(Hne & _ & _ & Hy)]; rewrite Hy;
    rewrite fmap_app, st_objects0;
    (destruct (decide (pendingSteps (vars s1) = [])); [|]); try done.
  - split; [done|]. intros y [Hy'|Hy']%elem_of_app; [by apply Hold|].
    apply list_elem_of_singleton in Hy' as ->. apply Hnew.
  - split; [done|]. intros y [Hy'|Hy']%elem_of_app; [by apply Hold|].
    apply elem_of_cons in Hy' as [->|Hy'];
      [|apply list_elem_of_singleton in Hy' as ->]; apply Hnew.
Qed.


End Streams.
End StreamFacts.

(** ** The service method *)

Module ServiceFacts.
Import Workflow WorkflowFacts.

#[local] Arguments merge : simpl never.

(** X24. For every workflow identifier, initial state and agents, the
    service method either returns a state that is completed and has no
    error, the one the executor returned, or throws a message that
    starts with its own prefix: it never hands on a run that is not
    completed. *)
Theorem service_returns_completed_runs_only agents now workflowId initialState :
  ∃ outcome,
    AIWorkflowService.executeWorkflow agents now workflowId initialState
    = Some outcome
    ∧ match outcome with
      | Normal st =>
          completed st = Some true ∧ errors st = Some []
          ∧ Workflow.executeWorkflow agents now workflowId initialState
            = Some (Normal st)
      | Throw message =>
          Js.startsWith message AIWorkflowService.error_prefix = true
      end.
Proof.
  unfold AIWorkflowService.executeWorkflow, Workflow.executeWorkflow.
  destruct (getWorkflowDefinitions !! workflowId) as [workflow|]; simpl.
  2:{ eexists. split; [done|]. apply TextFacts.prefix_append. }
  destruct (run_steps_final agents (steps workflow) _ now initialState eq_refl)
    as (r & Hr & Hfin).
  rewrite Hr. simpl.
  assert (pendingSteps r ≠ [] → errors_or_empty (state r) ≠ []) as Hstall.
  { unfold run_steps in Hr.
    destruct (rounds agents _ _) as [r1|] eqn:Hr1; simpl in Hr; [|discriminate].
    eapply (rounds_request agents (initial_state now initialState) [])
      in Hr1 as (_ & _ & Hstall); [| |done|set_solver].
    2:{ by intros d st Hd%elem_of_nil. }
    simplify_eq. intros Hne Hnil. destruct (Hstall Hne) as [_ Hl].
    by rewrite Hnil in Hl. }
  destruct Hfin. rewrite f_completed0.
  destruct f_errs0 as [es Hes]. unfold errors_or_empty in *. rewrite Hes in *.
  simpl in *.
  destruct (bool_decide_reflect (pendingSteps r = [])) as [Hnil|Hne]; simpl.
  - destruct es as [|e es]; simpl.
    + eexists. split; [done|]. simpl. by rewrite f_completed0, Hes.
    + eexists. split; [done|]. apply TextFacts.prefix_append.
  - destruct es as [|e es]; [by destruct (Hstall Hne)|]. simpl.
    eexists. split; [done|]. apply TextFacts.prefix_append.
Qed.
End ServiceFacts.

(** ** The orchestrator *)

Module OrchestratorFacts.
Import Orchestrator.

Section Facts.
Context (agents : Agents) (sessionId : string) (input : WorkflowInput).

(** The two ways a step ends. *)
Lemma step_cases {T} stepName (stepFunction : BaseAgent.Attempt (AgentResult T))
    meta :
  (∃ value, executeStep stepName stepFunction meta
            = (push_step stepName meta, Normal value))
  ∨ (∃ message meta',
       executeStep stepName stepFunction meta = (meta', Throw message)
       ∧ errors meta' = errors meta ++ [{| e_step := stepName; e_error := message |}]
       ∧ (stepsExecuted meta' = stepsExecuted meta
          ∨ stepsExecuted meta' = stepsExecuted meta ++ [stepName])).
Proof.
  unfold executeStep.
  destruct (race stepFunction defaultTimeout) as [result|message].
  - destruct (success result); simpl.
    + left. by eexists.
    + right. eexists _, _. split; [done|]. split; [done|]. by right.
  - right. eexists _, _. split; [done|]. split; [done|]. by left.
Qed.

Lemma step_then {T} stepName (stepFunction : BaseAgent.Attempt (AgentResult T))
    (k : option T → Step Results) before rest :
  (∀ value, ends_well (before ++ stepName :: rest)
              (k value {| stepsExecuted := before ++ [stepName]; errors := [] |})) →
  ends_well (before ++ stepName :: rest)
    ((executeStep stepName stepFunction ≫= k)
       {| stepsExecuted := before; errors := [] |}).
Proof.
  intros Hk. unfold mbind, Step_bind.
  destruct (step_cases stepName stepFunction
              {| stepsExecuted := before; errors := [] |})
    as [(value & ->)|(message & meta' & -> & Herr & Hsteps)].
  - apply Hk.
  - right. exists before, stepName, rest. done.
Qed.

Lemma throw_ends_well planned message :
  ends_well planned (step_throw message {| stepsExecuted := []; errors := [] |}).
Proof. by left. Qed.

Lemma ret_ends_well planned results :
  ends_well planned
    ((mret results : Step Results) {| stepsExecuted := planned; errors := [] |}).
Proof. done. Qed.

Lemma dispatch_ends_well context :
  ends_well (planned_steps input)
    (dispatch agents input context {| stepsExecuted := []; errors := [] |}).
Proof.
  unfold dispatch, planned_steps.
  repeat case_decide; try apply throw_ends_well.
  - unfold executeDocumentAnalysisWorkflow.
    destruct (negb _); [apply throw_ends_well|].
    apply (step_then _ _ _ [] [_]). intros documentContent.
    apply (step_then _ _ _ [_] []). intros keyPoints.
    apply ret_ends_well.
  - unfold executeLearningGenerationWorkflow.
    destruct (keyPoints input) as [[|kp rest]|]; try apply throw_ends_well.
    apply (step_then _ _ _ [] []). intros learningPath.
    apply ret_ends_well.
  - unfold executeInteractiveQAWorkflow.
    destruct (documentContent input); [|apply throw_ends_well].
    destruct (negb _); [apply throw_ends_well|].
    apply (step_then _ _ _ [] []). intros answer.
    apply ret_ends_well.
  - unfold executeQuizGenerationWorkflow.
    destruct (documentContent input); [|apply throw_ends_well].
    apply (step_then _ _ _ [] []). intros quiz.
    apply ret_ends_well.
  - unfold executeFullPipelineWorkflow.
    destruct (negb _); [apply throw_ends_well|].
    destruct (wants_quiz input).
    + apply (step_then _ _ _ [] [_; _; _]). intros documentContent.
      apply (step_then _ _ _ [_] [_; _]). intros keyPoints.
      apply (step_then _ _ _ [_; _] [_]). intros learningPath.
      apply (step_then _ _ _ [_; _; _] []). intros quiz.
      apply ret_ends_well.
    + apply (step_then _ _ _ [] [_; _]). intros documentContent.
      apply (step_then _ _ _ [_] [_]). intros keyPoints.
      apply (step_then _ _ _ [_; _] []). intros learningPath.
      apply ret_ends_well.
Qed.


End Facts.
End OrchestratorFacts.
